(** * Sprite-Sheet-Cutter: grid detection, background removal, cropping

    A shallow embedding of the image-analysis core of the sprite sheet
    cutter ([config.py], [grid_detector.py], [background_remover.py],
    [sprite_cropper.py], [cell_splitter.py] and the loop of [pipeline.py])
    together with the properties its specification states about it and
    further properties of the code.

    Conventions of the embedding.
    - A decoded RGBA image (a numpy array of shape [(h, w, 4)], dtype uint8)
      is a list of rows of pixels; a pixel is a record of four integers.
      Python integers are [Z]; array indices are [Z] too and are converted
      with [Z.to_nat] only after the bounds test the source performs.
    - The boolean arrays [visited] and [bg_mask] are lists of rows of [bool],
      read with list lookup and written with [alter]/insert.
    - [grid_detector.py] computes row and column ratios with binary64
      floats and compares them with the literals 0.95, 0.02, 0.05 and 0.25.
      Those ratios are fractions [c / n] of two integers bounded by the image
      side; for sides below 2^40 the float comparison and the exact rational
      comparison agree (the nearest distinct fraction is at distance
      [1 / (20 n)] resp. [1 / (50 n)], far above one unit in the last
      place), and [total * 0.25] is exact.  They are therefore embedded as
      exact rationals [Q].
    - [resize_sprite] truncates a float product to an integer, where the
      rounding of the float is observable; it is embedded with Rocq's
      primitive binary64 floats.
    - The [while queue] loop of the flood fill is a fuelled recursion
      returning [None] when the fuel runs out; the fuel supplied is shown
      to be sufficient. *)

From Stdlib Require Import ZArith QArith Lia.
From Stdlib Require Import PrimFloat FloatOps SpecFloat Uint63.
From stdpp Require Import base option list list_numbers.

Local Open Scope Z_scope.

(** ** config.py *)

Record Config := mkConfig {
  white_threshold : Z;
  grid_line_threshold : Z;
  grid_line_min_coverage : Q;
  padding : Z;
  output_size : Z;
  flood_fill_tolerance : Z;
  min_sprite_pixels : Z;
  gap_min_width : Z
}.

Definition default_config : Config :=
  mkConfig 230 80 (4 # 5) 10 512 25 200 8.

(** The ranges of the fields: the threshold is a channel value, the sizes
    and tolerances are not negative. *)
Definition valid_config (cfg : Config) : Prop :=
  0 <= white_threshold cfg <= 255 ∧ 0 <= padding cfg ∧ 0 <= output_size cfg ∧
  0 <= flood_fill_tolerance cfg ∧ 0 <= min_sprite_pixels cfg ∧
  0 <= gap_min_width cfg.

(** ** Pixel grids *)

Record Pixel := mkPixel { red : Z; green : Z; blue : Z; alpha : Z }.

Abbreviation PixelGrid := (list (list Pixel)).

Definition transparent : Pixel := mkPixel 0 0 0 0.

(** [arr.shape[:2]] *)
Definition height (arr : PixelGrid) : Z := Z.of_nat (length arr).

Definition width (arr : PixelGrid) : Z :=
  match arr with
  | [] => 0
  | row :: _ => Z.of_nat (length row)
  end.

(** [arr[y, x]]; only evaluated at indices inside the array. *)
Definition pixel_at (arr : PixelGrid) (x y : Z) : Pixel :=
  default transparent (arr !! Z.to_nat y ≫= λ row, row !! Z.to_nat x).

Definition byte (v : Z) : Prop := 0 <= v < 256.

Definition byte_pixel (p : Pixel) : Prop :=
  byte (red p) ∧ byte (green p) ∧ byte (blue p) ∧ byte (alpha p).

(** A decoded image: at least one row and one column, every row of the same
    length, every channel a byte. *)
Definition valid_grid (arr : PixelGrid) : Prop :=
  1 <= height arr ∧ 1 <= width arr ∧
  Forall (λ row, Z.of_nat (length row) = width arr ∧ Forall byte_pixel row) arr.

Definition in_bounds (arr : PixelGrid) (x y : Z) : Prop :=
  0 <= x < width arr ∧ 0 <= y < height arr.

(** [range(a, b)] *)
Definition range (a b : Z) : list Z := seqZ a (b - a).

(** ** background_remover.py *)

Abbreviation Mask := (list (list bool)).

(** [np.zeros((h, w), dtype=bool)] *)
Definition zeros (h w : Z) : Mask :=
  replicate (Z.to_nat h) (replicate (Z.to_nat w) false).

(** [m[y, x]] and [m[y, x] = v] *)
Definition mask_get (m : Mask) (y x : Z) : bool :=
  default false (m !! Z.to_nat y ≫= λ row, row !! Z.to_nat x).

Definition mask_set (m : Mask) (y x : Z) (v : bool) : Mask :=
  alter (λ row, <[Z.to_nat x := v]> row) (Z.to_nat y) m.

Definition _is_near_white (threshold : Z) (r g b : Z) : bool :=
  (threshold <=? r) && (threshold <=? g) && (threshold <=? b).

Definition _within_tolerance (threshold tolerance : Z) (r g b : Z) : bool :=
  (threshold - tolerance <=? r) && (threshold - tolerance <=? g)
  && (threshold - tolerance <=? b).

Definition near_white_at (arr : PixelGrid) (threshold : Z) (x y : Z) : bool :=
  let p := pixel_at arr x y in
  _is_near_white threshold (red p) (green p) (blue p).

Definition within_tolerance_at (arr : PixelGrid) (threshold tolerance : Z)
    (x y : Z) : bool :=
  let p := pixel_at arr x y in
  _within_tolerance threshold tolerance (red p) (green p) (blue p).

(** The two seed-collecting loops: top and bottom row for every column,
    then left and right column for the rows in between. *)
Definition collect_seeds (arr : PixelGrid) (threshold : Z) (h w : Z)
    : list (Z * Z) :=
  flat_map (λ x, flat_map (λ y,
      if near_white_at arr threshold x y then [(x, y)] else []) [0; h - 1])
    (range 0 w)
  ++
  flat_map (λ y, flat_map (λ x,
      if near_white_at arr threshold x y then [(x, y)] else []) [0; w - 1])
    (range 1 (h - 1)).

Record fill_state := mkFill {
  visited : Mask;
  bg_mask : Mask;
  queue : list (Z * Z)
}.

(** Body of [for sx, sy in seeds]. *)
Definition mark_seed (arr : PixelGrid) (threshold : Z)
    (st : fill_state) (s : Z * Z) : fill_state :=
  let sx := s.1 in
  let sy := s.2 in
  if mask_get (visited st) sy sx then st
  else
    let visited' := mask_set (visited st) sy sx true in
    if negb (near_white_at arr threshold sx sy)
    then mkFill visited' (bg_mask st) (queue st)
    else mkFill visited' (mask_set (bg_mask st) sy sx true) (queue st).

Definition directions : list (Z * Z) := [(-1, 0); (1, 0); (0, -1); (0, 1)].

(** Body of [for dx, dy in ...] for the dequeued pixel [(cx, cy)]. *)
Definition visit_neighbour (arr : PixelGrid) (threshold tolerance : Z)
    (h w : Z) (cx cy : Z) (st : fill_state) (d : Z * Z) : fill_state :=
  let nx := cx + d.1 in
  let ny := cy + d.2 in
  if (0 <=? nx) && (nx <? w) && (0 <=? ny) && (ny <? h)
     && negb (mask_get (visited st) ny nx)
  then
    let visited' := mask_set (visited st) ny nx true in
    if within_tolerance_at arr threshold tolerance nx ny
    then mkFill visited' (mask_set (bg_mask st) ny nx true)
                (queue st ++ [(nx, ny)])
    else mkFill visited' (bg_mask st) (queue st)
  else st.

(** [while queue: ...]; [None] when the fuel is exhausted. *)
Fixpoint flood_fill (fuel : nat) (arr : PixelGrid) (threshold tolerance : Z)
    (h w : Z) (st : fill_state) : option fill_state :=
  match queue st with
  | [] => Some st
  | c :: rest =>
      match fuel with
      | O => None
      | S fuel' =>
          flood_fill fuel' arr threshold tolerance h w
            (fold_left (visit_neighbour arr threshold tolerance h w c.1 c.2)
               directions (mkFill (visited st) (bg_mask st) rest))
      end
  end.

(** Number of entries of a boolean array that are still [False]. *)
Definition count_false (m : Mask) : nat :=
  sum_list (map (λ row, length (filter (λ b, b = false) row)) m).

(** State on entry of the [while] loop. *)
Definition seeded_state (arr : PixelGrid) (cfg : Config) : fill_state :=
  let h := height arr in
  let w := width arr in
  let threshold := white_threshold cfg in
  let seeds := collect_seeds arr threshold h w in
  let st := fold_left (mark_seed arr threshold) seeds
              (mkFill (zeros h w) (zeros h w) []) in
  mkFill (visited st) (bg_mask st)
         (filter (λ s, mask_get (bg_mask st) s.2 s.1 = true) seeds).

(** The array [bg_mask] when the loop has finished.  Every iteration takes
    one entry off the queue and adds at most as many entries as it marks
    pixels visited, so the queue length plus the number of unvisited pixels
    is enough fuel ([background_mask_total]). *)
Definition background_mask (arr : PixelGrid) (cfg : Config) : option Mask :=
  let st := seeded_state arr cfg in
  bg_mask <$>
    flood_fill (length (queue st) + count_false (visited st)) arr
      (white_threshold cfg) (flood_fill_tolerance cfg)
      (height arr) (width arr) st.

Definition set_alpha (p : Pixel) (a : Z) : Pixel :=
  mkPixel (red p) (green p) (blue p) a.

(** [arr[bg_mask, 3] = 0] *)
Definition apply_mask (arr : PixelGrid) (m : Mask) : PixelGrid :=
  imap (λ y row,
    imap (λ x p,
      if mask_get m (Z.of_nat y) (Z.of_nat x) then set_alpha p 0 else p) row)
    arr.

Definition remove_background (img : PixelGrid) (cfg : Config)
    : option PixelGrid :=
  apply_mask img <$> background_mask img cfg.


(** ** grid_detector.py *)

(** [(x, y, w, h)] *)
Abbreviation Rect := (Z * Z * Z * Z)%type.

Abbreviation Band := (Z * Z)%type.

Definition MAX_SEPARATOR_THICKNESS : Z := 20.

(** Strict comparison of rationals as a boolean. *)
Definition Qltb (a b : Q) : bool := negb (Qle_bool b a).

(** [int(q)]: truncation towards zero. *)
Definition Qtrunc (q : Q) : Z := Z.quot (Qnum q) (Zpos (Qden q)).

(** [arr.mean(axis=2)] at one pixel: the mean of the three colour channels. *)
Definition brightness (p : Pixel) : Q := (red p + green p + blue p) # 3.

(** [brightness < threshold], the boolean array. *)
Definition below_threshold (arr : PixelGrid) (threshold : Z)
    : list (list bool) :=
  map (map (λ p, Qltb (brightness p) (inject_Z threshold))) arr.

(** Mean of a boolean vector: the fraction of [True] entries. *)
Definition mean_bool (l : list bool) : Q :=
  (inject_Z (Z.of_nat (length (filter (λ b, b = true) l)))
   / inject_Z (Z.of_nat (length l)))%Q.

(** [m.mean(axis=1)]: one ratio per row. *)
Definition mean_axis1 (m : list (list bool)) : list Q := map mean_bool m.

(** [m.mean(axis=0)]: one ratio per column, for an array of [w] columns. *)
Definition mean_axis0 (m : list (list bool)) (w : Z) : list Q :=
  map (λ x, mean_bool (map (λ row, default false (row !! x)) m))
      (seq 0 (Z.to_nat w)).

(** The loop of [_find_bands], started at index [i] with the loop state
    [(bands, in_band, start)]. *)
Fixpoint find_bands_loop (mask : list bool) (i : Z) (in_band : bool)
    (start : Z) (bands : list Band) : list Band :=
  match mask with
  | [] => if in_band then bands ++ [(start, i)] else bands
  | v :: mask' =>
      if v && negb in_band then find_bands_loop mask' (i + 1) true i bands
      else if negb v && in_band
           then find_bands_loop mask' (i + 1) false start (bands ++ [(start, i)])
           else find_bands_loop mask' (i + 1) in_band start bands
  end.

Definition _find_bands (mask : list bool) : list Band :=
  find_bands_loop mask 0 false 0 [].

(** [_bands_to_splits]: the midpoints of the bands, with [0] in front
    when the first midpoint is more than 5% in and [total] behind when the
    last one is less than 95% in.  The products [total * 0.05] and
    [total * 0.95] are compared with an integer, which for totals below
    [2^50] decides as the exact rationals do. *)
Definition _bands_to_splits (bands : list Band) (total : Z)
    : option (list Z) :=
  match bands with
  | [] => None
  | _ =>
      let mids := map (λ b : Band, (b.1 + b.2) / 2) bands in
      let splits := [] in
      let splits :=
        if Qltb (inject_Z total * (5 # 100)) (inject_Z (hd 0 mids))
        then splits ++ [0] else splits in
      let splits := splits ++ mids in
      let splits :=
        if Qltb (inject_Z (List.last mids 0)) (inject_Z total * (95 # 100))
        then splits ++ [total] else splits in
      if (3 <=? length splits)%nat then Some splits else None
  end.

(** Pairs [(l[i], l[i+1])] for [i] in [range(len(l) - 1)]. *)
Fixpoint consecutive {A} (l : list A) : list (A * A) :=
  match l with
  | a :: (b :: _) as l' => (a, b) :: consecutive l'
  | _ => []
  end.

(** The doubly nested loop shared by [_build_cells] and
    [_detect_separator_lines]: one rectangle per pair of a row interval
    and a column interval, slivers dropped. *)
Definition cells_of_intervals (h_intervals v_intervals : list (Z * Z))
    : list Rect :=
  flat_map (λ hi,
    flat_map (λ vi,
      let y0 := hi.1 in let y1 := hi.2 in
      let x0 := vi.1 in let x1 := vi.2 in
      if (x1 - x0 >? 10) && (y1 - y0 >? 10)
      then [(x0, y0, x1 - x0, y1 - y0)] else [])
    v_intervals)
  h_intervals.

Definition _build_cells (h_splits v_splits : list Z) : list Rect :=
  cells_of_intervals (consecutive h_splits) (consecutive v_splits).

(** The loop "gaps between consecutive bands" of
    [_bands_to_gap_intervals]. *)
Definition gaps_between (bands : list Band) : list (Z * Z) :=
  flat_map (λ bb : Band * Band,
    let y0 := bb.1.2 in
    let y1 := bb.2.1 in
    if y1 - y0 >? 10 then [(y0, y1)] else [])
  (consecutive bands).

Definition _bands_to_gap_intervals (bands : list Band) (total : Z)
    : option (list (Z * Z)) :=
  match bands with
  | [] => None
  | first :: _ =>
      let final := List.last bands first in
      let intervals :=
        (if first.1 >? 10 then [(0, first.1)] else [])
        ++ gaps_between bands
        ++ (if final.2 <? total - 10 then [(final.2, total)] else []) in
      match intervals with
      | [] => None
      | _ => Some intervals
      end
  end.

(** Bands of filled rows and of filled columns kept by
    [_detect_separator_lines]: [h_bands] and [v_bands]. *)
Definition separator_bands (arr : PixelGrid) (cfg : Config)
    : list Band * list Band :=
  let w := width arr in
  let dark := below_threshold arr (white_threshold cfg) in
  let row_filled := mean_axis1 dark in
  let col_filled := mean_axis0 dark w in
  let filled_row_mask := map (λ r, Qltb (95 # 100) r) row_filled in
  let filled_col_mask := map (λ r, Qltb (95 # 100) r) col_filled in
  let h_bands_raw := _find_bands filled_row_mask in
  let v_bands_raw := _find_bands filled_col_mask in
  (filter (λ b : Band, b.2 - b.1 <= MAX_SEPARATOR_THICKNESS) h_bands_raw,
   filter (λ b : Band, b.2 - b.1 <= MAX_SEPARATOR_THICKNESS) v_bands_raw).

Definition _detect_separator_lines (arr : PixelGrid) (cfg : Config)
    : option (list Rect) :=
  let h := height arr in
  let w := width arr in
  let '(h_bands, v_bands) := separator_bands arr cfg in
  match h_bands, v_bands with
  | [], [] => None
  | _, _ =>
      let h_intervals :=
        default [(0, h)] (_bands_to_gap_intervals h_bands h) in
      let v_intervals :=
        default [(0, w)] (_bands_to_gap_intervals v_bands w) in
      let cells := cells_of_intervals h_intervals v_intervals in
      if (1 <? length cells)%nat then Some cells else None
  end.

Definition _gaps_to_splits (gaps : option (list Band)) (total : Z) : list Z :=
  match gaps with
  | None | Some [] => [0; total]
  | Some gaps => [0] ++ map (λ g : Band, (g.1 + g.2) / 2) gaps ++ [total]
  end.

Definition _splits_are_balanced (splits : list Z) (total : Z) (min_ratio : Q)
    : bool :=
  forallb (λ ab : Z * Z,
    negb (Qltb (inject_Z (ab.2 - ab.1)) (inject_Z total * min_ratio)))
  (consecutive splits).

Definition default_min_ratio : Q := 25 # 100.

(** Python's stable [sorted(l, key=key)] and
    [sorted(l, key=key, reverse=True)]: an element is inserted in front of
    the first one that does not strictly precede it. *)
Fixpoint insert_sorted {A} (key : A → Z) (reverse : bool) (x : A)
    (l : list A) : list A :=
  match l with
  | [] => [x]
  | y :: l' =>
      if (if reverse then key x <? key y else key y <? key x)
      then y :: insert_sorted key reverse x l'
      else x :: l
  end.

Definition sorted {A} (key : A → Z) (reverse : bool) (l : list A) : list A :=
  foldr (insert_sorted key reverse) [] l.

(** One round of [for n in (2, 1)]; [None] stands for falling through to
    the next round. *)
Definition try_gaps (sorted_gaps : list Band) (total : Z) (n : nat)
    : option (list Band) :=
  if (length sorted_gaps <? n)%nat then None
  else
    let candidate := sorted (λ g : Band, g.1) false (take n sorted_gaps) in
    let splits := _gaps_to_splits (Some candidate) total in
    if _splits_are_balanced splits total default_min_ratio
    then Some candidate else None.

Definition _select_best_gaps (gaps : list Band) (total : Z)
    : option (list Band) :=
  match gaps with
  | [] => None
  | _ =>
      let sorted_gaps := sorted (λ g : Band, g.2 - g.1) true gaps in
      match try_gaps sorted_gaps total 2 with
      | Some candidate => Some candidate
      | None => try_gaps sorted_gaps total 1
      end
  end.

Definition _find_gap_bands (profile : list Q) (content_threshold : Q)
    (min_width total : Z) : list Band :=
  let is_gap := map (λ r, Qltb r content_threshold) profile in
  let bands := _find_bands is_gap in
  let margin := Qtrunc (inject_Z total * (5 # 100)) in
  filter (λ b : Band,
    min_width <= b.2 - b.1 ∧ margin < b.1 ∧ b.2 < total - margin) bands.

(** Gap bands of rows and of columns found by [_detect_white_gaps]:
    [h_gaps] and [v_gaps]. *)
Definition white_gap_bands (arr : PixelGrid) (cfg : Config)
    : list Band * list Band :=
  let h := height arr in
  let w := width arr in
  let is_content := below_threshold arr (white_threshold cfg) in
  let row_content := mean_axis1 is_content in
  let col_content := mean_axis0 is_content w in
  let content_threshold := (2 # 100)%Q in
  (_find_gap_bands row_content content_threshold (gap_min_width cfg) h,
   _find_gap_bands col_content content_threshold (gap_min_width cfg) w).

Definition _detect_white_gaps (arr : PixelGrid) (cfg : Config)
    : option (list Rect) :=
  let h := height arr in
  let w := width arr in
  let '(h_gaps, v_gaps) := white_gap_bands arr cfg in
  match h_gaps, v_gaps with
  | [], [] => None
  | _, _ =>
      let h_selected := _select_best_gaps h_gaps h in
      let v_selected := _select_best_gaps v_gaps w in
      match h_selected, v_selected with
      | None, None => None
      | _, _ =>
          let h_splits := _gaps_to_splits h_selected h in
          let v_splits := _gaps_to_splits v_selected w in
          let cells := _build_cells h_splits v_splits in
          if (1 <? length cells)%nat then Some cells else None
      end
  end.

Definition detect_cells (img : PixelGrid) (cfg : Config) : list Rect :=
  match _detect_separator_lines img cfg with
  | Some cells => cells
  | None =>
      match _detect_white_gaps img cfg with
      | Some cells => cells
      | None => [(0, 0, width img, height img)]
      end
  end.


(** ** sprite_cropper.py *)

(** Exceptions raised by the numpy and PIL calls of [crop_sprite]. *)
Inductive exception := ValueError.

(** Outcome of a call that may raise. *)
Inductive outcome (A : Type) :=
  | Returned (a : A)
  | Raised (e : exception).
Arguments Returned {A} a.
Arguments Raised {A} e.

Definition outcome_bind {A B} (m : outcome A) (f : A → outcome B)
    : outcome B :=
  match m with
  | Returned a => f a
  | Raised e => Raised e
  end.

Notation "x ←! m ; f" := (outcome_bind m (λ x, f))
  (at level 100, m at next level, f at level 200, right associativity,
   only parsing).

(** [np.count_nonzero(alpha)] *)
Definition count_nonzero (alphas : list (list Z)) : Z :=
  Z.of_nat (sum_list (map (λ row, length (filter (λ a, a ≠ 0) row)) alphas)).

(** [np.any(alpha > 0, axis=1)] and [np.any(alpha > 0, axis=0)] *)
Definition any_axis1 (alphas : list (list Z)) : list bool :=
  map (existsb (λ a, 0 <? a)) alphas.

Definition any_axis0 (alphas : list (list Z)) (w : Z) : list bool :=
  map (λ x, existsb (λ row, 0 <? default 0 (row !! x)) alphas)
      (seq 0 (Z.to_nat w)).

Fixpoint first_true (l : list bool) : nat :=
  match l with
  | [] => 0
  | true :: _ => 0
  | false :: l' => if existsb id l' then S (first_true l') else 0
  end.

(** [np.argmax] of a boolean vector: the index of the first [True], 0 when
    there is none; an empty vector raises. *)
Definition argmax (l : list bool) : outcome Z :=
  match l with
  | [] => Raised ValueError
  | _ => Returned (Z.of_nat (first_true l))
  end.

(** PIL's [Image.crop((left, upper, right, lower))]: an inverted box
    raises; pixels of the box outside the image are transparent. *)
Definition crop (img : PixelGrid) (left upper right lower : Z)
    : outcome PixelGrid :=
  if (right <? left) || (lower <? upper) then Raised ValueError
  else Returned
    (map (λ y, map (λ x,
        if (0 <=? x) && (x <? width img) && (0 <=? y) && (y <? height img)
        then pixel_at img x y else transparent)
      (range left right))
    (range upper lower)).

Definition crop_sprite (img : PixelGrid) (cfg : Config)
    : outcome (option PixelGrid) :=
  let alphas := map (map alpha) img in
  if count_nonzero alphas <? min_sprite_pixels cfg then Returned None
  else
    let h := height img in
    let w := width img in
    let rows := any_axis1 alphas in
    let cols := any_axis0 alphas w in
    y_first ←! argmax rows;
    y_last ←! argmax (reverse rows);
    x_first ←! argmax cols;
    x_last ←! argmax (reverse cols);
    let y_min := y_first in
    let y_max := Z.of_nat (length rows) - 1 - y_last in
    let x_min := x_first in
    let x_max := Z.of_nat (length cols) - 1 - x_last in
    let pad := padding cfg in
    let y_min := Z.max 0 (y_min - pad) in
    let y_max := Z.min (h - 1) (y_max + pad) in
    let x_min := Z.max 0 (x_min - pad) in
    let x_max := Z.min (w - 1) (x_max + pad) in
    cropped ←! crop img x_min y_min (x_max + 1) (y_max + 1);
    Returned (Some cropped).

(** Conversion of a Python [int] to [float] (exact below 2^53) and
    [int(f)] for a finite float: truncation towards zero. *)
Definition float_of_int (z : Z) : float := PrimFloat.of_uint63 (Uint63.of_Z z).

Definition int_of_float (f : float) : Z :=
  match Prim2SF f with
  | S754_finite s m e =>
      let a := match e with
               | Z0 => Zpos m
               | Zpos p => Zpos m * 2 ^ Zpos p
               | Zneg p => Zpos m / 2 ^ Zpos p
               end in
      if s then - a else a
  | _ => 0
  end.

(** Python's [min(a, b)] on floats. *)
Definition float_min (a b : float) : float :=
  if PrimFloat.ltb b a then b else a.

(** [(new_w, new_h)] of [resize_sprite]. *)
Definition scaled_size (cw ch size : Z) : Z * Z :=
  let scale := float_min (float_of_int size / float_of_int cw)%float
                         (float_of_int size / float_of_int ch)%float in
  (Z.max 1 (int_of_float (float_of_int cw * scale)%float),
   Z.max 1 (int_of_float (float_of_int ch * scale)%float)).

(** [Image.new("RGBA", (w, h), (0, 0, 0, 0))] *)
Definition new_image (w h : Z) : PixelGrid :=
  replicate (Z.to_nat h) (replicate (Z.to_nat w) transparent).

(** [canvas.paste(im, (ox, oy))] without mask: the pixels of [im] replace
    those of the canvas under it, clipped to the canvas. *)
Definition paste (canvas im : PixelGrid) (ox oy : Z) : PixelGrid :=
  imap (λ y row,
    imap (λ x p,
      let sx := Z.of_nat x - ox in
      let sy := Z.of_nat y - oy in
      if (0 <=? sx) && (sx <? width im) && (0 <=? sy) && (sy <? height im)
      then pixel_at im sx sy else p) row)
    canvas.

(** [(offset_x, offset_y)] of [resize_sprite]. *)
Definition paste_offset (cw ch size : Z) : Z * Z :=
  let new := scaled_size cw ch size in
  ((size - new.1) / 2, (size - new.2) / 2).

(** [resize_sprite]; PIL's Lanczos resampling [img.resize((w, h), LANCZOS)]
    is the parameter [resample]. *)
Definition resize_sprite (resample : PixelGrid → Z → Z → PixelGrid)
    (img : PixelGrid) (size : Z) : PixelGrid :=
  let cw := width img in
  let ch := height img in
  let new := scaled_size cw ch size in
  let resized := resample img new.1 new.2 in
  let canvas := new_image size size in
  let offset := paste_offset cw ch size in
  paste canvas resized offset.1 offset.2.


(** ** cell_splitter.py *)

(** [split_cells]: one [img.crop(box).copy()] per rectangle, in order. *)
Fixpoint split_cells (img : PixelGrid) (cells : list Rect)
    : outcome (list PixelGrid) :=
  match cells with
  | [] => Returned []
  | cell :: cells' =>
      let x := cell.1.1.1 in
      let y := cell.1.1.2 in
      let w := cell.1.2 in
      let h := cell.2 in
      cropped ←! crop img x y (x + w) (y + h);
      result ←! split_cells img cells';
      Returned (cropped :: result)
  end.

(** ** pipeline.py *)

(** The loop of [process_image] over the cell images.  An entry
    [(idx, final)] of [saved] stands for the file [{idx}.png] written with
    the image [final]; [None] is a flood fill that ran out of fuel. *)
Fixpoint save_sprites (resample : PixelGrid → Z → Z → PixelGrid)
    (cfg : Config) (cell_images : list PixelGrid)
    (saved : list (Z * PixelGrid)) (idx : Z)
    : option (outcome (list (Z * PixelGrid))) :=
  match cell_images with
  | [] => Some (Returned saved)
  | cell_img :: cell_images' =>
      match remove_background cell_img cfg with
      | None => None
      | Some cleaned =>
          match crop_sprite cleaned cfg with
          | Raised e => Some (Raised e)
          | Returned None => save_sprites resample cfg cell_images' saved idx
          | Returned (Some cropped) =>
              let final :=
                if 0 <? output_size cfg
                then resize_sprite resample cropped (output_size cfg)
                else cropped in
              save_sprites resample cfg cell_images'
                (saved ++ [(idx, final)]) (idx + 1)
          end
      end
  end.

(** [process_image] on the decoded sheet. *)
Definition process_image (resample : PixelGrid → Z → Z → PixelGrid)
    (img : PixelGrid) (cfg : Config)
    : option (outcome (list (Z * PixelGrid))) :=
  let cells := detect_cells img cfg in
  match split_cells img cells with
  | Raised e => Some (Raised e)
  | Returned cell_images => save_sprites resample cfg cell_images [] 0
  end.


(** ** Predicates of the specification *)

(** Shape of a boolean array. *)
Definition mask_shape (h w : Z) (m : Mask) : Prop :=
  length m = Z.to_nat h ∧ Forall (λ row, length row = Z.to_nat w) m.

(** 4-connectivity. *)
Definition adjacent (x y x' y' : Z) : Prop :=
  (x' = x - 1 ∧ y' = y) ∨ (x' = x + 1 ∧ y' = y) ∨
  (x' = x ∧ y' = y - 1) ∨ (x' = x ∧ y' = y + 1).

Definition on_border (arr : PixelGrid) (x y : Z) : Prop :=
  in_bounds arr x y ∧
  (y = 0 ∨ y = height arr - 1 ∨ x = 0 ∨ x = width arr - 1).

(** A pixel of the image that passes the within-tolerance test. *)
Definition tolerated (arr : PixelGrid) (cfg : Config) (x y : Z) : Prop :=
  in_bounds arr x y ∧
  within_tolerance_at arr (white_threshold cfg) (flood_fill_tolerance cfg)
    x y = true.

(** [border_path arr cfg x y]: there is a 4-connected path from [(x, y)] to
    a border pixel all of whose pixels, both ends included, pass the
    within-tolerance test. *)
Inductive border_path (arr : PixelGrid) (cfg : Config) : Z → Z → Prop :=
  | path_end x y :
      tolerated arr cfg x y → on_border arr x y → border_path arr cfg x y
  | path_step x y x' y' :
      tolerated arr cfg x y → adjacent x y x' y' →
      border_path arr cfg x' y' → border_path arr cfg x y.

(** The loop measure of the flood fill: pending queue entries plus
    pixels not yet visited. *)
Definition fill_measure (st : fill_state) : nat :=
  (length (queue st) + count_false (visited st))%nat.

Definition fill_shaped (h w : Z) (st : fill_state) : Prop :=
  mask_shape h w (visited st) ∧ mask_shape h w (bg_mask st).

(** Invariant of the flood fill: every pixel in the background mask has a
    tolerated path to the border, and every queued pixel is in the mask. *)
Definition masked_connected (arr : PixelGrid) (cfg : Config)
    (st : fill_state) : Prop :=
  (∀ x y, 0 <= x → 0 <= y → mask_get (bg_mask st) y x = true →
          border_path arr cfg x y) ∧
  (∀ c, c ∈ queue st →
        0 <= c.1 ∧ 0 <= c.2 ∧ mask_get (bg_mask st) c.2 c.1 = true).

(** [chain lo l hi]: the intervals of [l] lie in [[lo, hi]], each one has
    its start before its end, and each one ends before the next starts. *)
Fixpoint chain (lo : Z) (l : list (Z * Z)) (hi : Z) : Prop :=
  match l with
  | [] => lo <= hi
  | iv :: l' => lo <= iv.1 ∧ iv.1 <= iv.2 ∧ chain iv.2 l' hi
  end.

(** An interval and a band that share no index. *)
Definition apart (iv b : Z * Z) : Prop := iv.2 <= b.1 ∨ b.2 <= iv.1.

(** A pixel [(px, py)] inside a rectangle. *)
Definition in_rect (r : Rect) (px py : Z) : Prop :=
  r.1.1.1 <= px < r.1.1.1 + r.1.2 ∧ r.1.1.2 <= py < r.1.1.2 + r.2.

Definition rects_disjoint (r r' : Rect) : Prop :=
  ∀ px py, ¬ (in_rect r px py ∧ in_rect r' px py).

Definition pairwise_disjoint (rects : list Rect) : Prop :=
  ∀ i j r r', i ≠ j → rects !! i = Some r → rects !! j = Some r' →
              rects_disjoint r r'.

(** A rectangle inside an image of width [W] and height [H]. *)
Definition rect_inside (W H : Z) (r : Rect) : Prop :=
  0 <= r.1.1.1 ∧ r.1.1.1 + r.1.2 <= W ∧ 0 <= r.1.1.2 ∧ r.1.1.2 + r.2 <= H.

Definition rect_large (r : Rect) : Prop := 10 < r.1.2 ∧ 10 < r.2.

(** A pixel in one of the separator bands kept by the separator-line
    strategy: its row lies in a row band or its column in a column band. *)
Definition in_separator_band (img : PixelGrid) (cfg : Config) (px py : Z)
    : Prop :=
  (∃ b : Band, b ∈ (separator_bands img cfg).1 ∧ b.1 <= py < b.2) ∨
  (∃ b : Band, b ∈ (separator_bands img cfg).2 ∧ b.1 <= px < b.2).

(** Number of pixels with [alpha > 0]. *)
Definition visible_pixels (img : PixelGrid) : Z :=
  Z.of_nat (sum_list (map (λ row, length (filter (λ p, 0 < alpha p) row)) img)).

(** The resampling filter returns an image of the size it is asked for. *)
Definition resample_sized (resample : PixelGrid → Z → Z → PixelGrid) : Prop :=
  ∀ img w h, 1 <= w → 1 <= h →
    width (resample img w h) = w ∧ height (resample img w h) = h.

(** The region of the canvas covered by the pasted sprite. *)
Definition in_box (ox oy w h : Z) (x y : Z) : Prop :=
  ox <= x < ox + w ∧ oy <= y < oy + h.

(** [seed_path arr cfg x y]: the pixel [(x, y)] is a near-white border pixel
    (a seed), or a within-tolerance pixel 4-adjacent to a pixel that has a
    seed path. *)
Inductive seed_path (arr : PixelGrid) (cfg : Config) : Z → Z → Prop :=
  | seed_path_seed x y :
      on_border arr x y →
      near_white_at arr (white_threshold cfg) x y = true →
      seed_path arr cfg x y
  | seed_path_step x y x' y' :
      seed_path arr cfg x' y' → adjacent x' y' x y → tolerated arr cfg x y →
      seed_path arr cfg x y.

(** All neighbours of [(x, y)] inside the image have been visited. *)
Definition neighbours_visited (h w : Z) (st : fill_state) (x y : Z) : Prop :=
  ∀ d : Z * Z, d ∈ directions →
    0 <= x + d.1 < w → 0 <= y + d.2 < h →
    mask_get (visited st) (y + d.2) (x + d.1) = true.

(** Invariant of the breadth-first loop; [cur] holds the pixel that is
    being expanded, if any. *)
Definition fill_progress (arr : PixelGrid) (cfg : Config)
    (cur : list (Z * Z)) (st : fill_state) : Prop :=
  fill_shaped (height arr) (width arr) st ∧
  (∀ x y, in_bounds arr x y → mask_get (bg_mask st) y x = true →
          mask_get (visited st) y x = true ∧ seed_path arr cfg x y) ∧
  (∀ x y, in_bounds arr x y → mask_get (visited st) y x = true →
          within_tolerance_at arr (white_threshold cfg)
            (flood_fill_tolerance cfg) x y = true →
          mask_get (bg_mask st) y x = true) ∧
  (∀ x y, on_border arr x y →
          near_white_at arr (white_threshold cfg) x y = true →
          mask_get (bg_mask st) y x = true) ∧
  (∀ c, c ∈ cur ++ queue st →
        in_bounds arr c.1 c.2 ∧ mask_get (bg_mask st) c.2 c.1 = true) ∧
  (∀ x y, in_bounds arr x y → mask_get (bg_mask st) y x = true →
          (x, y) ∈ cur ∨ (x, y) ∈ queue st
          ∨ neighbours_visited (height arr) (width arr) st x y).

(** Invariant of the seed-marking loop over [seeds]. *)
Definition seeds_marked (arr : PixelGrid) (seeds : list (Z * Z))
    (st : fill_state) : Prop :=
  fill_shaped (height arr) (width arr) st ∧
  (∀ x y, in_bounds arr x y →
          (mask_get (visited st) y x = true ↔ mask_get (bg_mask st) y x = true)) ∧
  (∀ x y, in_bounds arr x y → mask_get (bg_mask st) y x = true →
          (x, y) ∈ seeds).

(** [j] lies in one of the bands. *)
Definition covered (bands : list Band) (j : Z) : Prop :=
  ∃ b : Band, b ∈ bands ∧ b.1 <= j < b.2.

(** [separated lo l hi]: as [chain], with at least one index between two
    successive bands and after the last one. *)
Fixpoint separated (lo : Z) (l : list Band) (hi : Z) : Prop :=
  match l with
  | [] => lo <= hi
  | b :: l' => lo <= b.1 ∧ b.1 < b.2 ∧ separated (b.2 + 1) l' hi
  end.

(** The order [sorted key reverse] puts a list in. *)
Definition key_before {A} (key : A → Z) (reverse : bool) (a b : A) : Prop :=
  if reverse then key b <= key a else key a <= key b.

(** [r] comes before [r'] in row-major order: it lies in an earlier row of
    cells, or in the same row of cells and further left. *)
Definition rect_before (r r' : Rect) : Prop :=
  r.1.1.2 + r.2 <= r'.1.1.2 ∨
  (r.1.1.2 = r'.1.1.2 ∧ r.2 = r'.2 ∧ r.1.1.1 + r.1.2 <= r'.1.1.1).

Definition row_major (rects : list Rect) : Prop :=
  ∀ (i j : nat) (r r' : Rect),
    (i < j)%nat → rects !! i = Some r → rects !! j = Some r' →
    rect_before r r'.

(** Every pixel of the image lies in one of the rectangles. *)
Definition covers (img : PixelGrid) (rects : list Rect) : Prop :=
  ∀ px py, in_bounds img px py → ∃ r : Rect, r ∈ rects ∧ in_rect r px py.

(** The cell image [g] holds exactly the pixels of [img] under the
    rectangle [r]. *)
Definition cell_of (img : PixelGrid) (r : Rect) (g : PixelGrid) : Prop :=
  valid_grid g ∧ width g = r.1.2 ∧ height g = r.2 ∧
  ∀ dx dy, 0 <= dx < r.1.2 → 0 <= dy < r.2 →
           pixel_at g dx dy = pixel_at img (r.1.1.1 + dx) (r.1.1.2 + dy).

(** A rectangle of positive size inside the image. *)
Definition rect_proper (img : PixelGrid) (r : Rect) : Prop :=
  rect_inside (width img) (height img) r ∧ 0 < r.1.2 ∧ 0 < r.2.

(** The bounding box of the visible pixels as [crop_sprite] computes it,
    before padding. *)
Definition first_row (img : PixelGrid) : Z :=
  Z.of_nat (first_true (any_axis1 (map (map alpha) img))).

Definition last_row (img : PixelGrid) : Z :=
  height img - 1
  - Z.of_nat (first_true (reverse (any_axis1 (map (map alpha) img)))).

Definition first_col (img : PixelGrid) : Z :=
  Z.of_nat (first_true (any_axis0 (map (map alpha) img) (width img))).

Definition last_col (img : PixelGrid) : Z :=
  width img - 1
  - Z.of_nat
      (first_true (reverse (any_axis0 (map (map alpha) img) (width img)))).

Definition visible_at (img : PixelGrid) (x y : Z) : Prop :=
  in_bounds img x y ∧ 0 < alpha (pixel_at img x y).

(** The files are numbered [0 .. n-1]. *)
Definition numbered (saved : list (Z * PixelGrid)) : Prop :=
  saved.*1 = seqZ 0 (Z.of_nat (length saved)).

(** The image of a saved file has the size the configuration asks for: a
    square of side [output_size], or with [output_size = 0] a cropped
    grid. *)
Definition output_sized (cfg : Config) (g : PixelGrid) : Prop :=
  if 0 <? output_size cfg
  then width g = output_size cfg ∧ height g = output_size cfg
  else valid_grid g.

(** ** Concrete inputs *)

Definition grey (v : Z) : Pixel := mkPixel v v v 255.

Definition white : Pixel := mkPixel 255 255 255 255.
Definition black : Pixel := mkPixel 0 0 0 255.

(** A sheet of [h] rows and [w] columns, black where [dark y x] holds and
    white elsewhere. *)
Definition sheet (h w : nat) (dark : nat → nat → bool) : PixelGrid :=
  map (λ y, map (λ x, if dark y x then black else white) (seq 0 w)) (seq 0 h).

(** A 5x5 cell: white margin, dark ring, white centre. *)
Definition ring_cell : PixelGrid :=
  [[grey 255; grey 255; grey 255; grey 255; grey 255];
   [grey 255; grey 0;   grey 0;   grey 0;   grey 255];
   [grey 255; grey 0;   grey 255; grey 0;   grey 255];
   [grey 255; grey 0;   grey 0;   grey 0;   grey 255];
   [grey 255; grey 255; grey 255; grey 255; grey 255]].

(** A 5x5 all-white sheet. *)
Definition small_sheet : PixelGrid := sheet 5 5 (λ _ _, false).

(** 11 rows, 23 columns: a black line along the top row and a black
    vertical line in column 11. *)
Definition framed_sheet : PixelGrid :=
  sheet 11 23 (λ y x, (y =? 0)%nat || (x =? 11)%nat).

(** 40 rows, 100 columns: two dark blocks separated by a white gap of
    columns 40..59. *)
Definition gapped_sheet : PixelGrid :=
  sheet 40 100 (λ y x,
    (5 <=? y)%nat && (y <? 35)%nat
    && (((5 <=? x)%nat && (x <? 40)%nat) || ((60 <=? x)%nat && (x <? 95)%nat))).

(** A 3x3 sheet of 100x100 cells separated by black lines 4 pixels thick:
    308 rows and 308 columns. *)
Definition nine_sheet : PixelGrid :=
  sheet 308 308 (λ y x,
    ((100 <=? y)%nat && (y <? 104)%nat) || ((204 <=? y)%nat && (y <? 208)%nat)
    || ((100 <=? x)%nat && (x <? 104)%nat)
    || ((204 <=? x)%nat && (x <? 208)%nat)).

(** A borderless 60x60 sheet with one centred 20x20 sprite. *)
Definition lone_sheet : PixelGrid :=
  sheet 60 60 (λ y x,
    (20 <=? y)%nat && (y <? 40)%nat && (20 <=? x)%nat && (x <? 40)%nat).

(** A white 100x100 cell with a centred 20x20 coloured square. *)
Definition square_cell : PixelGrid :=
  map (λ y, map (λ x,
      if (40 <=? y)%nat && (y <? 60)%nat && (40 <=? x)%nat && (x <? 60)%nat
      then mkPixel 200 30 30 255 else white) (seq 0 100)) (seq 0 100).

(** A fully opaque cell of 10 rows and 15 columns: 150 visible pixels. *)
Definition opaque_cell : PixelGrid := sheet 10 15 (λ _ _, true).

(** A sprite of 2 rows and 3 columns. *)
Definition wide_sprite : PixelGrid := sheet 2 3 (λ _ _, true).

(** A stand-in for the resampling filter: a uniformly black image of the
    requested size. *)
Definition flat_resample (img : PixelGrid) (w h : Z) : PixelGrid :=
  replicate (Z.to_nat h) (replicate (Z.to_nat w) black).

(** A cell whose border is dark all around a white centre. *)
Definition dark_border_cell : PixelGrid :=
  [[grey 0; grey 0;   grey 0];
   [grey 0; grey 255; grey 0];
   [grey 0; grey 0;   grey 0]].

(** A blank, entirely white cell of 3 rows and 4 columns. *)
Definition blank_cell : PixelGrid := sheet 3 4 (λ _ _, false).

(** 50 rows, 100 columns: two dark blocks separated by a white gap of
    columns 40..59. *)
Definition tall_gapped_sheet : PixelGrid :=
  sheet 50 100 (λ y x,
    (5 <=? y)%nat && (y <? 45)%nat
    && (((5 <=? x)%nat && (x <? 40)%nat) || ((60 <=? x)%nat && (x <? 95)%nat))).

(** A 4x5 cell with three visible pixels, in rows 1..2 and columns 1..3. *)
Definition dot_cell : PixelGrid :=
  [[transparent; transparent; transparent; transparent; transparent];
   [transparent; grey 10;     transparent; transparent; transparent];
   [transparent; transparent; grey 20;     grey 30;     transparent];
   [transparent; transparent; transparent; transparent; transparent]].

(** A 3x4 fully transparent cell. *)
Definition clear_cell : PixelGrid :=
  replicate 3 (replicate 4 transparent).

(** Validity of a concrete grid is decided by computation. *)
#[global] Instance byte_pixel_dec p : Decision (byte_pixel p).
Proof. unfold byte_pixel, byte. apply _. Defined.

#[global] Instance valid_grid_dec arr : Decision (valid_grid arr).
Proof. unfold valid_grid. apply _. Defined.

#[global] Instance valid_config_dec cfg : Decision (valid_config cfg).
Proof. unfold valid_config. apply _. Defined.

(** * Properties *)

(** Splits a hypothesis [b1 && ... && bn = true] into its conjuncts. *)
Ltac split_andb H := repeat (apply andb_prop in H as [H ?]).

(** A membership in [if b then [x] else []]: the test holds and the
    element is [x]. *)
Ltac guarded_singleton H :=
  match type of H with
  | _ ∈ (if ?b then _ else _) =>
      destruct b eqn:?; [|by apply elem_of_nil in H];
      apply list_elem_of_singleton in H
  end.

(** ** Boolean arrays *)

Lemma zeros_shape h w : mask_shape h w (zeros h w).
Proof.
  split; [apply length_replicate|].
  apply Forall_replicate. apply length_replicate.
Qed.

Lemma mask_get_zeros h w y x : mask_get (zeros h w) y x = false.
Proof.
  unfold mask_get, zeros.
  destruct (_ !! Z.to_nat y) as [row|] eqn:E; [|done].
  apply lookup_replicate_1 in E as [-> _]. simpl.
  destruct (_ !! Z.to_nat x) as [b|] eqn:E'; [|done].
  by apply lookup_replicate_1 in E' as [-> _].
Qed.

Lemma mask_set_shape h w m y x v :
  mask_shape h w m → mask_shape h w (mask_set m y x v).
Proof.
  intros [Hlen Hrows]. split.
  - unfold mask_set. by rewrite length_alter.
  - unfold mask_set. apply Forall_alter; [done|].
    intros row _ Hrow. by rewrite length_insert.
Qed.

Lemma mask_shape_lookup h w m y x :
  mask_shape h w m → 0 <= x < w → 0 <= y < h →
  ∃ row b, m !! Z.to_nat y = Some row ∧ row !! Z.to_nat x = Some b
           ∧ mask_get m y x = b.
Proof.
  intros [Hlen Hrows] Hx Hy.
  destruct (lookup_lt_is_Some_2 m (Z.to_nat y)) as [row Hrow]; [lia|].
  assert (length row = Z.to_nat w) as Hw.
  { eapply (proj1 (Forall_lookup _ _) Hrows); eauto. }
  destruct (lookup_lt_is_Some_2 row (Z.to_nat x)) as [b Hb]; [lia|].
  exists row, b. unfold mask_get. by rewrite Hrow; simpl; rewrite Hb.
Qed.

Lemma mask_get_set_eq h w m y x v :
  mask_shape h w m → 0 <= x < w → 0 <= y < h →
  mask_get (mask_set m y x v) y x = v.
Proof.
  intros Hm Hx Hy.
  destruct (mask_shape_lookup h w m y x) as (row & b & Hrow & Hb & _);
    [done..|].
  unfold mask_get, mask_set.
  rewrite list_lookup_alter_eq, Hrow. simpl.
  rewrite list_lookup_insert_eq; [done|]. by eapply lookup_lt_Some.
Qed.

Lemma mask_get_set_ne m y x v y' x' :
  0 <= x → 0 <= y → 0 <= x' → 0 <= y' → (x, y) ≠ (x', y') →
  mask_get (mask_set m y x v) y' x' = mask_get m y' x'.
Proof.
  intros Hx Hy Hx' Hy' Hne. unfold mask_get, mask_set.
  destruct (decide (Z.to_nat y = Z.to_nat y')) as [Heq|Hny].
  - rewrite Heq, list_lookup_alter_eq.
    destruct (m !! Z.to_nat y') as [row|]; simpl; [|done].
    rewrite list_lookup_insert_ne; [done|].
    intros Hxx. apply Hne. f_equal; lia.
  - by rewrite list_lookup_alter_ne.
Qed.

(** Setting an entry to [True] never clears another one. *)
Lemma mask_get_set_mono m y x y' x' :
  mask_get m y' x' = true → mask_get (mask_set m y x true) y' x' = true.
Proof.
  unfold mask_get, mask_set. intros H.
  destruct (decide (Z.to_nat y = Z.to_nat y')) as [Heq|Hny].
  - rewrite Heq, list_lookup_alter_eq.
    destruct (m !! Z.to_nat y') as [row|]; simpl in *; [|done].
    destruct (decide (Z.to_nat x = Z.to_nat x')) as [Hxx|Hxx].
    + rewrite Hxx. destruct (row !! Z.to_nat x') as [b|] eqn:E; [|done].
      rewrite list_lookup_insert_eq; [done|]. by eapply lookup_lt_Some.
    + by rewrite list_lookup_insert_ne.
  - by rewrite list_lookup_alter_ne.
Qed.

Lemma mask_get_set_true m y x y' x' :
  0 <= x → 0 <= y → 0 <= x' → 0 <= y' →
  mask_get (mask_set m y x true) y' x' = true →
  (x, y) = (x', y') ∨ mask_get m y' x' = true.
Proof.
  intros Hx Hy Hx' Hy' H.
  destruct (decide ((x, y) = (x', y'))) as [|Hne]; [by left|right].
  by rewrite mask_get_set_ne in H.
Qed.

Lemma count_false_row_insert (row : list bool) i :
  row !! i = Some false →
  S (length (filter (λ b, b = false) (<[i := true]> row)))
  = length (filter (λ b, b = false) row).
Proof.
  revert i. induction row as [|b row IH]; intros [|i] H; simplify_eq/=.
  - by rewrite filter_cons_False.
  - rewrite !filter_cons. destruct b; simpl; [|f_equal]; by apply IH.
Qed.

Lemma count_false_set h w m y x :
  mask_shape h w m → 0 <= x < w → 0 <= y < h → mask_get m y x = false →
  S (count_false (mask_set m y x true)) = count_false m.
Proof.
  intros Hm Hx Hy Hget.
  destruct (mask_shape_lookup h w m y x) as (row & b & Hrow & Hb & Hg);
    [done..|].
  rewrite Hget in Hg; subst b. clear Hm Hget Hy.
  unfold count_false, mask_set.
  revert Hrow. generalize (Z.to_nat y) as j. clear y.
  induction m as [|r m IH]; intros [|j] Hrow; simplify_eq/=.
  - rewrite <- (count_false_row_insert row (Z.to_nat x)) by done. done.
  - specialize (IH j Hrow). lia.
Qed.

(** ** Flood fill: termination *)

Lemma fold_left_preserves {A B} (P : A → Prop) (f : A → B → A) l a :
  P a → (∀ a b, b ∈ l → P a → P (f a b)) → P (fold_left f l a).
Proof.
  revert a. induction l as [|b l IH]; intros a Ha Hf; simpl; [done|].
  apply IH.
  - apply Hf; [left|done].
  - intros a' b' Hb'. apply Hf. by right.
Qed.

Section flood_fill_terminates.
Variables (arr : PixelGrid) (threshold tolerance h w : Z).


Lemma visit_neighbour_shaped cx cy st d :
  fill_shaped h w st →
  fill_shaped h w (visit_neighbour arr threshold tolerance h w cx cy st d).
Proof.
  intros [Hv Hb]. unfold visit_neighbour.
  repeat case_match; split; simpl; auto using mask_set_shape.
Qed.

Lemma visit_neighbour_measure cx cy st d :
  fill_shaped h w st →
  (fill_measure (visit_neighbour arr threshold tolerance h w cx cy st d)
   ≤ fill_measure st)%nat.
Proof.
  intros [Hv _]. unfold visit_neighbour, fill_measure.
  destruct (_ && negb _) eqn:Hguard; [|done].
  split_andb Hguard.
  assert (S (count_false (mask_set (visited st) (cy + d.2) (cx + d.1) true))
          = count_false (visited st)) as Hcount.
  { apply (count_false_set h w); [done|lia|lia|].
    by destruct (mask_get _ _ _). }
  case_match; simpl; rewrite ?length_app; simpl; lia.
Qed.

Lemma visit_neighbours_measure cx cy st ds :
  fill_shaped h w st →
  let st' := fold_left (visit_neighbour arr threshold tolerance h w cx cy)
               ds st in
  fill_shaped h w st' ∧ (fill_measure st' ≤ fill_measure st)%nat.
Proof.
  intros Hst.
  apply (fold_left_preserves
           (λ st', fill_shaped h w st' ∧ (fill_measure st' ≤ fill_measure st)%nat)).
  - done.
  - intros a d _ [Ha Hle]. split; [by apply visit_neighbour_shaped|].
    etrans; [by apply visit_neighbour_measure|done].
Qed.

Lemma flood_fill_terminates fuel st :
  fill_shaped h w st → (fill_measure st ≤ fuel)%nat →
  ∃ st', flood_fill fuel arr threshold tolerance h w st = Some st'
         ∧ fill_shaped h w st'.
Proof.
  revert st. induction fuel as [|fuel IH]; intros st Hst Hfuel.
  - destruct st as [v b [|c q]]; unfold fill_measure in Hfuel; simpl in *;
      [eauto|lia].
  - destruct st as [v b [|c q]]; simpl; [eauto|].
    destruct (visit_neighbours_measure c.1 c.2 (mkFill v b q) directions)
      as [Hsh Hle]; [done|].
    apply IH; [done|].
    unfold fill_measure in *. simpl in *. lia.
Qed.
End flood_fill_terminates.

(** ** Flood fill: every masked pixel is connected to the border *)

Lemma near_white_within_tolerance threshold tolerance r g b :
  0 <= tolerance → _is_near_white threshold r g b = true →
  _within_tolerance threshold tolerance r g b = true.
Proof.
  unfold _is_near_white, _within_tolerance. intros Htol H.
  split_andb H.
  repeat (apply andb_true_intro; split); lia.
Qed.

Lemma elem_of_range a b k : k ∈ range a b ↔ a <= k < b.
Proof. unfold range. rewrite elem_of_seqZ. lia. Qed.

Lemma elem_of_flat_map {A B} (f : A → list B) l y :
  y ∈ flat_map f l ↔ ∃ x, x ∈ l ∧ y ∈ f x.
Proof.
  rewrite list_elem_of_In, in_flat_map.
  by setoid_rewrite list_elem_of_In.
Qed.

(** Seeds are near-white pixels on the border of the image. *)
Lemma collect_seeds_spec arr threshold x y :
  1 <= height arr → 1 <= width arr →
  (x, y) ∈ collect_seeds arr threshold (height arr) (width arr) →
  on_border arr x y ∧ near_white_at arr threshold x y = true.
Proof.
  intros Hh Hw. unfold collect_seeds, on_border, in_bounds.
  rewrite elem_of_app, !elem_of_flat_map.
  intros [(x' & Hx' & Hin)|(y' & Hy' & Hin)].
  - apply elem_of_range in Hx'. apply elem_of_flat_map in Hin as (y' & Hy' & Hin).
    guarded_singleton Hin. simplify_eq.
    split; [|done].
    apply elem_of_cons in Hy' as [->|Hy'];
      [|apply list_elem_of_singleton in Hy' as ->]; lia.
  - apply elem_of_range in Hy'. apply elem_of_flat_map in Hin as (x' & Hx' & Hin).
    guarded_singleton Hin. simplify_eq.
    split; [|done].
    apply elem_of_cons in Hx' as [->|Hx'];
      [|apply list_elem_of_singleton in Hx' as ->]; lia.
Qed.

Lemma flood_fill_done fuel arr threshold tolerance h w st :
  queue st = [] →
  flood_fill fuel arr threshold tolerance h w st = Some st.
Proof. intros Hq. destruct fuel; simpl; by rewrite Hq. Qed.

Lemma flood_fill_step fuel arr threshold tolerance h w st c rest :
  queue st = c :: rest →
  flood_fill (S fuel) arr threshold tolerance h w st
  = flood_fill fuel arr threshold tolerance h w
      (fold_left (visit_neighbour arr threshold tolerance h w c.1 c.2)
         directions (mkFill (visited st) (bg_mask st) rest)).
Proof. intros Hq. simpl. by rewrite Hq. Qed.

Section flood_fill_sound.
Variables (arr : PixelGrid) (cfg : Config).
Hypothesis tolerance_nonneg : 0 <= flood_fill_tolerance cfg.
Hypothesis height_pos : 1 <= height arr.
Hypothesis width_pos : 1 <= width arr.

Let h := height arr.
Let w := width arr.
Let threshold := white_threshold cfg.
Let tolerance := flood_fill_tolerance cfg.

Lemma mark_seed_sound st s :
  s ∈ collect_seeds arr threshold h w →
  fill_shaped h w st ∧ masked_connected arr cfg st →
  let st' := mark_seed arr threshold st s in
  fill_shaped h w st' ∧ masked_connected arr cfg st'.
Proof.
  destruct s as [sx sy]. intros Hs [[Hv Hb] [Hmask Hq]].
  apply collect_seeds_spec in Hs as [Hborder Hnw]; [|done..].
  unfold mark_seed. simpl. rewrite Hnw. simpl.
  destruct (mask_get (visited st) sy sx); [done|].
  destruct Hborder as [[Hx Hy] Hedge].
  split; [split; simpl; auto using mask_set_shape|]. split; simpl.
  - intros x y Hx0 Hy0 Hget.
    apply mask_get_set_true in Hget as [?|?]; [|auto|lia..].
    simplify_eq. apply path_end; [|done].
    split; [done|]. by apply near_white_within_tolerance.
  - intros c Hc. destruct (Hq c Hc) as (? & ? & ?).
    auto using mask_get_set_mono.
Qed.

Lemma visit_neighbour_sound cx cy st d :
  d ∈ directions → border_path arr cfg cx cy →
  fill_shaped h w st ∧ masked_connected arr cfg st →
  let st' := visit_neighbour arr threshold tolerance h w cx cy st d in
  fill_shaped h w st' ∧ masked_connected arr cfg st'.
Proof.
  intros Hd Hc [Hsh [Hmask Hq]].
  split; [by apply visit_neighbour_shaped|].
  unfold visit_neighbour.
  destruct (_ && negb _) eqn:Hguard; [|done].
  split_andb Hguard.
  destruct (within_tolerance_at _ _ _ _ _) eqn:Htol; [|done].
  assert (adjacent (cx + d.1) (cy + d.2) cx cy) as Hadj.
  { unfold directions, adjacent in *.
    repeat (apply elem_of_cons in Hd as [->|Hd]); simpl; [lia..|].
    by apply elem_of_nil in Hd. }
  assert (border_path arr cfg (cx + d.1) (cy + d.2)) as Hpath.
  { eapply path_step; [|done..]. split; [|done]. unfold in_bounds. lia. }
  split; simpl.
  - intros x y Hx0 Hy0 Hget.
    apply mask_get_set_true in Hget as [?|?]; [|auto|lia..].
    by simplify_eq.
  - intros c Hin. apply elem_of_app in Hin as [Hin|Hin].
    + destruct (Hq c Hin) as (? & ? & ?). auto using mask_get_set_mono.
    + apply list_elem_of_singleton in Hin as ->. simpl.
      split; [lia|]. split; [lia|].
      apply (mask_get_set_eq h w); [apply Hsh|lia..].
Qed.

Lemma flood_fill_sound fuel st st' :
  fill_shaped h w st ∧ masked_connected arr cfg st →
  flood_fill fuel arr threshold tolerance h w st = Some st' →
  masked_connected arr cfg st'.
Proof.
  revert st. induction fuel as [|fuel IH]; intros st Hst Hrun.
  - destruct st as [v b [|c q]]; simplify_eq/=. apply Hst.
  - destruct (queue st) as [|c q] eqn:Hqueue.
    { rewrite flood_fill_done in Hrun by done. simplify_eq. apply Hst. }
    rewrite (flood_fill_step _ _ _ _ _ _ _ c q) in Hrun by done.
    apply IH in Hrun; [done|].
    destruct Hst as [Hsh [Hmask Hq]]. rewrite Hqueue in Hq.
    destruct (Hq c) as (Hc1 & Hc2 & Hc); [left|].
    apply (fold_left_preserves
             (λ s, fill_shaped h w s ∧ masked_connected arr cfg s)).
    + split; [done|]. split; [done|]. simpl. intros c' Hc'. apply Hq. by right.
    + intros s d Hd Hs. apply visit_neighbour_sound; auto.
Qed.

Lemma seeded_state_sound :
  let st := seeded_state arr cfg in
  fill_shaped h w st ∧ masked_connected arr cfg st.
Proof.
  unfold seeded_state. fold h w threshold.
  set (seeds := collect_seeds arr threshold h w).
  assert (let st := fold_left (mark_seed arr threshold) seeds
                      (mkFill (zeros h w) (zeros h w) []) in
          fill_shaped h w st ∧ masked_connected arr cfg st) as [Hsh [Hmask _]].
  { apply (fold_left_preserves
             (λ s, fill_shaped h w s ∧ masked_connected arr cfg s)).
    - split; [split; apply zeros_shape|]. split; simpl.
      + intros x y _ _. by rewrite mask_get_zeros.
      + intros c Hc. by apply elem_of_nil in Hc.
    - intros s c Hc Hs. by apply mark_seed_sound. }
  split; [done|]. split; simpl; [done|].
  intros [sx sy] Hin. apply list_elem_of_filter in Hin as [Hget Hin]. simpl in *.
  apply collect_seeds_spec in Hin as [[[? ?] _] _]; [|done..].
  split; [lia|]. split; [lia|done].
Qed.
End flood_fill_sound.

(** ** Background removal *)

Lemma seeded_state_shaped arr cfg :
  fill_shaped (height arr) (width arr) (seeded_state arr cfg).
Proof.
  unfold seeded_state.
  apply (fold_left_preserves
           (λ s, fill_shaped (height arr) (width arr)
                   (mkFill (visited s) (bg_mask s) _))).
  - split; apply zeros_shape.
  - intros st s _ [Hv Hb]. unfold mark_seed. simpl in *.
    repeat case_match; split; simpl; auto using mask_set_shape.
Qed.

(** The flood fill always runs to completion with the fuel it is given. *)
Lemma background_mask_total arr cfg :
  ∃ m, background_mask arr cfg = Some m
       ∧ mask_shape (height arr) (width arr) m.
Proof.
  unfold background_mask.
  destruct (flood_fill_terminates arr (white_threshold cfg)
              (flood_fill_tolerance cfg) (height arr) (width arr)
              (length (queue (seeded_state arr cfg))
               + count_false (visited (seeded_state arr cfg)))
              (seeded_state arr cfg)) as (st' & -> & Hsh).
  - apply seeded_state_shaped.
  - done.
  - exists (bg_mask st'). split; [done|apply Hsh].
Qed.

Lemma background_mask_sound arr cfg m x y :
  1 <= height arr → 1 <= width arr → 0 <= flood_fill_tolerance cfg →
  background_mask arr cfg = Some m →
  0 <= x → 0 <= y → mask_get m y x = true → border_path arr cfg x y.
Proof.
  intros Hh Hw Htol Hm. unfold background_mask in Hm.
  destruct (flood_fill _ _ _ _ _ _ _) as [st'|] eqn:Hrun; simplify_eq/=.
  apply flood_fill_sound in Hrun as [Hmask _]; auto.
  by apply seeded_state_sound.
Qed.

Lemma pixel_at_apply_mask arr m x y :
  pixel_at (apply_mask arr m) x y =
  if mask_get m (Z.of_nat (Z.to_nat y)) (Z.of_nat (Z.to_nat x))
  then set_alpha (pixel_at arr x y) 0 else pixel_at arr x y.
Proof.
  unfold pixel_at, apply_mask. rewrite list_lookup_imap.
  destruct (arr !! Z.to_nat y) as [row|]; simpl; [|by case_match].
  rewrite list_lookup_imap.
  destruct (row !! Z.to_nat x) as [p|]; simpl; [done|by case_match].
Qed.

Lemma height_apply_mask arr m : height (apply_mask arr m) = height arr.
Proof. unfold height, apply_mask. by rewrite length_imap. Qed.

Lemma width_apply_mask arr m : width (apply_mask arr m) = width arr.
Proof. destruct arr as [|row arr]; [done|]. simpl. by rewrite length_imap. Qed.

Lemma row_lengths_apply_mask arr m i :
  length <$> apply_mask arr m !! i = length <$> arr !! i.
Proof.
  unfold apply_mask. rewrite list_lookup_imap.
  destruct (arr !! i); simpl; [|done]. by rewrite length_imap.
Qed.

Lemma apply_mask_idemp arr m : apply_mask (apply_mask arr m) m = apply_mask arr m.
Proof.
  unfold apply_mask. apply list_eq. intros i. rewrite !list_lookup_imap.
  destruct (arr !! i) as [row|]; simpl; [|done]. f_equal.
  apply list_eq. intros j. rewrite !list_lookup_imap.
  destruct (row !! j) as [p|]; simpl; [|done]. by case_match.
Qed.

Lemma fold_left_ext_in {A B} (f g : A → B → A) l a :
  (∀ a b, b ∈ l → f a b = g a b) → fold_left f l a = fold_left g l a.
Proof.
  revert a. induction l as [|b l IH]; intros a Hfg; simpl; [done|].
  rewrite Hfg by left. apply IH. intros a' b' Hb'. apply Hfg. by right.
Qed.

(** The background mask only depends on the colour tests, which read the
    three colour channels and never the alpha channel. *)
Section background_mask_ext.
Variables (arr arr' : PixelGrid) (cfg : Config).
Hypothesis same_height : height arr' = height arr.
Hypothesis same_width : width arr' = width arr.
Hypothesis same_near_white : ∀ threshold x y,
  near_white_at arr' threshold x y = near_white_at arr threshold x y.
Hypothesis same_within_tolerance : ∀ threshold tolerance x y,
  within_tolerance_at arr' threshold tolerance x y
  = within_tolerance_at arr threshold tolerance x y.

Lemma collect_seeds_ext threshold h w :
  collect_seeds arr' threshold h w = collect_seeds arr threshold h w.
Proof.
  unfold collect_seeds. f_equal; apply flat_map_ext; intros a;
    apply flat_map_ext; intros b; by rewrite same_near_white.
Qed.

Lemma mark_seed_ext threshold st s :
  mark_seed arr' threshold st s = mark_seed arr threshold st s.
Proof. unfold mark_seed. by rewrite same_near_white. Qed.

Lemma visit_neighbour_ext threshold tolerance h w cx cy st d :
  visit_neighbour arr' threshold tolerance h w cx cy st d
  = visit_neighbour arr threshold tolerance h w cx cy st d.
Proof. unfold visit_neighbour. by rewrite same_within_tolerance. Qed.

Lemma flood_fill_ext fuel threshold tolerance h w st :
  flood_fill fuel arr' threshold tolerance h w st
  = flood_fill fuel arr threshold tolerance h w st.
Proof.
  revert st. induction fuel as [|fuel IH]; intros st; [done|].
  destruct (queue st) as [|c q] eqn:Hq.
  - by rewrite !flood_fill_done.
  - rewrite !(flood_fill_step _ _ _ _ _ _ _ c q) by done. rewrite IH.
    f_equal. apply fold_left_ext_in. intros. apply visit_neighbour_ext.
Qed.

Lemma seeded_state_ext : seeded_state arr' cfg = seeded_state arr cfg.
Proof.
  unfold seeded_state. rewrite same_height, same_width, collect_seeds_ext.
  rewrite (fold_left_ext_in (mark_seed arr' (white_threshold cfg))
             (mark_seed arr (white_threshold cfg))); [done|].
  intros. apply mark_seed_ext.
Qed.

Lemma background_mask_ext : background_mask arr' cfg = background_mask arr cfg.
Proof.
  unfold background_mask.
  by rewrite seeded_state_ext, same_height, same_width, flood_fill_ext.
Qed.
End background_mask_ext.

Lemma background_mask_apply_mask arr m cfg :
  background_mask (apply_mask arr m) cfg = background_mask arr cfg.
Proof.
  apply background_mask_ext.
  - apply height_apply_mask.
  - apply width_apply_mask.
  - intros. unfold near_white_at. rewrite pixel_at_apply_mask. by case_match.
  - intros. unfold within_tolerance_at. rewrite pixel_at_apply_mask.
    by case_match.
Qed.

Lemma valid_grid_apply_mask arr m : valid_grid arr → valid_grid (apply_mask arr m).
Proof.
  intros (Hh & Hw & Hrows). rewrite <- (height_apply_mask arr m) in Hh.
  split; [done|]. split; [by rewrite width_apply_mask|].
  rewrite width_apply_mask. apply Forall_lookup. intros i row Hrow.
  unfold apply_mask in Hrow. apply list_lookup_imap_Some in Hrow as (r & Hr & ->).
  rewrite Forall_lookup in Hrows. destruct (Hrows i r Hr) as [Hlen Hbytes].
  split; [by rewrite length_imap|].
  apply Forall_lookup. intros j p Hp.
  apply list_lookup_imap_Some in Hp as (q & Hq & ->).
  rewrite Forall_lookup in Hbytes. specialize (Hbytes j q Hq).
  case_match; [|done]. unfold byte_pixel, byte in *. simpl. lia.
Qed.

(** C6. The grid returned by [remove_background] has the height and the
    width of its input; the red, green and blue channels of every pixel are
    unchanged; the alpha of every pixel in the background mask is 0 and the
    alpha of every other pixel is unchanged. *)
Theorem remove_background_frame arr cfg :
  valid_grid arr →
  ∃ m out,
    background_mask arr cfg = Some m ∧
    remove_background arr cfg = Some out ∧
    valid_grid out ∧
    height out = height arr ∧ width out = width arr ∧
    ∀ x y, in_bounds arr x y →
      red (pixel_at out x y) = red (pixel_at arr x y) ∧
      green (pixel_at out x y) = green (pixel_at arr x y) ∧
      blue (pixel_at out x y) = blue (pixel_at arr x y) ∧
      (mask_get m y x = true → alpha (pixel_at out x y) = 0) ∧
      (mask_get m y x = false →
       alpha (pixel_at out x y) = alpha (pixel_at arr x y)).
Proof.
  intros Hvalid.
  destruct (background_mask_total arr cfg) as (m & Hm & _).
  exists m, (apply_mask arr m). unfold remove_background. rewrite Hm.
  split; [done|]. split; [done|].
  split; [by apply valid_grid_apply_mask|].
  split; [apply height_apply_mask|]. split; [apply width_apply_mask|].
  intros x y [Hx Hy]. rewrite pixel_at_apply_mask, !Z2Nat.id by lia.
  destruct (mask_get m y x); simpl; by repeat split.
Qed.

Lemma remove_background_frame_witness :
  ∃ m out,
    background_mask ring_cell default_config = Some m ∧
    remove_background ring_cell default_config = Some out ∧
    valid_grid out ∧
    height out = height ring_cell ∧ width out = width ring_cell ∧
    ∀ x y, in_bounds ring_cell x y →
      red (pixel_at out x y) = red (pixel_at ring_cell x y) ∧
      green (pixel_at out x y) = green (pixel_at ring_cell x y) ∧
      blue (pixel_at out x y) = blue (pixel_at ring_cell x y) ∧
      (mask_get m y x = true → alpha (pixel_at out x y) = 0) ∧
      (mask_get m y x = false →
       alpha (pixel_at out x y) = alpha (pixel_at ring_cell x y)).
Proof.
  apply (remove_background_frame ring_cell default_config). compute_done.
Defined.

(** C7. [remove_background] is idempotent: run on its own output it
    computes the same background mask and returns that output unchanged,
    so no further pixel becomes transparent. *)
Theorem remove_background_idempotent arr cfg :
  valid_grid arr →
  ∃ m out,
    background_mask arr cfg = Some m ∧
    remove_background arr cfg = Some out ∧
    background_mask out cfg = Some m ∧
    remove_background out cfg = Some out.
Proof.
  intros _.
  destruct (background_mask_total arr cfg) as (m & Hm & _).
  exists m, (apply_mask arr m). unfold remove_background.
  rewrite background_mask_apply_mask, Hm. simpl.
  by rewrite apply_mask_idemp.
Qed.

Lemma remove_background_idempotent_witness :
  ∃ m out,
    background_mask ring_cell default_config = Some m ∧
    remove_background ring_cell default_config = Some out ∧
    background_mask out default_config = Some m ∧
    remove_background out default_config = Some out.
Proof.
  apply (remove_background_idempotent ring_cell default_config).
  compute_done.
Defined.

(** C1. [remove_background] never masks a pixel that has no 4-connected
    path of within-tolerance pixels to a border pixel: such a pixel is not
    in the background mask and comes out unchanged, alpha included
    (interior white details survive). *)
Theorem interior_white_survives arr cfg x y :
  valid_grid arr → valid_config cfg → in_bounds arr x y →
  ¬ border_path arr cfg x y →
  ∃ m out,
    background_mask arr cfg = Some m ∧
    remove_background arr cfg = Some out ∧
    mask_get m y x = false ∧
    pixel_at out x y = pixel_at arr x y.
Proof.
  intros (Hh & Hw & _) (_ & _ & _ & Htol & _) [Hx Hy] Hpath.
  destruct (background_mask_total arr cfg) as (m & Hm & _).
  exists m, (apply_mask arr m). unfold remove_background. rewrite Hm.
  assert (mask_get m y x = false) as Hget.
  { destruct (mask_get m y x) eqn:Hget; [|done].
    destruct Hpath. eapply background_mask_sound; eauto; lia. }
  repeat split; [done|].
  rewrite pixel_at_apply_mask, !Z2Nat.id by lia. by rewrite Hget.
Qed.

Lemma interior_white_survives_witness :
  ∃ m out,
    background_mask ring_cell default_config = Some m ∧
    remove_background ring_cell default_config = Some out ∧
    mask_get m 2 2 = false ∧
    pixel_at out 2 2 = pixel_at ring_cell 2 2.
Proof.
  apply (interior_white_survives ring_cell default_config 2 2).
  - compute_done.
  - compute_done.
  - compute_done.
  - intros Hpath.
    inversion Hpath as [? ? _ [_ Hedge]|? ? x' y' _ Hadj Hnext]; subst.
    + vm_compute in Hedge. lia.
    + inversion Hnext as [? ? [_ Htol] _|? ? ? ? [_ Htol] _ _]; subst;
        destruct Hadj as [[-> ->]|[[-> ->]|[[-> ->]|[-> ->]]]];
        vm_compute in Htol; discriminate.
Defined.

(** ** Chains of intervals *)

Lemma chain_le lo l hi : chain lo l hi → lo <= hi.
Proof.
  revert lo. induction l as [|iv l IH]; intros lo; simpl; [done|].
  intros (? & ? & Hl). apply IH in Hl. lia.
Qed.

Lemma chain_weaken lo lo' l hi hi' :
  lo' <= lo → hi <= hi' → chain lo l hi → chain lo' l hi'.
Proof.
  revert lo lo'. induction l as [|iv l IH]; intros lo lo' Hlo Hhi; simpl.
  - lia.
  - intros (? & ? & Hl). split; [lia|]. split; [done|]. by eapply IH.
Qed.

Lemma chain_app lo l mid l' hi :
  chain lo l mid → chain mid l' hi → chain lo (l ++ l') hi.
Proof.
  revert lo. induction l as [|iv l IH]; intros lo; simpl.
  - intros Hlo. by apply chain_weaken.
  - intros (? & ? & Hl) Hl'. auto.
Qed.

Lemma chain_snoc lo l s e :
  chain lo l s → s <= e → chain lo (l ++ [(s, e)]) e.
Proof.
  intros Hl Hse. eapply chain_app; [done|]. simpl. lia.
Qed.

Lemma chain_tail lo iv l hi : chain lo (iv :: l) hi → chain lo l hi.
Proof.
  simpl. intros (? & ? & Hl). eapply chain_weaken; [| |done]; lia.
Qed.

Lemma chain_filter (P : Z * Z → Prop) `{!∀ iv, Decision (P iv)} lo l hi :
  chain lo l hi → chain lo (filter P l) hi.
Proof.
  revert lo. induction l as [|iv l IH]; intros lo Hl; [done|].
  rewrite filter_cons. destruct (decide (P iv)).
  - destruct Hl as (? & ? & Hl). simpl. auto.
  - apply IH. by eapply chain_tail.
Qed.

Lemma chain_elem lo l hi iv :
  chain lo l hi → iv ∈ l → lo <= iv.1 ∧ iv.1 <= iv.2 ∧ iv.2 <= hi.
Proof.
  revert lo. induction l as [|iv' l IH]; intros lo Hl Hin.
  - by apply elem_of_nil in Hin.
  - destruct Hl as (? & ? & Hl).
    apply elem_of_cons in Hin as [->|Hin].
    + apply chain_le in Hl. lia.
    + destruct (IH _ Hl Hin) as (? & ? & ?). lia.
Qed.

Lemma chain_ordered lo (l : list (Z * Z)) hi (i j : nat) (a b : Z * Z) :
  chain lo l hi → l !! i = Some a → l !! j = Some b → (i < j)%nat →
  a.2 <= b.1.
Proof.
  revert lo i j. induction l as [|iv l IH]; intros lo i j Hl Hi Hj Hij;
    [done|].
  destruct Hl as (? & ? & Hl). destruct j as [|j]; [lia|].
  destruct i as [|i]; simplify_eq/=.
  - apply list_elem_of_lookup_2 in Hj.
    eapply chain_elem in Hj; [|done]. lia.
  - eapply IH; eauto. lia.
Qed.

(** ** Bands *)

Lemma find_bands_loop_chain mask i (in_band : bool) start bands lo :
  chain lo bands (if in_band then start else i) →
  (in_band = true → start <= i) →
  chain lo (find_bands_loop mask i in_band start bands)
        (i + Z.of_nat (length mask)).
Proof.
  revert i in_band start bands.
  induction mask as [|v mask IH]; intros i in_band start bands Hb Hs.
  - simpl. rewrite Z.add_0_r. destruct in_band; [|done].
    apply chain_snoc; auto.
  - cbn [find_bands_loop length].
    replace (i + Z.of_nat (S (length mask)))
      with (i + 1 + Z.of_nat (length mask)) by lia.
    destruct v, in_band; simpl; apply IH; simpl; try lia; auto.
    all: try (intros _; specialize (Hs eq_refl); lia).
    + apply chain_snoc with (e := i) in Hb; auto.
      eapply chain_weaken; [| |done]; lia.
    + eapply chain_weaken; [| |done]; lia.
Qed.

Lemma find_bands_chain mask :
  chain 0 (_find_bands mask) (Z.of_nat (length mask)).
Proof.
  apply (find_bands_loop_chain mask 0 false 0 [] 0); simpl; [lia|done].
Qed.

(** ** Gap intervals between separator bands *)

Lemma last_cons_cons {A} (a b : A) l d :
  List.last (a :: b :: l) d = List.last (b :: l) d.
Proof. done. Qed.

Lemma consecutive_cons_cons {A} (a b : A) l :
  consecutive (a :: b :: l) = (a, b) :: consecutive (b :: l).
Proof. done. Qed.

Lemma last_cons_default {A} (a : A) l d d' :
  List.last (a :: l) d = List.last (a :: l) d'.
Proof.
  revert a. induction l as [|b l IH]; intros a; [done|].
  rewrite !last_cons_cons. apply IH.
Qed.

Lemma gaps_between_chain lo b bands hi :
  chain lo (b :: bands) hi →
  chain b.2 (gaps_between (b :: bands)) (List.last (b :: bands) b).2
  ∧ (List.last (b :: bands) b).2 <= hi.
Proof.
  revert lo b. induction bands as [|b' bands IH]; intros lo b Hb.
  - destruct Hb as (? & ? & ?). simpl in *. lia.
  - destruct Hb as (? & ? & Hb').
    destruct (IH _ _ Hb') as [Hgaps Hlast].
    rewrite last_cons_cons.
    rewrite (last_cons_default b' bands b b').
    split; [|done].
    destruct Hb' as (? & ? & _).
    unfold gaps_between in *. rewrite consecutive_cons_cons.
    cbn [flat_map fst snd].
    destruct (_ >? 10); cbn [app chain fst snd].
    + split; [lia|]. split; [lia|].
      eapply chain_weaken; [| |done]; lia.
    + eapply chain_weaken; [| |done]; lia.
Qed.

Lemma bands_to_gap_intervals_chain bands total intervals :
  chain 0 bands total →
  _bands_to_gap_intervals bands total = Some intervals →
  chain 0 intervals total.
Proof.
  intros Hb. unfold _bands_to_gap_intervals.
  destruct bands as [|b bands]; [done|].
  destruct (gaps_between_chain 0 b bands total Hb) as [Hgaps Hlast].
  destruct Hb as (? & ? & _).
  set (final := List.last (b :: bands) b) in *.
  assert (chain 0
            ((if b.1 >? 10 then [(0, b.1)] else [])
             ++ gaps_between (b :: bands)
             ++ (if final.2 <? total - 10 then [(final.2, total)] else []))
            total) as Hchain.
  { apply chain_app with (mid := b.2).
    - destruct (b.1 >? 10); simpl; lia.
    - apply chain_app with (mid := final.2); [done|].
      destruct (final.2 <? total - 10) eqn:E; simpl; lia. }
  destruct (_ ++ _); [done|]. by intros [= <-].
Qed.

(** Row and column intervals used by the separator strategy. *)
Lemma gap_intervals_or_whole_chain bands total :
  0 <= total → chain 0 bands total →
  chain 0 (default [(0, total)] (_bands_to_gap_intervals bands total)) total.
Proof.
  intros Htotal Hb.
  destruct (_bands_to_gap_intervals bands total) as [ivs|] eqn:E; simpl.
  - by eapply bands_to_gap_intervals_chain.
  - lia.
Qed.

(** ** Cells built from row and column intervals *)

Lemma elem_of_cells_of_intervals hs vs r :
  r ∈ cells_of_intervals hs vs ↔
  ∃ hi vi, hi ∈ hs ∧ vi ∈ vs ∧ 10 < vi.2 - vi.1 ∧ 10 < hi.2 - hi.1
           ∧ r = (vi.1, hi.1, vi.2 - vi.1, hi.2 - hi.1).
Proof.
  unfold cells_of_intervals. rewrite elem_of_flat_map. split.
  - intros (hi & Hhi & Hr). apply elem_of_flat_map in Hr as (vi & Hvi & Hr).
    destruct (_ && _) eqn:E; [|by apply elem_of_nil in Hr].
    apply list_elem_of_singleton in Hr. apply andb_prop in E as [??].
    exists hi, vi. repeat split; auto; lia.
  - intros (hi & vi & Hhi & Hvi & ? & ? & ->). exists hi. split; [done|].
    apply elem_of_flat_map. exists vi. split; [done|].
    replace (_ && _) with true; [by left|].
    symmetry. apply andb_true_intro. split; lia.
Qed.

Lemma cells_of_intervals_inside hs vs W H r :
  chain 0 hs H → chain 0 vs W → r ∈ cells_of_intervals hs vs →
  rect_inside W H r ∧ rect_large r.
Proof.
  intros Hhs Hvs Hr.
  apply elem_of_cells_of_intervals in Hr
    as (hi & vi & Hhi & Hvi & ? & ? & ->).
  eapply chain_elem in Hhi as (? & ? & ?); [|done].
  eapply chain_elem in Hvi as (? & ? & ?); [|done].
  unfold rect_inside, rect_large. simpl. lia.
Qed.

(** ** Pairwise relations on lists *)

Section ordered_pairs.
Context {A : Type} (R : A → A → Prop).

Lemma ordered_pairs_app l1 l2 :
  ForallOrdPairs R l1 → ForallOrdPairs R l2 →
  (∀ a b, a ∈ l1 → b ∈ l2 → R a b) →
  ForallOrdPairs R (l1 ++ l2).
Proof.
  induction 1 as [|a l1 Ha Hl1 IH]; intros Hl2 Hcross; [done|].
  simpl. constructor.
  - apply Forall_app. split; [done|].
    apply Forall_forall. intros b Hb. apply Hcross; [left|done].
  - apply IH; [done|]. intros a' b Ha' Hb. apply Hcross; [by right|done].
Qed.

Lemma ordered_pairs_lookup l i j a b :
  ForallOrdPairs R l → (i < j)%nat → l !! i = Some a → l !! j = Some b →
  R a b.
Proof.
  intros Hl. revert i j. induction Hl as [|c l Hc Hl IH]; intros i j Hij Hi Hj;
    [done|].
  destruct j as [|j]; [exfalso; lia|]. destruct i as [|i]; simplify_eq/=.
  - rewrite Forall_forall in Hc. apply Hc. by eapply list_elem_of_lookup_2.
  - apply (IH i j); [lia|done..].
Qed.
End ordered_pairs.

Lemma ordered_pairs_flat_map {A B} (S : A → A → Prop) (R : B → B → Prop)
    (f : A → list B) l :
  ForallOrdPairs S l →
  (∀ a, a ∈ l → ForallOrdPairs R (f a)) →
  (∀ a a' b b', S a a' → b ∈ f a → b' ∈ f a' → R b b') →
  ForallOrdPairs R (flat_map f l).
Proof.
  intros Hl Hf Hcross. induction Hl as [|a l Ha Hl IH]; simpl; [constructor|].
  apply ordered_pairs_app.
  - apply Hf. left.
  - apply IH. intros a' Ha'. apply Hf. by right.
  - intros b b' Hb Hb'. apply elem_of_flat_map in Hb' as (a' & Ha' & Hb').
    rewrite Forall_forall in Ha. eapply Hcross; eauto.
Qed.

Lemma chain_ordered_pairs lo l hi :
  chain lo l hi → ForallOrdPairs (λ a b : Z * Z, a.2 <= b.1) l.
Proof.
  revert lo. induction l as [|iv l IH]; intros lo Hl; [constructor|].
  destruct Hl as (? & ? & Hl). constructor; [|by eapply IH].
  apply Forall_forall. intros b Hb.
  eapply chain_elem in Hb as (? & ? & ?); [|done]. lia.
Qed.

(** ** Disjointness of the cells *)

Lemma cells_of_intervals_ordered lo hs hi lo' vs hi' :
  chain lo hs hi → chain lo' vs hi' →
  ForallOrdPairs rects_disjoint (cells_of_intervals hs vs).
Proof.
  intros Hhs Hvs. unfold cells_of_intervals.
  apply ordered_pairs_flat_map with (S := λ a b : Z * Z, a.2 <= b.1).
  - by eapply chain_ordered_pairs.
  - intros h_i _.
    apply ordered_pairs_flat_map with (S := λ a b : Z * Z, a.2 <= b.1).
    + by eapply chain_ordered_pairs.
    + intros v_i _. destruct (_ && _); repeat constructor.
    + intros v_i v_i' r r' Hle Hr Hr'.
      guarded_singleton Hr. guarded_singleton Hr'. subst r r'.
      intros px py. unfold in_rect. simpl. lia.
  - intros h_i h_i' r r' Hle Hr Hr'.
    apply elem_of_flat_map in Hr as (v_i & _ & Hr).
    apply elem_of_flat_map in Hr' as (v_i' & _ & Hr').
    guarded_singleton Hr. guarded_singleton Hr'. subst r r'.
    intros px py. unfold in_rect. simpl. lia.
Qed.

Lemma rects_disjoint_sym r r' : rects_disjoint r r' → rects_disjoint r' r.
Proof. intros H px py [??]. by apply (H px py). Qed.

Lemma ordered_pairs_pairwise_disjoint rects :
  ForallOrdPairs rects_disjoint rects → pairwise_disjoint rects.
Proof.
  intros Hrects i j r r' Hij Hi Hj.
  destruct (decide (i < j)%nat).
  - by eapply ordered_pairs_lookup.
  - apply rects_disjoint_sym.
    eapply ordered_pairs_lookup; [done| |done..]. lia.
Qed.

Lemma cells_of_intervals_disjoint lo hs hi lo' vs hi' :
  chain lo hs hi → chain lo' vs hi' →
  pairwise_disjoint (cells_of_intervals hs vs).
Proof.
  intros. apply ordered_pairs_pairwise_disjoint.
  by eapply cells_of_intervals_ordered.
Qed.

(** ** Sorting *)

Lemma insert_sorted_perm {A} (key : A → Z) reverse x l :
  insert_sorted key reverse x l ≡ₚ x :: l.
Proof.
  induction l as [|y l IH]; simpl; [done|].
  destruct (if reverse then _ else _); [|done].
  rewrite IH. apply Permutation_swap.
Qed.

Lemma sorted_perm {A} (key : A → Z) reverse l : sorted key reverse l ≡ₚ l.
Proof.
  unfold sorted. induction l as [|x l IH]; simpl; [done|].
  by rewrite insert_sorted_perm, IH.
Qed.

(** ** The balance check *)

Lemma splits_are_balanced_spec splits total :
  _splits_are_balanced splits total default_min_ratio = true ↔
  ∀ a b, (a, b) ∈ consecutive splits → total <= 4 * (b - a).
Proof.
  unfold _splits_are_balanced. rewrite forallb_forall.
  assert (∀ span, negb (Qltb (inject_Z span)
                          (inject_Z total * default_min_ratio)) = true
                  ↔ total <= 4 * span) as Hspan.
  { intros span. unfold Qltb. rewrite negb_involutive, Qle_bool_iff.
    unfold Qle, default_min_ratio. simpl. lia. }
  split.
  - intros H a b Hab. apply Hspan. apply (H (a, b)). by apply list_elem_of_In.
  - intros H [a b] Hab. apply Hspan. apply H. by apply list_elem_of_In.
Qed.

(** ** Selection of gaps *)

Lemma try_gaps_Some sorted_gaps total n candidate :
  try_gaps sorted_gaps total n = Some candidate →
  candidate = sorted (λ g : Z * Z, g.1) false (take n sorted_gaps)
  ∧ (n <= length sorted_gaps)%nat
  ∧ _splits_are_balanced (_gaps_to_splits (Some candidate) total) total
      default_min_ratio = true.
Proof.
  unfold try_gaps. destruct (_ <? _)%nat eqn:Hlen; [done|].
  apply Nat.ltb_ge in Hlen.
  destruct (_splits_are_balanced _ _ _) eqn:Hbal; [|done].
  intros [= <-]. auto.
Qed.

Lemma try_gaps_None sorted_gaps total n :
  (n <= length sorted_gaps)%nat →
  try_gaps sorted_gaps total n = None →
  _splits_are_balanced
    (_gaps_to_splits
       (Some (sorted (λ g : Z * Z, g.1) false (take n sorted_gaps))) total)
    total default_min_ratio = false.
Proof.
  unfold try_gaps. intros Hlen. apply Nat.ltb_ge in Hlen. rewrite Hlen.
  by destruct (_splits_are_balanced _ _ _).
Qed.

Lemma select_best_gaps_Some gaps total candidate :
  _select_best_gaps gaps total = Some candidate →
  _splits_are_balanced (_gaps_to_splits (Some candidate) total) total
    default_min_ratio = true
  ∧ (length candidate = 1 ∨ length candidate = 2)%nat
  ∧ ∃ selection, selection ⊆+ gaps
      ∧ candidate = sorted (λ g : Z * Z, g.1) false selection.
Proof.
  unfold _select_best_gaps. destruct gaps as [|g gaps]; [done|].
  set (sorted_gaps := sorted _ true (g :: gaps)).
  assert (∀ n c, (n = 1 ∨ n = 2)%nat → try_gaps sorted_gaps total n = Some c →
    _splits_are_balanced (_gaps_to_splits (Some c) total) total
      default_min_ratio = true
    ∧ (length c = 1 ∨ length c = 2)%nat
    ∧ ∃ selection, selection ⊆+ g :: gaps
        ∧ c = sorted (λ g : Z * Z, g.1) false selection) as Htry.
  { intros n c Hn Hc. apply try_gaps_Some in Hc as (-> & Hlen & Hbal).
    split; [done|]. split.
    - rewrite sorted_perm, length_take_le by done. lia.
    - exists (take n sorted_gaps). split; [|done].
      etrans; [apply sublist_submseteq, sublist_take|].
      apply Permutation_submseteq, sorted_perm. }
  destruct (try_gaps sorted_gaps total 2) as [c|] eqn:E2.
  - intros [= <-]. apply (Htry 2%nat); auto.
  - intros E1. apply (Htry 1%nat); auto.
Qed.

Lemma select_best_gaps_None gaps total :
  _select_best_gaps gaps total = None →
  _gaps_to_splits (_select_best_gaps gaps total) total = [0; total].
Proof. by intros ->. Qed.

(** When no selection of one or two gaps is balanced, nothing is
    selected. *)
Lemma select_best_gaps_unbalanced gaps total :
  (∀ selection, selection ⊆+ gaps →
     (length selection = 1 ∨ length selection = 2)%nat →
     _splits_are_balanced
       (_gaps_to_splits (Some (sorted (λ g : Z * Z, g.1) false selection))
          total) total default_min_ratio = false) →
  _select_best_gaps gaps total = None.
Proof.
  intros Hnone.
  destruct (_select_best_gaps gaps total) as [c|] eqn:E; [|done].
  apply select_best_gaps_Some in E as (Hbal & Hlen & sel & Hsel & ->).
  rewrite Hnone in Hbal; [done..|].
  by rewrite sorted_perm in Hlen.
Qed.

(** ** Split points *)

Lemma consecutive_chain a (l : list Z) :
  (∀ x y, (x, y) ∈ consecutive (a :: l) → x <= y) →
  chain a (consecutive (a :: l)) (List.last (a :: l) a).
Proof.
  revert a. induction l as [|b l IH]; intros a Hle.
  - simpl. lia.
  - rewrite consecutive_cons_cons, last_cons_cons,
      (last_cons_default b l a b).
    cbn [chain fst snd]. split; [lia|].
    split; [apply Hle; rewrite consecutive_cons_cons; left|].
    apply IH. intros x y Hxy. apply Hle.
    rewrite consecutive_cons_cons. by right.
Qed.

Lemma gaps_to_splits_ends gaps total :
  ∃ mids, _gaps_to_splits gaps total = 0 :: mids ++ [total].
Proof.
  destruct gaps as [[|g gaps]|]; simpl.
  - by exists [].
  - by eexists (_ :: _).
  - by exists [].
Qed.

Lemma gaps_to_splits_chain gaps total :
  (∀ a b, (a, b) ∈ consecutive (_gaps_to_splits gaps total) → a <= b) →
  chain 0 (consecutive (_gaps_to_splits gaps total)) total.
Proof.
  destruct (gaps_to_splits_ends gaps total) as [mids ->]. intros Hle.
  pose proof (consecutive_chain 0 (mids ++ [total]) Hle) as Hchain.
  assert (List.last (0 :: mids ++ [total]) 0 = total) as Hlast
    by apply (last_last (0 :: mids)).
  by rewrite Hlast in Hchain.
Qed.

(** ** The two strategies *)

Lemma separator_bands_chain img cfg :
  chain 0 (separator_bands img cfg).1 (height img)
  ∧ chain 0 (separator_bands img cfg).2 (width img).
Proof.
  unfold separator_bands. cbn [fst snd]. split; apply chain_filter.
  - pose proof (find_bands_chain
      (map (λ r, Qltb (95 # 100) r)
         (mean_axis1 (below_threshold img (white_threshold cfg))))) as H.
    unfold mean_axis1, below_threshold in *.
    by rewrite !length_map in H.
  - pose proof (find_bands_chain
      (map (λ r, Qltb (95 # 100) r)
         (mean_axis0 (below_threshold img (white_threshold cfg))
            (width img)))) as H.
    unfold mean_axis0 in *. rewrite !length_map, length_seq in H.
    rewrite Z2Nat.id in H; [done|].
    unfold width. destruct img; lia.
Qed.

Lemma detect_separator_lines_Some img cfg cells :
  _detect_separator_lines img cfg = Some cells →
  (1 < length cells)%nat ∧
  ∃ hs vs, chain 0 hs (height img) ∧ chain 0 vs (width img)
           ∧ cells = cells_of_intervals hs vs.
Proof.
  unfold _detect_separator_lines.
  destruct (separator_bands_chain img cfg) as [Hh Hv].
  destruct (separator_bands img cfg) as [h_bands v_bands]. cbn [fst snd] in *.
  assert (0 <= height img) by (unfold height; lia).
  assert (0 <= width img) by (unfold width; destruct img; lia).
  set (hs := default [(0, height img)] _).
  set (vs := default [(0, width img)] _).
  assert (chain 0 hs (height img)) by by apply gap_intervals_or_whole_chain.
  assert (chain 0 vs (width img)) by by apply gap_intervals_or_whole_chain.
  intros Hcells.
  assert ((if (1 <? length (cells_of_intervals hs vs))%nat
           then Some (cells_of_intervals hs vs) else None) = Some cells)
    as Hret by (destruct h_bands, v_bands; done).
  destruct (1 <? _)%nat eqn:Hlen; [|done]. simplify_eq.
  apply Nat.ltb_lt in Hlen. eauto 10.
Qed.

Lemma select_best_gaps_chain gaps total :
  0 <= total →
  chain 0 (consecutive (_gaps_to_splits (_select_best_gaps gaps total) total))
    total.
Proof.
  intros Htotal. apply gaps_to_splits_chain. intros a b Hab.
  destruct (_select_best_gaps gaps total) as [c|] eqn:E.
  - apply select_best_gaps_Some in E as (Hbal & _).
    rewrite splits_are_balanced_spec in Hbal. specialize (Hbal a b Hab). lia.
  - simpl in Hab. apply list_elem_of_singleton in Hab. simplify_eq. done.
Qed.

Lemma detect_white_gaps_Some img cfg cells :
  _detect_white_gaps img cfg = Some cells →
  (1 < length cells)%nat ∧
  ∃ hs vs, chain 0 hs (height img) ∧ chain 0 vs (width img)
           ∧ cells = cells_of_intervals hs vs.
Proof.
  unfold _detect_white_gaps.
  destruct (white_gap_bands img cfg) as [h_gaps v_gaps].
  assert (0 <= height img) by (unfold height; lia).
  assert (0 <= width img) by (unfold width; destruct img; lia).
  pose proof (select_best_gaps_chain h_gaps (height img)) as Hh.
  pose proof (select_best_gaps_chain v_gaps (width img)) as Hv.
  set (h_selected := _select_best_gaps h_gaps (height img)) in *.
  set (v_selected := _select_best_gaps v_gaps (width img)) in *.
  intros Hcells.
  assert ((if (1 <? length (_build_cells
                              (_gaps_to_splits h_selected (height img))
                              (_gaps_to_splits v_selected (width img))))%nat
           then Some (_build_cells
                        (_gaps_to_splits h_selected (height img))
                        (_gaps_to_splits v_selected (width img)))
           else None) = Some cells) as Hret
    by (destruct h_gaps, v_gaps, h_selected, v_selected; done).
  destruct (1 <? _)%nat eqn:Hlen; [|done]. simplify_eq.
  apply Nat.ltb_lt in Hlen. split; [done|].
  unfold _build_cells. eauto 10.
Qed.

(** What either strategy returns, and what [detect_cells] returns. *)
Lemma detect_cells_cases img cfg :
  ((1 < length (detect_cells img cfg))%nat ∧
   ∃ hs vs, chain 0 hs (height img) ∧ chain 0 vs (width img)
            ∧ detect_cells img cfg = cells_of_intervals hs vs)
  ∨ (_detect_separator_lines img cfg = None
     ∧ _detect_white_gaps img cfg = None
     ∧ detect_cells img cfg = [(0, 0, width img, height img)]).
Proof.
  unfold detect_cells.
  destruct (_detect_separator_lines img cfg) as [cells|] eqn:E1.
  { left. by apply detect_separator_lines_Some in E1. }
  destruct (_detect_white_gaps img cfg) as [cells|] eqn:E2.
  { left. by apply detect_white_gaps_Some in E2. }
  by right.
Qed.

(** ** Gap intervals lie between the bands *)

Lemma chain_last_le lo b bands hi c :
  chain lo (b :: bands) hi → c ∈ b :: bands →
  c.2 <= (List.last (b :: bands) b).2.
Proof.
  revert lo b c. induction bands as [|b' bands IH]; intros lo b c Hb Hc.
  - apply list_elem_of_singleton in Hc as ->. simpl. lia.
  - rewrite last_cons_cons, (last_cons_default b' bands b b').
    destruct Hb as (? & ? & Hb').
    apply elem_of_cons in Hc as [->|Hc]; [|by eapply IH].
    pose proof (IH _ _ b' Hb' ltac:(left)) as Hlast.
    destruct Hb' as (? & ? & _). lia.
Qed.

Lemma gaps_between_apart lo b bands hi iv c :
  chain lo (b :: bands) hi →
  iv ∈ gaps_between (b :: bands) → c ∈ b :: bands → apart iv c.
Proof.
  revert lo b c. induction bands as [|b' bands IH]; intros lo b c Hb Hiv Hc.
  - by apply elem_of_nil in Hiv.
  - pose proof Hb as (? & ? & Hb').
    destruct (gaps_between_chain _ _ _ _ Hb') as [Hgaps _].
    unfold gaps_between in Hiv. rewrite consecutive_cons_cons in Hiv.
    cbn [flat_map fst snd] in Hiv. apply elem_of_app in Hiv as [Hiv|Hiv].
    + destruct (_ >? 10); [|by apply elem_of_nil in Hiv].
      apply list_elem_of_singleton in Hiv as ->. unfold apart. simpl.
      apply elem_of_cons in Hc as [->|Hc]; [right; lia|left].
      destruct Hb' as (? & ? & Hbands).
      apply elem_of_cons in Hc as [->|Hc]; [lia|].
      eapply chain_elem in Hc as (? & ? & ?); [|done]. lia.
    + apply elem_of_cons in Hc as [->|Hc]; [|by eapply IH].
      right. eapply chain_elem in Hiv as (? & ? & ?); [|done].
      destruct Hb' as (? & ? & _). lia.
Qed.

(** The intervals returned by [_bands_to_gap_intervals] contain no index
    of any band. *)
Lemma bands_to_gap_intervals_apart bands total intervals iv c :
  chain 0 bands total →
  _bands_to_gap_intervals bands total = Some intervals →
  iv ∈ intervals → c ∈ bands → apart iv c.
Proof.
  intros Hb. unfold _bands_to_gap_intervals.
  destruct bands as [|b bands]; [done|].
  set (final := List.last (b :: bands) b) in *.
  destruct (_ ++ _) as [|i0 ivs] eqn:E; [done|]. intros [= <-].
  rewrite <- E. clear E. intros Hiv Hc.
  apply elem_of_app in Hiv as [Hiv|Hiv]; [|apply elem_of_app in Hiv as [Hiv|Hiv]].
  - destruct (b.1 >? 10); [|by apply elem_of_nil in Hiv].
    apply list_elem_of_singleton in Hiv as ->. left. simpl.
    destruct Hb as (? & ? & Hb).
    apply elem_of_cons in Hc as [->|Hc]; [done|].
    eapply chain_elem in Hc as (? & ? & ?); [|done]. lia.
  - by eapply gaps_between_apart.
  - destruct (final.2 <? total - 10); [|by apply elem_of_nil in Hiv].
    apply list_elem_of_singleton in Hiv as ->. right. simpl.
    by eapply chain_last_le.
Qed.

(** Where every axis that has bands also has at least one gap interval,
    the cells of the separator-line strategy contain no pixel of a
    separator band. *)
Lemma separator_cells_avoid_bands img cfg cells r px py :
  _detect_separator_lines img cfg = Some cells →
  ((separator_bands img cfg).1 = [] ∨
   is_Some (_bands_to_gap_intervals (separator_bands img cfg).1
              (height img))) →
  ((separator_bands img cfg).2 = [] ∨
   is_Some (_bands_to_gap_intervals (separator_bands img cfg).2
              (width img))) →
  r ∈ cells → in_rect r px py → ¬ in_separator_band img cfg px py.
Proof.
  unfold _detect_separator_lines, in_separator_band.
  destruct (separator_bands_chain img cfg) as [Hh Hv].
  destruct (separator_bands img cfg) as [h_bands v_bands]. cbn [fst snd] in *.
  intros Hcells Hhi Hvi Hr Hin.
  assert (r ∈ cells_of_intervals
            (default [(0, height img)]
               (_bands_to_gap_intervals h_bands (height img)))
            (default [(0, width img)]
               (_bands_to_gap_intervals v_bands (width img)))) as Hr'.
  { destruct h_bands, v_bands; [done|..];
      destruct (1 <? _)%nat; by simplify_eq. }
  apply elem_of_cells_of_intervals in Hr'
    as (hi & vi & Hhs & Hvs & _ & _ & ->).
  unfold in_rect in Hin. simpl in Hin.
  intros [(b & Hb & Hpy)|(b & Hb & Hpx)].
  - destruct Hhi as [->|[h_ivs Hhi]]; [by apply elem_of_nil in Hb|].
    rewrite Hhi in Hhs. simpl in Hhs.
    destruct (bands_to_gap_intervals_apart _ _ _ hi b Hh Hhi); [done..| |];
      lia.
  - destruct Hvi as [->|[v_ivs Hvi]]; [by apply elem_of_nil in Hb|].
    rewrite Hvi in Hvs. simpl in Hvs.
    destruct (bands_to_gap_intervals_apart _ _ _ vi b Hv Hvi); [done..| |];
      lia.
Qed.

(** ** Grid detection *)

(** C2. For every image of at least 1x1 pixels and every configuration,
    [detect_cells] returns a list of at least one rectangle; when both the
    separator-line strategy and the white-gap strategy fail, the result is
    exactly the one rectangle [(0, 0, W, H)] covering the whole image.
    (No step of the detector can raise on such an image: every index it
    uses is guarded by an emptiness test, so the embedding is a total
    function.) *)
Theorem detect_cells_total img cfg :
  valid_grid img →
  (1 <= length (detect_cells img cfg))%nat ∧
  (_detect_separator_lines img cfg = None →
   _detect_white_gaps img cfg = None →
   detect_cells img cfg = [(0, 0, width img, height img)]).
Proof.
  intros _. split.
  - destruct (detect_cells_cases img cfg) as [[Hlen _]|(_ & _ & ->)];
      [lia|done].
  - unfold detect_cells. by intros -> ->.
Qed.

Lemma detect_cells_total_witness :
  (1 <= length (detect_cells small_sheet default_config))%nat ∧
  (_detect_separator_lines small_sheet default_config = None →
   _detect_white_gaps small_sheet default_config = None →
   detect_cells small_sheet default_config
   = [(0, 0, width small_sheet, height small_sheet)]).
Proof.
  apply (detect_cells_total small_sheet default_config). compute_done.
Defined.

(** C3. The property that no pixel of a rectangle returned by the
    separator-line strategy lies in a detected separator band does not hold
    on [framed_sheet]: the strategy succeeds with two cells, the only row
    band is [(0, 1)], no row interval longer than 10 pixels remains beside
    it, so [_bands_to_gap_intervals] returns [None], the whole axis
    [(0, 11)] is used as for an axis without bands, and the cell
    [(0, 0, 11, 11)] contains the pixel [(0, 0)] of that band.  Where every
    axis with bands keeps a gap interval the property holds
    ([separator_cells_avoid_bands]). *)
Theorem separator_band_inside_cell :
  valid_grid framed_sheet ∧
  _detect_separator_lines framed_sheet default_config
    = Some [(0, 0, 11, 11); (12, 0, 11, 11)] ∧
  separator_bands framed_sheet default_config = ([(0, 1)], [(11, 12)]) ∧
  in_rect (0, 0, 11, 11) 0 0 ∧
  in_separator_band framed_sheet default_config 0 0.
Proof.
  split; [compute_done|]. split; [by vm_compute|].
  assert (separator_bands framed_sheet default_config
          = ([(0, 1)], [(11, 12)])) as Hbands by by vm_compute.
  split; [done|]. split; [unfold in_rect; simpl; lia|].
  left. exists (0, 1). rewrite Hbands. split; [left|simpl; lia].
Qed.

(** C4 as stated fails: on a 5x5 white sheet both strategies fail and the
    fallback rectangle [(0, 0, 5, 5)] is not wider and taller than 10. *)
Lemma fallback_rect_not_large :
  ¬ (∀ img cfg r,
       valid_grid img → r ∈ detect_cells img cfg →
       rect_inside (width img) (height img) r ∧ rect_large r).
Proof.
  intros H.
  destruct (H small_sheet default_config (0, 0, 5, 5)) as [_ [Hw _]].
  - compute_done.
  - vm_compute. left.
  - simpl in Hw. lia.
Qed.

(** C4, amended. Every rectangle returned by [detect_cells] lies inside
    the image ([0 <= x], [x + w <= W], [0 <= y], [y + h <= H]); it has
    [w > 10] and [h > 10] whenever it comes from the separator-line or the
    white-gap strategy; otherwise both strategies failed and it is the
    fallback rectangle [(0, 0, W, H)], whatever the size of the image. *)
Theorem detect_cells_rects img cfg r :
  valid_grid img → r ∈ detect_cells img cfg →
  rect_inside (width img) (height img) r ∧
  (rect_large r ∨
   (_detect_separator_lines img cfg = None ∧
    _detect_white_gaps img cfg = None ∧
    r = (0, 0, width img, height img))).
Proof.
  intros (Hh & Hw & _) Hr.
  destruct (detect_cells_cases img cfg)
    as [[_ (hs & vs & Hhs & Hvs & Hcells)]|(E1 & E2 & Hcells)];
    rewrite Hcells in Hr.
  - eapply cells_of_intervals_inside in Hr as [??]; eauto.
  - apply list_elem_of_singleton in Hr as ->. split; [|by right].
    unfold rect_inside. simpl. lia.
Qed.

Lemma detect_cells_rects_witness :
  rect_inside (width gapped_sheet) (height gapped_sheet) (50, 0, 50, 40) ∧
  (rect_large (50, 0, 50, 40) ∨
   (_detect_separator_lines gapped_sheet default_config = None ∧
    _detect_white_gaps gapped_sheet default_config = None ∧
    (50, 0, 50, 40) = (0, 0, width gapped_sheet, height gapped_sheet))).
Proof.
  apply (detect_cells_rects gapped_sheet default_config (50, 0, 50, 40)).
  - compute_done.
  - vm_compute. right. left.
Defined.

(** C5. On an axis of length [total] handled by the white-gap strategy,
    the split points run from 0 to [total] and every segment between
    consecutive split points, the leading and trailing ones included, is at
    least 25% of [total].  If neither the two widest gaps nor the widest
    gap pass the balance check, the axis is the single segment
    [[0, total]]; in particular this is so when no selection of two gaps
    and no selection of one gap (taken in order of their start) passes
    it. *)
Theorem gap_splits_balanced gaps total :
  0 <= total →
  let splits := _gaps_to_splits (_select_best_gaps gaps total) total in
  let sorted_gaps := sorted (λ g : Band, g.2 - g.1) true gaps in
  (∃ mids, splits = 0 :: mids ++ [total]) ∧
  (∀ a b, (a, b) ∈ consecutive splits → total <= 4 * (b - a)) ∧
  (try_gaps sorted_gaps total 2 = None →
   try_gaps sorted_gaps total 1 = None →
   splits = [0; total]) ∧
  ((∀ selection, selection ⊆+ gaps →
      (length selection = 1 ∨ length selection = 2)%nat →
      _splits_are_balanced
        (_gaps_to_splits (Some (sorted (λ g : Band, g.1) false selection))
           total) total default_min_ratio = false) →
   splits = [0; total]).
Proof.
  intros Htotal splits sorted_gaps.
  split; [apply gaps_to_splits_ends|]. split; [|split].
  - intros a b Hab. subst splits.
    destruct (_select_best_gaps gaps total) as [c|] eqn:E.
    + apply select_best_gaps_Some in E as (Hbal & _).
      rewrite splits_are_balanced_spec in Hbal. by apply Hbal.
    + simpl in Hab. apply list_elem_of_singleton in Hab. simplify_eq. lia.
  - intros E2 E1. subst splits sorted_gaps. unfold _select_best_gaps.
    destruct gaps; [done|]. by rewrite E2, E1.
  - intros Hnone. subst splits.
    by rewrite (select_best_gaps_unbalanced gaps total Hnone).
Qed.

Lemma gap_splits_balanced_witness :
  let splits :=
    _gaps_to_splits (_select_best_gaps [(40, 60); (3, 9)] 100) 100 in
  let sorted_gaps := sorted (λ g : Band, g.2 - g.1) true [(40, 60); (3, 9)] in
  (∃ mids, splits = 0 :: mids ++ [100]) ∧
  (∀ a b, (a, b) ∈ consecutive splits → 100 <= 4 * (b - a)) ∧
  (try_gaps sorted_gaps 100 2 = None →
   try_gaps sorted_gaps 100 1 = None →
   splits = [0; 100]) ∧
  ((∀ selection, selection ⊆+ [(40, 60); (3, 9)] →
      (length selection = 1 ∨ length selection = 2)%nat →
      _splits_are_balanced
        (_gaps_to_splits (Some (sorted (λ g : Band, g.1) false selection))
           100) 100 default_min_ratio = false) →
   splits = [0; 100]).
Proof.
  apply (gap_splits_balanced [(40, 60); (3, 9)] 100). lia.
Defined.

(** C10. The rectangles returned by [detect_cells] are pairwise disjoint:
    no pixel belongs to two rectangles at different positions of the
    list. *)
Theorem detect_cells_disjoint img cfg :
  valid_grid img → pairwise_disjoint (detect_cells img cfg).
Proof.
  intros _.
  destruct (detect_cells_cases img cfg)
    as [[_ (hs & vs & Hhs & Hvs & ->)]|(_ & _ & ->)].
  - by eapply cells_of_intervals_disjoint.
  - intros [|i] [|j] r r' Hij Hi Hj; simplify_eq/=.
Qed.

Lemma detect_cells_disjoint_witness :
  pairwise_disjoint (detect_cells gapped_sheet default_config).
Proof.
  apply (detect_cells_disjoint gapped_sheet default_config). compute_done.
Defined.

(** ** Cropping *)

Lemma count_nonzero_visible img :
  valid_grid img → count_nonzero (map (map alpha) img) = visible_pixels img.
Proof.
  intros (_ & _ & Hrows). unfold count_nonzero, visible_pixels. f_equal.
  rewrite map_map. f_equal. apply map_ext_Forall.
  eapply Forall_impl; [done|]. intros row [_ Hbytes]. simpl.
  clear -Hbytes. induction Hbytes as [|p row Hp _ IH]; [done|].
  cbn [map]. rewrite !filter_cons.
  destruct Hp as (_ & _ & _ & Ha). unfold byte in Ha.
  repeat case_decide; simpl; rewrite ?IH; try done; lia.
Qed.

Lemma existsb_first_true l :
  existsb id l = true →
  l !! first_true l = Some true
  ∧ ∀ k, (k < first_true l)%nat → l !! k = Some false.
Proof.
  induction l as [|b l IH]; [done|]. destruct b; simpl.
  - intros _. split; [done|]. lia.
  - intros Hex. rewrite Hex. destruct (IH Hex) as [Hat Hbefore].
    split; [done|]. intros [|k] Hk; [done|]. apply Hbefore. lia.
Qed.

Lemma first_true_none l : existsb id l = false → first_true l = 0%nat.
Proof. destruct l as [|[] l]; simpl; [done..|]. by intros ->. Qed.

Lemma existsb_reverse (l : list bool) :
  existsb id (reverse l) = existsb id l.
Proof.
  apply eq_true_iff_eq. rewrite !existsb_exists.
  by setoid_rewrite <- list_elem_of_In; setoid_rewrite elem_of_reverse.
Qed.

(** The first [True] is not after the last one. *)
Lemma first_true_reverse (l : list bool) :
  l ≠ [] → (first_true l + first_true (reverse l) < length l)%nat.
Proof.
  intros Hne. assert (0 < length l)%nat by (destruct l; simpl; [done|lia]).
  destruct (existsb id l) eqn:Hex.
  - destruct (existsb_first_true l Hex) as [_ Hbefore].
    pose proof Hex as Hex'. rewrite <- existsb_reverse in Hex'.
    destruct (existsb_first_true _ Hex') as [Hat _].
    assert (first_true (reverse l) < length l)%nat as Hlt.
    { rewrite <- length_reverse. by eapply lookup_lt_Some. }
    rewrite reverse_lookup in Hat by done.
    destruct (decide (first_true l + first_true (reverse l) < length l)%nat);
      [done|].
    rewrite Hbefore in Hat by lia. done.
  - rewrite first_true_none by done.
    rewrite first_true_none by by rewrite existsb_reverse. lia.
Qed.

Lemma argmax_Returned l :
  l ≠ [] → argmax l = Returned (Z.of_nat (first_true l)).
Proof. by destruct l. Qed.

Lemma pixel_at_byte img x y : valid_grid img → byte_pixel (pixel_at img x y).
Proof.
  intros (_ & _ & Hrows). unfold pixel_at.
  destruct (img !! Z.to_nat y) as [row|] eqn:Hrow; simpl;
    [|unfold byte_pixel, byte; simpl; lia].
  destruct (row !! Z.to_nat x) as [p|] eqn:Hp; simpl;
    [|unfold byte_pixel, byte; simpl; lia].
  rewrite Forall_lookup in Hrows. destruct (Hrows _ _ Hrow) as [_ Hbytes].
  rewrite Forall_lookup in Hbytes. by eapply Hbytes.
Qed.

Lemma crop_valid img left upper right lower :
  valid_grid img → left < right → upper < lower →
  ∃ g, crop img left upper right lower = Returned g ∧ valid_grid g
       ∧ width g = right - left ∧ height g = lower - upper.
Proof.
  intros Himg Hx Hy. unfold crop.
  replace (_ || _) with false
    by (symmetry; apply orb_false_intro; lia).
  eexists. split; [done|].
  assert (width (map (λ y, map (λ x,
            if (0 <=? x) && (x <? width img) && (0 <=? y) && (y <? height img)
            then pixel_at img x y else transparent) (range left right))
            (range upper lower)) = right - left) as Hw.
  { unfold range at 2. destruct (seqZ upper (lower - upper)) eqn:E.
    - apply (f_equal length) in E. rewrite length_seqZ in E. simpl in E. lia.
    - simpl. rewrite length_map. unfold range. rewrite length_seqZ. lia. }
  assert (height (map (λ y, map (λ x,
            if (0 <=? x) && (x <? width img) && (0 <=? y) && (y <? height img)
            then pixel_at img x y else transparent) (range left right))
            (range upper lower)) = lower - upper) as Hh.
  { unfold height. rewrite length_map. unfold range. rewrite length_seqZ. lia. }
  split; [|done]. split; [lia|]. split; [lia|].
  rewrite Hw. apply Forall_map, Forall_forall. intros y _. split.
  - rewrite length_map. unfold range. rewrite length_seqZ. lia.
  - apply Forall_map, Forall_forall. intros x _.
    destruct (_ && _); [by apply pixel_at_byte|].
    unfold byte_pixel, byte. simpl. lia.
Qed.

Lemma crop_sprite_unskipped img cfg :
  valid_grid img → 0 <= padding cfg →
  ¬ (count_nonzero (map (map alpha) img) < min_sprite_pixels cfg) →
  ∃ g, crop_sprite img cfg = Returned (Some g) ∧ valid_grid g.
Proof.
  intros Himg Hpad Hcount. unfold crop_sprite.
  replace (_ <? _) with false by (symmetry; by apply Z.ltb_nlt).
  destruct Himg as (Hh & Hw & Hrows).
  set (alphas := map (map alpha) img).
  assert (length (any_axis1 alphas) = length img) as Hlen1.
  { unfold any_axis1, alphas. by rewrite !length_map. }
  assert (length (any_axis0 alphas (width img)) = Z.to_nat (width img))
    as Hlen0.
  { unfold any_axis0. by rewrite length_map, length_seq. }
  assert (any_axis1 alphas ≠ []) as Hne1.
  { intros E. rewrite E in Hlen1. unfold height in Hh. simpl in Hlen1. lia. }
  assert (any_axis0 alphas (width img) ≠ []) as Hne0.
  { intros E. rewrite E in Hlen0. simpl in Hlen0. lia. }
  assert (∀ l : list bool, l ≠ [] → reverse l ≠ []) as Hrev.
  { intros l Hl E. apply Hl. apply (f_equal length) in E.
    rewrite length_reverse in E. by destruct l. }
  rewrite !argmax_Returned by auto. cbn [outcome_bind].
  pose proof (first_true_reverse _ Hne1) as Hy.
  pose proof (first_true_reverse _ Hne0) as Hx.
  rewrite Hlen1 in *. rewrite Hlen0 in *. unfold height in *.
  edestruct (crop_valid img) as (g & -> & Hg & _);
    [by repeat split| | |by eauto]; lia.
Qed.

(** C8. For a valid cell and configuration [crop_sprite] raises no
    exception; it returns the skip result [None] if and only if the number of
    pixels with [alpha > 0] is strictly below [min_sprite_pixels] (so a cell
    with 150 visible pixels and [min_sprite_pixels = 200] is skipped), and
    otherwise it returns a pixel grid. *)
Theorem crop_sprite_skip img cfg :
  valid_grid img → valid_config cfg →
  ∃ result,
    crop_sprite img cfg = Returned result ∧
    (result = None ↔ visible_pixels img < min_sprite_pixels cfg) ∧
    (visible_pixels img = 150 → min_sprite_pixels cfg = 200 →
     result = None) ∧
    (∀ g, result = Some g → valid_grid g).
Proof.
  intros Himg (_ & Hpad & _).
  pose proof (count_nonzero_visible img Himg) as Hcount.
  destruct (decide (visible_pixels img < min_sprite_pixels cfg)) as [Hlt|Hge].
  - exists None. unfold crop_sprite. rewrite Hcount.
    replace (_ <? _) with true by (symmetry; by apply Z.ltb_lt).
    by repeat split.
  - destruct (crop_sprite_unskipped img cfg) as (g & -> & Hg);
      [done|done|by rewrite Hcount|].
    exists (Some g). split; [done|]. split; [split; [done|lia]|].
    split; [lia|]. by intros ? [= <-].
Qed.

Lemma crop_sprite_skip_witness :
  ∃ result,
    crop_sprite opaque_cell default_config = Returned result ∧
    (result = None ↔
     visible_pixels opaque_cell < min_sprite_pixels default_config) ∧
    (visible_pixels opaque_cell = 150 →
     min_sprite_pixels default_config = 200 → result = None) ∧
    (∀ g, result = Some g → valid_grid g).
Proof.
  apply (crop_sprite_skip opaque_cell default_config); compute_done.
Defined.

(** ** Resizing *)

Lemma height_new_image w h : 0 <= h → height (new_image w h) = h.
Proof. intros. unfold height, new_image. rewrite length_replicate. lia. Qed.

Lemma width_new_image w h : 0 <= w → 1 <= h → width (new_image w h) = w.
Proof.
  intros. unfold new_image. destruct (Z.to_nat h) eqn:E; [lia|].
  simpl. rewrite length_replicate. lia.
Qed.

Lemma height_paste canvas im ox oy :
  height (paste canvas im ox oy) = height canvas.
Proof. unfold height, paste. by rewrite length_imap. Qed.

Lemma width_paste canvas im ox oy :
  width (paste canvas im ox oy) = width canvas.
Proof. destruct canvas; [done|]. simpl. by rewrite length_imap. Qed.

Lemma paste_row_lengths canvas im ox oy n :
  Forall (λ row, length row = n) canvas →
  Forall (λ row, length row = n) (paste canvas im ox oy).
Proof.
  intros Hrows. apply Forall_lookup. intros i row Hrow.
  unfold paste in Hrow. apply list_lookup_imap_Some in Hrow as (r & Hr & ->).
  rewrite length_imap. by eapply (proj1 (Forall_lookup _ _) Hrows).
Qed.

Lemma pixel_at_paste_new_image size im ox oy x y :
  0 <= x < size → 0 <= y < size →
  pixel_at (paste (new_image size size) im ox oy) x y =
  if (0 <=? x - ox) && (x - ox <? width im)
     && (0 <=? y - oy) && (y - oy <? height im)
  then pixel_at im (x - ox) (y - oy) else transparent.
Proof.
  intros Hx Hy. unfold pixel_at at 1, paste, new_image.
  rewrite list_lookup_imap, lookup_replicate_2 by lia. simpl.
  rewrite list_lookup_imap, lookup_replicate_2 by lia. simpl.
  by rewrite !Z2Nat.id by lia.
Qed.

Lemma scaled_size_pos cw ch size :
  1 <= (scaled_size cw ch size).1 ∧ 1 <= (scaled_size cw ch size).2.
Proof. unfold scaled_size. cbn [fst snd]. lia. Qed.

(** C9 as stated fails: the scaled dimensions do not keep the aspect ratio
    exactly.  A 3x2 sprite resized to side 4 is scaled to 4x2, and
    [4 * 2 <> 3 * 2]. *)
Lemma aspect_ratio_not_exact :
  ¬ (∀ cw ch size, 1 <= cw → 1 <= ch → 1 <= size →
       (scaled_size cw ch size).1 * ch = cw * (scaled_size cw ch size).2).
Proof.
  intros H. specialize (H 3 2 4). vm_compute in H.
  assert (8 = 6) as Habs by (apply H; discriminate). discriminate.
Qed.

(** C9, amended. For a sprite of width and height at least 1 and
    [size >= 1], [resize_sprite] returns a grid of exactly [size] x [size];
    the scaled sprite has dimensions
    [max(1, int(cw * scale))] x [max(1, int(ch * scale))], both at least 1
    (the aspect ratio is kept only up to this truncation); it is pasted at
    the offsets [((size - new_w) // 2, (size - new_h) // 2)]; and every
    canvas pixel outside the pasted sprite is transparent (alpha 0). *)
Theorem resize_sprite_canvas resample img size :
  valid_grid img → 1 <= size → resample_sized resample →
  let out := resize_sprite resample img size in
  let new := scaled_size (width img) (height img) size in
  let offset := ((size - new.1) / 2, (size - new.2) / 2) in
  height out = size ∧ width out = size ∧
  Forall (λ row, Z.of_nat (length row) = size) out ∧
  1 <= new.1 ∧ 1 <= new.2 ∧
  ∀ x y, 0 <= x < size → 0 <= y < size →
    (in_box offset.1 offset.2 new.1 new.2 x y →
     pixel_at out x y
     = pixel_at (resample img new.1 new.2) (x - offset.1) (y - offset.2)) ∧
    (¬ in_box offset.1 offset.2 new.1 new.2 x y →
     pixel_at out x y = transparent ∧ alpha (pixel_at out x y) = 0).
Proof.
  intros Himg Hsize Hresample out new offset.
  destruct (scaled_size_pos (width img) (height img) size) as [Hnw Hnh].
  destruct (Hresample img new.1 new.2) as [Hrw Hrh]; [done..|].
  subst out. unfold resize_sprite, paste_offset. fold new. cbn [fst snd].
  split; [rewrite height_paste; apply height_new_image; lia|].
  split; [rewrite width_paste; apply width_new_image; lia|].
  split.
  { eapply Forall_impl.
    - apply (paste_row_lengths _ _ _ _ (Z.to_nat size)).
      unfold new_image. apply Forall_replicate. apply length_replicate.
    - simpl. intros row ->. lia. }
  split; [done|]. split; [done|].
  intros x y Hx Hy. rewrite pixel_at_paste_new_image by done.
  rewrite Hrw, Hrh. unfold in_box, offset. cbn [fst snd].
  destruct (_ && _) eqn:Hbox.
  - split; [done|]. intros Hout. destruct Hout.
    split_andb Hbox. lia.
  - split; [|done]. intros Hin. apply not_true_iff_false in Hbox.
    destruct Hbox. repeat (apply andb_true_intro; split); lia.
Qed.

Lemma resize_sprite_canvas_witness :
  let out := resize_sprite flat_resample wide_sprite 5 in
  let new := scaled_size (width wide_sprite) (height wide_sprite) 5 in
  let offset := ((5 - new.1) / 2, (5 - new.2) / 2) in
  height out = 5 ∧ width out = 5 ∧
  Forall (λ row, Z.of_nat (length row) = 5) out ∧
  1 <= new.1 ∧ 1 <= new.2 ∧
  ∀ x y, 0 <= x < 5 → 0 <= y < 5 →
    (in_box offset.1 offset.2 new.1 new.2 x y →
     pixel_at out x y
     = pixel_at (flat_resample wide_sprite new.1 new.2)
         (x - offset.1) (y - offset.2)) ∧
    (¬ in_box offset.1 offset.2 new.1 new.2 x y →
     pixel_at out x y = transparent ∧ alpha (pixel_at out x y) = 0).
Proof.
  apply (resize_sprite_canvas flat_resample wide_sprite 5).
  - compute_done.
  - lia.
  - intros img w h Hw Hh. unfold flat_resample. split.
    + destruct (Z.to_nat h) eqn:E; [lia|]. simpl.
      rewrite length_replicate. lia.
    + unfold height. rewrite length_replicate. lia.
Defined.

(** ** Scenarios of the specification *)

Example nine_cells :
  detect_cells nine_sheet default_config =
  [(0, 0, 100, 100); (104, 0, 100, 100); (208, 0, 100, 100);
   (0, 104, 100, 100); (104, 104, 100, 100); (208, 104, 100, 100);
   (0, 208, 100, 100); (104, 208, 100, 100); (208, 208, 100, 100)].
Proof. by vm_compute. Qed.

Example grey_210_fillable_not_seed :
  _is_near_white 230 210 210 210 = false
  ∧ _within_tolerance 230 25 210 210 210 = true.
Proof. done. Qed.

Example lone_sprite_fallback :
  _detect_separator_lines lone_sheet default_config = None
  ∧ _detect_white_gaps lone_sheet default_config = None
  ∧ detect_cells lone_sheet default_config = [(0, 0, 60, 60)].
Proof. by vm_compute. Qed.

Example ring_cell_centre_kept :
  background_mask ring_cell default_config =
  Some [[true; true; true; true; true];
        [true; false; false; false; true];
        [true; false; false; false; true];
        [true; false; false; false; true];
        [true; true; true; true; true]].
Proof. by vm_compute. Qed.

(** Background removal on [square_cell] leaves exactly the 400 pixels of
    the square visible. *)
Example square_cell_background_removed :
  visible_pixels <$> remove_background square_cell default_config = Some 400
  ∧ (λ out, alpha (pixel_at out 50 50))
      <$> remove_background square_cell default_config = Some 255
  ∧ (λ out, alpha (pixel_at out 10 10))
      <$> remove_background square_cell default_config = Some 0.
Proof. by vm_compute. Qed.

(** Binary64 rounding is visible in [resize_sprite]: [2 / 98] rounds down,
    [98 * (2 / 98)] is just below 2, and a 98x98 sprite resized to side 2
    is scaled to 1x1. *)
Example scaled_size_rounding : scaled_size 98 98 2 = (1, 1).
Proof. by vm_compute. Qed.

Example scaled_size_identity : scaled_size 512 512 512 = (512, 512).
Proof. by vm_compute. Qed.

(** * Further properties of the code *)

(** ** Flood fill: the mask is exactly the region grown from the seeds *)

Lemma fold_left_establishes {A B} (Inv : A → Prop) (P : B → A → Prop)
    (f : A → B → A) l a :
  Inv a →
  (∀ a b, b ∈ l → Inv a → Inv (f a b)) →
  (∀ a b, b ∈ l → Inv a → P b (f a b)) →
  (∀ a b b', b' ∈ l → Inv a → P b a → P b (f a b')) →
  ∀ b, b ∈ l → P b (fold_left f l a).
Proof.
  revert a. induction l as [|x l IH]; intros a Ha Hinv Hest Hmono b Hb.
  - by apply elem_of_nil in Hb.
  - simpl. apply elem_of_cons in Hb as [->|Hb].
    + apply (fold_left_preserves (λ s, Inv s ∧ P x s)).
      * split; [apply Hinv; [left|done]|apply Hest; [left|done]].
      * intros s b' Hb' [Hs Hp]. split; [apply Hinv; [by right|done]|].
        apply Hmono; [by right|done..].
    + apply IH; [apply Hinv; [left|done]|..]; auto.
      * intros. apply Hinv; [by right|done].
      * intros. apply Hest; [by right|done].
      * intros. apply Hmono; [by right|done..].
Qed.

Lemma adjacent_direction x y x' y' :
  adjacent x y x' y' ↔ ∃ d : Z * Z, d ∈ directions ∧ x' = x + d.1 ∧ y' = y + d.2.
Proof.
  unfold adjacent, directions. split.
  - intros [[-> ->]|[[-> ->]|[[-> ->]|[-> ->]]]].
    + exists (-1, 0). split; [repeat constructor|simpl; lia].
    + exists (1, 0). split; [repeat constructor|simpl; lia].
    + exists (0, -1). split; [repeat constructor|simpl; lia].
    + exists (0, 1). split; [repeat constructor|simpl; lia].
  - intros (d & Hd & -> & ->).
    repeat (apply elem_of_cons in Hd as [->|Hd]); simpl; [lia..|].
    by apply elem_of_nil in Hd.
Qed.

Lemma adjacent_sym x y x' y' : adjacent x y x' y' → adjacent x' y' x y.
Proof. unfold adjacent. lia. Qed.

(** Every near-white border pixel is collected as a seed. *)
Lemma collect_seeds_complete arr threshold x y :
  on_border arr x y → near_white_at arr threshold x y = true →
  (x, y) ∈ collect_seeds arr threshold (height arr) (width arr).
Proof.
  intros [[Hx Hy] Hedge] Hnw. unfold collect_seeds.
  apply elem_of_app.
  destruct (decide (y = 0 ∨ y = height arr - 1)) as [Hrow|Hrow].
  - left. apply elem_of_flat_map. exists x. split; [apply elem_of_range; lia|].
    apply elem_of_flat_map. exists y. split.
    + destruct Hrow as [->| ->]; repeat constructor.
    + rewrite Hnw. left.
  - right. apply elem_of_flat_map. exists y.
    split; [apply elem_of_range; lia|].
    apply elem_of_flat_map. exists x. split.
    + assert (x = 0 ∨ x = width arr - 1) as [->| ->] by lia;
        repeat constructor.
    + rewrite Hnw. left.
Qed.

Lemma mask_get_set h w m y x v y' x' :
  mask_shape h w m → 0 <= x < w → 0 <= y < h → 0 <= x' → 0 <= y' →
  mask_get (mask_set m y x v) y' x'
  = if decide ((x, y) = (x', y')) then v else mask_get m y' x'.
Proof.
  intros Hm Hx Hy Hx' Hy'. case_decide as Heq.
  - simplify_eq. by eapply mask_get_set_eq.
  - apply mask_get_set_ne; [lia..|done].
Qed.

Section flood_fill_exact.
Variables (arr : PixelGrid) (cfg : Config).
Hypothesis height_pos : 1 <= height arr.
Hypothesis width_pos : 1 <= width arr.

Let h := height arr.
Let w := width arr.
Let threshold := white_threshold cfg.
Let tolerance := flood_fill_tolerance cfg.
Let seeds := collect_seeds arr threshold h w.

Lemma mark_seed_marked st s :
  s ∈ seeds → seeds_marked arr seeds st →
  seeds_marked arr seeds (mark_seed arr threshold st s).
Proof.
  destruct s as [sx sy]. intros Hs ([Hv Hb] & Hvm & Hin).
  pose proof Hs as Hs'.
  apply collect_seeds_spec in Hs' as [[[Hx Hy] _] Hnw]; [|done..].
  unfold mark_seed. simpl. rewrite Hnw. simpl.
  destruct (mask_get (visited st) sy sx); [done|].
  split; [split; simpl; auto using mask_set_shape|]. split; simpl.
  - intros x y [Hx' Hy'].
    rewrite !(mask_get_set h w) by (done || lia).
    case_decide; [done|]. by apply Hvm.
  - intros x y [Hx' Hy'].
    rewrite !(mask_get_set h w) by (done || lia).
    case_decide; [by simplify_eq|]. by apply Hin.
Qed.

Lemma seeds_all_marked :
  let st := fold_left (mark_seed arr threshold) seeds
              (mkFill (zeros h w) (zeros h w) []) in
  seeds_marked arr seeds st ∧ queue st = [] ∧
  ∀ s, s ∈ seeds → mask_get (bg_mask st) s.2 s.1 = true.
Proof.
  assert (seeds_marked arr seeds (mkFill (zeros h w) (zeros h w) [])) as H0.
  { split; [split; apply zeros_shape|]. split; simpl.
    - intros x y _. by rewrite !mask_get_zeros.
    - intros x y _. by rewrite mask_get_zeros. }
  split; [|split].
  - apply (fold_left_preserves (seeds_marked arr seeds)); [done|].
    intros st s Hs Hst. by apply mark_seed_marked.
  - apply (fold_left_preserves (λ st, queue st = [])); [done|].
    intros st s _ Hq. unfold mark_seed. by repeat case_match.
  - apply (fold_left_establishes (seeds_marked arr seeds)
             (λ s st, mask_get (bg_mask st) s.2 s.1 = true)); [done|..].
    + intros st s Hs Hst. by apply mark_seed_marked.
    + intros st [sx sy] Hs ([Hv Hb] & Hvm & _).
      apply collect_seeds_spec in Hs as [[[Hx Hy] _] Hnw]; [|done..].
      unfold mark_seed. simpl. rewrite Hnw. simpl.
      destruct (mask_get (visited st) sy sx) eqn:Hvis.
      * by apply Hvm.
      * simpl. by apply (mask_get_set_eq h w).
    + intros st s s' _ _ Hmask. unfold mark_seed.
      repeat case_match; simpl; auto using mask_get_set_mono.
Qed.

Lemma seeded_state_progress : fill_progress arr cfg [] (seeded_state arr cfg).
Proof.
  destruct seeds_all_marked as ((Hsh & Hvm & Hin) & Hq & Hall).
  unfold seeded_state. fold h w threshold seeds.
  set (st := fold_left _ _ _) in *.
  split; [done|]. simpl. split; [|split; [|split; [|split]]].
  - intros x y Hxy Hm. split; [by apply Hvm|].
    apply Hin in Hm; [|done].
    apply collect_seeds_spec in Hm as [? ?]; [|done..].
    by apply seed_path_seed.
  - intros x y Hxy Hvis _. by apply Hvm.
  - intros x y Hb Hnw.
    apply (Hall (x, y)). by apply collect_seeds_complete.
  - intros [cx cy] Hc. apply list_elem_of_filter in Hc as [Hm Hc].
    apply collect_seeds_spec in Hc as [[? _] _]; done.
  - intros x y Hxy Hmask. right. left.
    apply list_elem_of_filter. split; [done|]. by apply Hin.
Qed.

Lemma visit_neighbour_progress cx cy st d :
  d ∈ directions →
  fill_progress arr cfg [(cx, cy)] st →
  fill_progress arr cfg [(cx, cy)]
    (visit_neighbour arr threshold tolerance h w cx cy st d).
Proof.
  intros Hd (Hsh & Hmask & Hvis & Hseeds & Hq & Hclosed).
  pose proof (visit_neighbour_shaped arr threshold tolerance h w cx cy st d Hsh)
    as Hsh'.
  unfold visit_neighbour in *.
  destruct (_ && negb _) eqn:Hguard; [|done].
  split_andb Hguard.
  set (nx := cx + d.1) in *. set (ny := cy + d.2) in *.
  assert (in_bounds arr nx ny) as Hn by (unfold in_bounds; fold h w; lia).
  destruct Hsh as [Hv Hb].
  destruct (Hq (cx, cy)) as [Hc Hcm]; [left|]. simpl in Hc, Hcm.
  assert (∀ x y, in_bounds arr x y → 0 <= x ∧ 0 <= y) as Hpos
    by (unfold in_bounds; lia).
  destruct Hn as [Hnx Hny]. fold h w in Hnx, Hny.
  destruct (within_tolerance_at _ _ _ _ _) eqn:Htol.
  - split; [done|]. simpl. split; [|split; [|split; [|split]]].
    + intros x y Hxy Hm. destruct (Hpos x y Hxy).
      rewrite (mask_get_set h w) in Hm by done.
      rewrite (mask_get_set h w) by done.
      case_decide as Heq; [|by apply Hmask].
      simplify_eq. split; [done|].
      apply seed_path_step with cx cy; [by apply Hmask| |done].
      apply adjacent_direction. by exists d.
    + intros x y Hxy Hvis' Htol'. destruct (Hpos x y Hxy).
      rewrite (mask_get_set h w) in Hvis' by done.
      rewrite (mask_get_set h w) by done.
      case_decide; [done|]. by apply Hvis.
    + intros x y Hbord Hnw. apply mask_get_set_mono. by apply Hseeds.
    + intros c Hin. simpl in Hin.
      rewrite elem_of_cons, elem_of_app, list_elem_of_singleton in Hin.
      destruct Hin as [->|[Hin| ->]]; simpl.
      * auto using mask_get_set_mono.
      * destruct (Hq c) as [? ?]; [apply elem_of_app; by right|].
        auto using mask_get_set_mono.
      * split; [done|]. by apply (mask_get_set_eq h w).
    + intros x y Hxy Hmask'. destruct (Hpos x y Hxy).
      rewrite (mask_get_set h w) in Hmask' by done.
      case_decide as Heq.
      * simplify_eq. right. left. apply elem_of_app. right. left.
      * destruct (Hclosed x y) as [?|[?|Hnv]]; [done..|by left| |].
        -- right. left. apply elem_of_app. by left.
        -- right. right. intros d' Hd' ??. apply mask_get_set_mono.
           by apply Hnv.
  - split; [done|]. simpl. split; [|split; [|split; [|split]]].
    + intros x y Hxy Hm. destruct (Hmask x y Hxy Hm).
      auto using mask_get_set_mono.
    + intros x y Hxy Hvis' Htol'. destruct (Hpos x y Hxy).
      rewrite (mask_get_set h w) in Hvis' by done.
      case_decide as Heq; [|by apply Hvis].
      injection Heq as <- <-. unfold threshold, tolerance in Htol. congruence.
    + done.
    + done.
    + intros x y Hxy Hmask'.
      destruct (Hclosed x y) as [?|[?|Hnv]]; [done..|by left|by right; left|].
      right. right. intros d' Hd' ??. apply mask_get_set_mono. by apply Hnv.
Qed.
End flood_fill_exact.

Section flood_fill_closed.
Variables (arr : PixelGrid) (cfg : Config).
Hypothesis height_pos : 1 <= height arr.
Hypothesis width_pos : 1 <= width arr.

Let h := height arr.
Let w := width arr.
Let threshold := white_threshold cfg.
Let tolerance := flood_fill_tolerance cfg.

Lemma visit_neighbours_visited cx cy st :
  fill_progress arr cfg [(cx, cy)] st →
  let st' := fold_left (visit_neighbour arr threshold tolerance h w cx cy)
               directions st in
  fill_progress arr cfg [(cx, cy)] st' ∧ neighbours_visited h w st' cx cy.
Proof.
  intros Hst st'. split.
  - apply (fold_left_preserves (fill_progress arr cfg [(cx, cy)])); [done|].
    intros s d Hd Hs. by apply visit_neighbour_progress.
  - intros d Hd. revert d Hd.
    apply (fold_left_establishes (fill_progress arr cfg [(cx, cy)])
             (λ d s, 0 <= cx + d.1 < w → 0 <= cy + d.2 < h →
                     mask_get (visited s) (cy + d.2) (cx + d.1) = true));
      [done|..].
    + intros s d Hd Hs. by apply visit_neighbour_progress.
    + intros s d Hd ([Hv _] & _) Hx Hy. unfold visit_neighbour.
      destruct (_ && negb _) eqn:Hguard.
      * case_match; simpl; by apply (mask_get_set_eq h w).
      * destruct (mask_get (visited s) (cy + d.2) (cx + d.1)); [done|].
        apply andb_false_iff in Hguard as [Hguard|Hguard]; [|done].
        exfalso. repeat (apply andb_false_iff in Hguard as [Hguard|Hguard]);
          lia.
    + intros s d d' _ _ Hvis Hx Hy. unfold visit_neighbour.
      repeat case_match; simpl; auto using mask_get_set_mono.
Qed.

Lemma expand_progress st cx cy rest :
  queue st = (cx, cy) :: rest →
  fill_progress arr cfg [] st →
  fill_progress arr cfg []
    (fold_left (visit_neighbour arr threshold tolerance h w cx cy) directions
       (mkFill (visited st) (bg_mask st) rest)).
Proof.
  intros Hqueue (Hsh & Hmask & Hvis & Hseeds & Hq & Hclosed).
  rewrite Hqueue in *.
  destruct (visit_neighbours_visited cx cy
              (mkFill (visited st) (bg_mask st) rest))
    as [(Hsh' & Hmask' & Hvis' & Hseeds' & Hq' & Hclosed') Hnv].
  { split; [done|]. simpl. repeat (split; [done|]).
    intros x y Hxy Hm. destruct (Hclosed x y Hxy Hm) as [Hin|[Hin|?]]; auto.
    - by apply elem_of_nil in Hin.
    - apply elem_of_cons in Hin as [->|?]; auto. left. left. }
  split; [done|]. repeat (split; [done|]). split.
  - intros c Hc. apply Hq'. apply elem_of_app. by right.
  - intros x y Hxy Hm. destruct (Hclosed' x y Hxy Hm) as [Hin|[?|?]]; auto.
    apply list_elem_of_singleton in Hin. simplify_eq. auto.
Qed.

Lemma flood_fill_progress fuel st st' :
  fill_progress arr cfg [] st →
  flood_fill fuel arr threshold tolerance h w st = Some st' →
  fill_progress arr cfg [] st' ∧ queue st' = [].
Proof.
  revert st. induction fuel as [|fuel IH]; intros st Hst Hrun.
  - destruct (queue st) eqn:Hq; simpl in Hrun; rewrite Hq in Hrun;
      by simplify_eq.
  - destruct (queue st) as [|[cx cy] rest] eqn:Hqueue.
    { rewrite flood_fill_done in Hrun by done. by simplify_eq. }
    rewrite (flood_fill_step _ _ _ _ _ _ _ (cx, cy) rest) in Hrun by done.
    apply IH in Hrun; [done|]. by apply expand_progress.
Qed.

Lemma seed_path_in_bounds x y : seed_path arr cfg x y → in_bounds arr x y.
Proof. intros [? ? [? _] _|? ? ? ? _ _ [? _]]; done. Qed.

Lemma background_mask_seed_path m x y :
  background_mask arr cfg = Some m → in_bounds arr x y →
  mask_get m y x = true ↔ seed_path arr cfg x y.
Proof.
  unfold background_mask. intros Hm Hxy.
  destruct (flood_fill _ _ _ _ _ _ _) as [st'|] eqn:Hrun; simplify_eq/=.
  apply flood_fill_progress in Hrun
    as [(Hsh & Hmask & Hvis & Hseeds & Hq & Hclosed) Hempty];
    [|by apply seeded_state_progress].
  split; [intros Hget; by apply Hmask|].
  clear Hxy. induction 1 as [x y Hb Hnw|x y x' y' Hpath IH Hadj [Hxy Htol]].
  - by apply Hseeds.
  - apply Hvis; [done| |done].
    pose proof (seed_path_in_bounds _ _ Hpath) as Hxy'.
    destruct (Hclosed x' y' Hxy' IH) as [Hin|[Hin|Hnv]].
    + by apply elem_of_nil in Hin.
    + rewrite Hempty in Hin. by apply elem_of_nil in Hin.
    + apply adjacent_direction in Hadj as (d & Hd & -> & ->).
      destruct Hxy. by apply Hnv.
Qed.
End flood_fill_closed.

(** X1. For a valid cell the flood fill of [remove_background] finishes,
    and its mask is exactly the region grown from the seeds: a pixel of the
    cell is masked if and only if it is reached from a near-white border
    pixel by 4-connected steps through pixels within the tolerance. *)
Theorem background_mask_exact arr cfg :
  valid_grid arr →
  ∃ m, background_mask arr cfg = Some m ∧
       ∀ x y, in_bounds arr x y →
              (mask_get m y x = true ↔ seed_path arr cfg x y).
Proof.
  intros (Hh & Hw & _).
  destruct (background_mask_total arr cfg) as (m & Hm & _).
  exists m. split; [done|]. intros x y Hxy.
  by apply background_mask_seed_path.
Qed.

Lemma background_mask_exact_witness :
  ∃ m, background_mask ring_cell default_config = Some m ∧
       ∀ x y, in_bounds ring_cell x y →
              (mask_get m y x = true ↔ seed_path ring_cell default_config x y).
Proof.
  apply (background_mask_exact ring_cell default_config). compute_done.
Defined.

(** ** Cells without seeds, blank cells *)

Lemma valid_grid_lookup arr i j row p :
  valid_grid arr → arr !! i = Some row → row !! j = Some p →
  in_bounds arr (Z.of_nat j) (Z.of_nat i)
  ∧ pixel_at arr (Z.of_nat j) (Z.of_nat i) = p.
Proof.
  intros (_ & _ & Hrows) Hrow Hp.
  rewrite Forall_lookup in Hrows. destruct (Hrows i row Hrow) as [Hlen _].
  apply lookup_lt_Some in Hrow as Hi. apply lookup_lt_Some in Hp as Hj.
  split; [unfold in_bounds, height; lia|].
  unfold pixel_at. rewrite !Nat2Z.id, Hrow. simpl. by rewrite Hp.
Qed.

Lemma apply_mask_unmasked arr m :
  valid_grid arr →
  (∀ x y, in_bounds arr x y → mask_get m y x = false) →
  apply_mask arr m = arr.
Proof.
  intros Hvalid Hm. unfold apply_mask. apply list_eq. intros i.
  rewrite list_lookup_imap.
  destruct (arr !! i) as [row|] eqn:Hrow; simpl; [|done]. f_equal.
  apply list_eq. intros j. rewrite list_lookup_imap.
  destruct (row !! j) as [p|] eqn:Hp; simpl; [|done].
  destruct (valid_grid_lookup arr i j row p) as [Hxy _]; [done..|].
  by rewrite Hm.
Qed.

Lemma visible_pixels_none g :
  valid_grid g →
  (∀ x y, in_bounds g x y → alpha (pixel_at g x y) = 0) →
  visible_pixels g = 0.
Proof.
  intros Hvalid Hzero. unfold visible_pixels.
  assert (Forall (λ row : list Pixel, Forall (λ p, alpha p = 0) row) g) as Hall.
  { apply Forall_lookup. intros i row Hrow.
    apply Forall_lookup. intros j p Hp.
    destruct (valid_grid_lookup g i j row p) as [Hxy <-]; [done..|].
    by apply Hzero. }
  clear -Hall. induction Hall as [|row g Hrow _ IH]; [done|].
  cbn [map sum_list].
  replace (length (filter (λ p, 0 < alpha p) row)) with 0%nat; [done|].
  symmetry. clear -Hrow. induction Hrow as [|p row Hp _ IH]; [done|].
  rewrite filter_cons. case_decide; [lia|done].
Qed.

(** X2. A valid cell none of whose border pixels is near-white is
    returned unchanged by [remove_background]. *)
Theorem remove_background_no_seed arr cfg :
  valid_grid arr →
  (∀ x y, on_border arr x y →
          near_white_at arr (white_threshold cfg) x y = false) →
  remove_background arr cfg = Some arr.
Proof.
  intros Hvalid Hdark.
  destruct (background_mask_total arr cfg) as (m & Hm & _).
  assert (∀ x y, in_bounds arr x y →
            (mask_get m y x = true ↔ seed_path arr cfg x y)) as Hexact.
  { destruct Hvalid as (? & ? & _). intros x y Hxy.
    by apply background_mask_seed_path. }
  unfold remove_background. rewrite Hm. simpl. f_equal.
  apply apply_mask_unmasked; [done|]. intros x y Hxy.
  destruct (mask_get m y x) eqn:Hget; [|done].
  apply Hexact in Hget; [|done]. exfalso. clear Hxy.
  induction Hget as [x y Hb Hnw|]; [|done]. rewrite Hdark in Hnw; done.
Qed.

Lemma remove_background_no_seed_witness :
  remove_background dark_border_cell default_config = Some dark_border_cell.
Proof.
  apply (remove_background_no_seed dark_border_cell default_config).
  - compute_done.
  - intros x y [[Hx Hy] Hedge].
    change (width dark_border_cell) with 3 in *.
    change (height dark_border_cell) with 3 in *.
    assert (x = 0 ∨ x = 1 ∨ x = 2) as Hcx by lia.
    assert (y = 0 ∨ y = 1 ∨ y = 2) as Hcy by lia.
    destruct Hcx as [->|[->| ->]], Hcy as [->|[->| ->]]; try done. lia.
Defined.

(** In a cell all of whose pixels are near-white every pixel has a seed
    path: walk along the row from the left border. *)
Lemma all_white_seed_path arr cfg x y :
  0 <= flood_fill_tolerance cfg →
  (∀ x y, in_bounds arr x y →
          near_white_at arr (white_threshold cfg) x y = true) →
  in_bounds arr x y → seed_path arr cfg x y.
Proof.
  intros Htol Hwhite [Hx Hy].
  assert (∀ n : nat, Z.of_nat n < width arr →
                     seed_path arr cfg (Z.of_nat n) y) as Hwalk.
  { induction n as [|n IH]; intros Hn.
    - apply seed_path_seed; [|apply Hwhite]; unfold on_border, in_bounds; lia.
    - apply seed_path_step with (Z.of_nat n) y; [apply IH; lia| |].
      + unfold adjacent. lia.
      + assert (in_bounds arr (Z.of_nat (S n)) y) as Hin
          by (unfold in_bounds; lia).
        split; [done|]. specialize (Hwhite _ _ Hin).
        unfold near_white_at, within_tolerance_at in *.
        by apply near_white_within_tolerance. }
  specialize (Hwalk (Z.to_nat x)). rewrite Z2Nat.id in Hwalk by lia.
  apply Hwalk. lia.
Qed.

Lemma remove_background_all_white arr cfg :
  valid_grid arr → 0 <= flood_fill_tolerance cfg →
  (∀ x y, in_bounds arr x y →
          near_white_at arr (white_threshold cfg) x y = true) →
  ∃ out, remove_background arr cfg = Some out ∧ valid_grid out ∧
         (∀ x y, in_bounds arr x y → alpha (pixel_at out x y) = 0) ∧
         visible_pixels out = 0.
Proof.
  intros Hvalid Htol Hwhite.
  destruct (background_mask_total arr cfg) as (m & Hm & _).
  exists (apply_mask arr m). unfold remove_background. rewrite Hm.
  split; [done|].
  assert (∀ x y, in_bounds arr x y →
                 alpha (pixel_at (apply_mask arr m) x y) = 0) as Hzero.
  { intros x y Hxy. pose proof Hxy as [Hx Hy].
    rewrite pixel_at_apply_mask, !Z2Nat.id by lia.
    replace (mask_get m y x) with true; [done|].
    symmetry. destruct Hvalid as (Hh & Hw & _).
    apply (background_mask_seed_path arr cfg Hh Hw m x y Hm Hxy).
    by apply all_white_seed_path. }
  pose proof (valid_grid_apply_mask arr m Hvalid) as Hvalid'.
  split; [done|]. split; [done|].
  apply visible_pixels_none; [done|]. intros x y [Hx Hy]. apply Hzero.
  rewrite height_apply_mask, width_apply_mask in *. done.
Qed.

(** X3. In a valid cell all of whose pixels are near-white
    [remove_background] makes every pixel transparent; the result has no
    visible pixel, and [crop_sprite] skips it whenever [min_sprite_pixels]
    is at least 1. *)
Theorem remove_background_blank arr cfg :
  valid_grid arr → valid_config cfg →
  (∀ x y, in_bounds arr x y →
          near_white_at arr (white_threshold cfg) x y = true) →
  ∃ out, remove_background arr cfg = Some out ∧
         (∀ x y, in_bounds arr x y → alpha (pixel_at out x y) = 0) ∧
         visible_pixels out = 0 ∧
         (1 <= min_sprite_pixels cfg → crop_sprite out cfg = Returned None).
Proof.
  intros Hvalid (_ & _ & _ & Htol & _) Hwhite.
  destruct (remove_background_all_white arr cfg)
    as (out & Hout & Hvalid' & Hzero & Hvis); [done..|].
  exists out. split; [done|]. split; [done|]. split; [done|]. intros Hmin.
  unfold crop_sprite. rewrite count_nonzero_visible, Hvis by done.
  replace (0 <? min_sprite_pixels cfg) with true; [done|].
  symmetry. apply Z.ltb_lt. lia.
Qed.

Lemma remove_background_blank_witness :
  ∃ out, remove_background blank_cell default_config = Some out ∧
         (∀ x y, in_bounds blank_cell x y → alpha (pixel_at out x y) = 0) ∧
         visible_pixels out = 0 ∧
         (1 <= min_sprite_pixels default_config →
          crop_sprite out default_config = Returned None).
Proof.
  apply (remove_background_blank blank_cell default_config).
  - compute_done.
  - compute_done.
  - intros x y [Hx Hy].
    change (width blank_cell) with 4 in *.
    change (height blank_cell) with 3 in *.
    assert (x = 0 ∨ x = 1 ∨ x = 2 ∨ x = 3) as Hcx by lia.
    assert (y = 0 ∨ y = 1 ∨ y = 2) as Hcy by lia.
    destruct Hcx as [->|[->|[->| ->]]], Hcy as [->|[->| ->]]; done.
Defined.

(** ** Bands are exactly the maximal runs of [True] *)

Lemma covered_snoc bands b j :
  covered (bands ++ [b]) j ↔ covered bands j ∨ b.1 <= j < b.2.
Proof.
  unfold covered. split.
  - intros (b' & Hb' & Hj). apply elem_of_app in Hb' as [?|Hb']; [eauto|].
    apply list_elem_of_singleton in Hb' as ->. by right.
  - intros [(b' & Hb' & Hj)|Hj].
    + exists b'. split; [apply elem_of_app; by left|done].
    + exists b. split; [apply elem_of_app; right; left|done].
Qed.

Lemma true_at_cons (v : bool) mask i j :
  (∃ k : nat, j = i + Z.of_nat k ∧ (v :: mask) !! k = Some true) ↔
  (v = true ∧ j = i) ∨
  (∃ k : nat, j = i + 1 + Z.of_nat k ∧ mask !! k = Some true).
Proof.
  split.
  - intros ([|k] & -> & Hk); simplify_eq/=; [left; split; [done|lia]|].
    right. exists k. split; [lia|done].
  - intros [[-> ->]|(k & -> & Hk)].
    + exists 0%nat. split; [lia|done].
    + exists (S k). split; [lia|done].
Qed.

Lemma true_at_nil i j :
  (∃ k : nat, j = i + Z.of_nat k ∧ @nil bool !! k = Some true) ↔ False.
Proof. split; [by intros (k & _ & ?)|done]. Qed.

Lemma find_bands_loop_covered mask i (in_band : bool) start bands j :
  (in_band = true → start <= i) →
  covered (find_bands_loop mask i in_band start bands) j ↔
  covered bands j ∨ (in_band = true ∧ start <= j < i)
  ∨ (∃ k : nat, j = i + Z.of_nat k ∧ mask !! k = Some true).
Proof.
  revert i in_band start bands.
  induction mask as [|v mask IH]; intros i in_band start bands Hs.
  - simpl. rewrite true_at_nil. destruct in_band.
    + rewrite covered_snoc. simpl. tauto.
    + intuition congruence.
  - cbn [find_bands_loop]. rewrite true_at_cons.
    destruct v, in_band; simpl; rewrite IH; try rewrite covered_snoc; simpl;
      try lia; intuition (try (lia || congruence)).
Qed.

Lemma separated_weaken lo lo' l hi hi' :
  lo' <= lo → hi <= hi' → separated lo l hi → separated lo' l hi'.
Proof.
  revert lo lo'. induction l as [|b l IH]; intros lo lo' Hlo Hhi; simpl.
  - lia.
  - intros (? & ? & Hl). split; [lia|]. split; [done|].
    eapply IH; [| |done]; lia.
Qed.

Lemma separated_snoc lo l s e hi :
  separated lo l s → s < e → e + 1 <= hi → separated lo (l ++ [(s, e)]) hi.
Proof.
  revert lo. induction l as [|b l IH]; intros lo; simpl.
  - lia.
  - intros (? & ? & Hl) ??. auto.
Qed.

Lemma find_bands_loop_separated mask i (in_band : bool) start bands lo :
  separated lo bands (if in_band then start else i) →
  (in_band = true → start < i) →
  separated lo (find_bands_loop mask i in_band start bands)
    (i + Z.of_nat (length mask) + 1).
Proof.
  revert i in_band start bands.
  induction mask as [|v mask IH]; intros i in_band start bands Hb Hs.
  - simpl. rewrite Z.add_0_r. destruct in_band.
    + apply separated_snoc; auto. lia.
    + eapply separated_weaken; [| |done]; lia.
  - cbn [find_bands_loop length].
    replace (i + Z.of_nat (S (length mask)) + 1)
      with (i + 1 + Z.of_nat (length mask) + 1) by lia.
    destruct v, in_band; simpl; apply IH; simpl; try lia; auto.
    all: try (intros _; specialize (Hs eq_refl); lia).
    + apply separated_snoc; auto. lia.
    + eapply separated_weaken; [| |done]; lia.
Qed.

Lemma separated_elem lo l hi b :
  separated lo l hi → b ∈ l → lo <= b.1 ∧ b.1 < b.2 ∧ b.2 + 1 <= hi.
Proof.
  revert lo. induction l as [|b' l IH]; intros lo Hl Hin.
  - by apply elem_of_nil in Hin.
  - destruct Hl as (? & ? & Hl).
    assert (b'.2 + 1 <= hi).
    { clear -Hl. revert Hl. generalize (b'.2 + 1). induction l as [|c l IH];
        simpl; [done|]. intros z (? & ? & Hl). apply IH in Hl. lia. }
    apply elem_of_cons in Hin as [->|Hin]; [lia|].
    destruct (IH _ Hl Hin) as (? & ? & ?). lia.
Qed.

(** Two bands of a separated list are equal or at least one index apart. *)
Lemma separated_apart lo l hi b b' :
  separated lo l hi → b ∈ l → b' ∈ l →
  b = b' ∨ b.2 + 1 <= b'.1 ∨ b'.2 + 1 <= b.1.
Proof.
  revert lo. induction l as [|c l IH]; intros lo Hl Hb Hb'.
  - by apply elem_of_nil in Hb.
  - destruct Hl as (? & ? & Hl).
    apply elem_of_cons in Hb as [->|Hb];
      apply elem_of_cons in Hb' as [->|Hb']; auto.
    + right. left. by eapply separated_elem in Hb' as (? & _).
    + right. right. by eapply separated_elem in Hb as (? & _).
    + by eapply IH.
Qed.

Lemma separated_ordered lo (l : list Band) hi (i j : nat) (b b' : Band) :
  separated lo l hi → (i < j)%nat → l !! i = Some b → l !! j = Some b' →
  b.2 < b'.1.
Proof.
  revert lo i j. induction l as [|c l IH]; intros lo i j Hl Hij Hi Hj; [done|].
  destruct Hl as (? & ? & Hl). destruct j as [|j]; [lia|].
  destruct i as [|i]; simplify_eq/=.
  - apply list_elem_of_lookup_2 in Hj.
    eapply separated_elem in Hj as (? & _); [|done]. lia.
  - apply (IH (c.2 + 1) i j); [done|lia|done..].
Qed.

Lemma find_bands_covered mask j :
  covered (_find_bands mask) j ↔ 0 <= j ∧ mask !! Z.to_nat j = Some true.
Proof.
  unfold _find_bands. rewrite find_bands_loop_covered by done. split.
  - intros [(b & Hb & _)|[[? _]|(k & -> & Hk)]];
      [by apply elem_of_nil in Hb|done|].
    split; [lia|]. by rewrite Z.add_0_l, Nat2Z.id.
  - intros [Hj Hk]. right. right. exists (Z.to_nat j). split; [lia|done].
Qed.

Lemma find_bands_separated mask :
  separated 0 (_find_bands mask) (Z.of_nat (length mask) + 1).
Proof.
  pose proof (find_bands_loop_separated mask 0 false 0 [] 0) as Hsep.
  rewrite Z.add_0_l in Hsep. apply Hsep; [simpl; lia|done].
Qed.

Lemma find_bands_ends mask (b : Band) :
  b ∈ _find_bands mask →
  0 <= b.1 ∧ b.1 < b.2 ∧ b.2 <= Z.of_nat (length mask) ∧
  mask !! Z.to_nat b.2 ≠ Some true ∧
  (b.1 = 0 ∨ mask !! Z.to_nat (b.1 - 1) = Some false).
Proof.
  intros Hb. pose proof (find_bands_separated mask) as Hsep.
  destruct (separated_elem _ _ _ _ Hsep Hb) as (Hlo & Hlt & Hhi).
  split; [done|]. split; [done|]. split; [lia|]. split.
  - intros Hend.
    assert (covered (_find_bands mask) b.2) as (b' & Hb' & Hin)
      by (apply find_bands_covered; split; [lia|done]).
    destruct (separated_apart _ _ _ b b' Hsep) as [->|[?|?]]; [done..| | |];
      lia.
  - destruct (decide (b.1 = 0)) as [|Hne]; [by left|right].
    destruct (mask !! Z.to_nat (b.1 - 1)) as [[]|] eqn:Hprev; [|done|].
    + assert (covered (_find_bands mask) (b.1 - 1)) as (b' & Hb' & Hin)
        by (apply find_bands_covered; split; [lia|done]).
      destruct (separated_apart _ _ _ b b' Hsep) as [->|[?|?]];
        [done..| | |]; lia.
    + apply lookup_ge_None in Hprev. lia.
Qed.

Lemma find_bands_ordered mask (i j : nat) (b b' : Band) :
  (i < j)%nat → _find_bands mask !! i = Some b →
  _find_bands mask !! j = Some b' → b.2 < b'.1.
Proof.
  intros Hij Hi Hj.
  by eapply separated_ordered; [apply find_bands_separated|..].
Qed.

(** X4. [_find_bands] returns exactly the maximal runs of [True]: an
    index lies in a band if and only if the mask is [True] there; every
    band [(start, end)] is non-empty, lies inside the mask, is not followed
    by [True] at [end] and starts at 0 or right after a [False]; and the
    bands come in increasing order with at least one index between two of
    them. *)
Theorem find_bands_exact mask :
  (∀ j, covered (_find_bands mask) j ↔
        0 <= j ∧ mask !! Z.to_nat j = Some true) ∧
  (∀ b : Band, b ∈ _find_bands mask →
     0 <= b.1 ∧ b.1 < b.2 ∧ b.2 <= Z.of_nat (length mask) ∧
     mask !! Z.to_nat b.2 ≠ Some true ∧
     (b.1 = 0 ∨ mask !! Z.to_nat (b.1 - 1) = Some false)) ∧
  (∀ (i j : nat) (b b' : Band),
     (i < j)%nat → _find_bands mask !! i = Some b →
     _find_bands mask !! j = Some b' → b.2 < b'.1).
Proof.
  split; [apply find_bands_covered|].
  split; [apply find_bands_ends|apply find_bands_ordered].
Qed.

(** ** Gap intervals between bands *)

Lemma gaps_between_long bands iv :
  iv ∈ gaps_between bands → 10 < iv.2 - iv.1.
Proof.
  unfold gaps_between. intros Hiv.
  apply elem_of_flat_map in Hiv as (bb & _ & Hiv).
  destruct (_ >? 10) eqn:Hlong; [|by apply elem_of_nil in Hiv].
  apply list_elem_of_singleton in Hiv as ->. simpl. lia.
Qed.

(** X5. For bands in increasing order inside [0, total], the intervals
    [_bands_to_gap_intervals] returns are not empty, are in increasing
    order inside [0, total], are each longer than 10, and share no index
    with any band. *)
Theorem gap_intervals_between_bands bands total intervals :
  chain 0 bands total →
  _bands_to_gap_intervals bands total = Some intervals →
  intervals ≠ [] ∧ chain 0 intervals total ∧
  Forall (λ iv : Z * Z,
    10 < iv.2 - iv.1 ∧ Forall (λ b : Band, apart iv b) bands) intervals.
Proof.
  intros Hb Hivs. split; [|split].
  - unfold _bands_to_gap_intervals in Hivs. destruct bands; [done|].
    destruct (_ ++ _); [done|]. by intros ->.
  - by eapply bands_to_gap_intervals_chain.
  - apply Forall_forall. intros iv Hiv. split.
    + unfold _bands_to_gap_intervals in Hivs.
      destruct bands as [|b bands]; [done|].
      set (final := List.last (b :: bands) b) in *.
      destruct (_ ++ _) as [|i0 ivs] eqn:E; [done|].
      injection Hivs as <-. rewrite <- E in Hiv. clear E.
      apply elem_of_app in Hiv as [Hiv|Hiv];
        [|apply elem_of_app in Hiv as [Hiv|Hiv]].
      * destruct (b.1 >? 10) eqn:Hlead; [|by apply elem_of_nil in Hiv].
        apply list_elem_of_singleton in Hiv as ->. simpl. lia.
      * by eapply gaps_between_long.
      * destruct (final.2 <? total - 10) eqn:Htrail;
          [|by apply elem_of_nil in Hiv].
        apply list_elem_of_singleton in Hiv as ->. simpl. lia.
    + apply Forall_forall. intros b Hbin.
      by eapply bands_to_gap_intervals_apart.
Qed.

Lemma gap_intervals_between_bands_witness :
  [(0, 20); (24, 60); (64, 100)] ≠ [] ∧
  chain 0 [(0, 20); (24, 60); (64, 100)] 100 ∧
  Forall (λ iv : Z * Z,
    10 < iv.2 - iv.1 ∧ Forall (λ b : Band, apart iv b) [(20, 24); (60, 64)])
    [(0, 20); (24, 60); (64, 100)].
Proof.
  apply (gap_intervals_between_bands [(20, 24); (60, 64)] 100).
  - simpl. lia.
  - reflexivity.
Defined.

(** ** Sorting puts a list in order *)

Lemma insert_sorted_ordered {A} (key : A → Z) reverse x l :
  ForallOrdPairs (key_before key reverse) l →
  ForallOrdPairs (key_before key reverse) (insert_sorted key reverse x l).
Proof.
  induction 1 as [|y l Hy Hl IH]; simpl.
  - repeat constructor.
  - destruct (if reverse then _ else _) eqn:Hskip.
    + constructor; [|done].
      rewrite Forall_forall in Hy |- *. intros z Hz.
      rewrite list_elem_of_In, insert_sorted_perm, <- list_elem_of_In in Hz.
      apply elem_of_cons in Hz as [->|Hz]; [|by apply Hy].
      unfold key_before. destruct reverse; lia.
    + assert (key_before key reverse x y) as Hxy
        by (unfold key_before; destruct reverse; lia).
      constructor; [|by constructor].
      constructor; [done|].
      eapply Forall_impl; [done|]. unfold key_before in *. simpl.
      intros z Hz. destruct reverse; lia.
Qed.

Lemma sorted_ordered {A} (key : A → Z) reverse l :
  ForallOrdPairs (key_before key reverse) (sorted key reverse l).
Proof.
  unfold sorted. induction l as [|x l IH]; simpl; [constructor|].
  by apply insert_sorted_ordered.
Qed.

Lemma ordered_pairs_split {A} (R : A → A → Prop) l1 l2 a b :
  ForallOrdPairs R (l1 ++ l2) → a ∈ l1 → b ∈ l2 → R a b.
Proof.
  induction l1 as [|x l1 IH]; intros Hl Ha Hb.
  - by apply elem_of_nil in Ha.
  - simpl in Hl. inversion Hl as [|? ? Hx Hl']; subst.
    apply elem_of_cons in Ha as [->|Ha]; [|by apply IH].
    rewrite Forall_forall in Hx. apply Hx. apply elem_of_app. by right.
Qed.

(** X6. A candidate returned by [_select_best_gaps] consists of one or
    two of the given gaps, ordered by position, and no gap left out is wider
    than a gap of the candidate. *)
Theorem select_best_gaps_widest gaps total candidate :
  _select_best_gaps gaps total = Some candidate →
  (length candidate = 1 ∨ length candidate = 2)%nat ∧
  ForallOrdPairs (λ g g' : Band, g.1 <= g'.1) candidate ∧
  ∃ rest, gaps ≡ₚ candidate ++ rest ∧
    Forall (λ g : Band,
      Forall (λ g' : Band, g'.2 - g'.1 <= g.2 - g.1) rest) candidate.
Proof.
  unfold _select_best_gaps. destruct gaps as [|g0 gaps]; [done|].
  set (sorted_gaps := sorted _ true (g0 :: gaps)).
  assert (∀ n c, (n = 1 ∨ n = 2)%nat → try_gaps sorted_gaps total n = Some c →
    (length c = 1 ∨ length c = 2)%nat ∧
    ForallOrdPairs (λ g g' : Band, g.1 <= g'.1) c ∧
    ∃ rest, g0 :: gaps ≡ₚ c ++ rest ∧
      Forall (λ g : Band,
        Forall (λ g' : Band, g'.2 - g'.1 <= g.2 - g.1) rest) c) as Htry.
  { intros n c Hn Hc. apply try_gaps_Some in Hc as (-> & Hlen & _).
    split; [rewrite sorted_perm, length_take_le by done; lia|].
    split; [apply (sorted_ordered (λ g : Band, g.1) false)|].
    exists (drop n sorted_gaps). split.
    - rewrite sorted_perm, take_drop. symmetry. apply sorted_perm.
    - apply Forall_forall. intros g Hg. apply Forall_forall. intros g' Hg'.
      rewrite list_elem_of_In, sorted_perm, <- list_elem_of_In in Hg.
      apply (ordered_pairs_split
               (key_before (λ g : Band, g.2 - g.1) true)
               (take n sorted_gaps) (drop n sorted_gaps) g g');
        [|done..].
      rewrite take_drop. apply sorted_ordered. }
  destruct (try_gaps sorted_gaps total 2) as [c|] eqn:E2.
  - intros [= <-]. apply (Htry 2%nat); auto.
  - intros E1. apply (Htry 1%nat); auto.
Qed.

Lemma select_best_gaps_widest_witness :
  (length [(40, 60)] = 1%nat ∨ length [(40, 60)] = 2%nat) ∧
  ForallOrdPairs (λ g g' : Band, g.1 <= g'.1) [(40, 60)] ∧
  ∃ rest, [(40, 60); (3, 9)] ≡ₚ [(40, 60)] ++ rest ∧
    Forall (λ g : Band,
      Forall (λ g' : Band, g'.2 - g'.1 <= g.2 - g.1) rest) [(40, 60)].
Proof.
  apply (select_best_gaps_widest [(40, 60); (3, 9)] 100). reflexivity.
Defined.

(** ** Gap bands of a profile *)

Lemma Qtrunc_margin total :
  0 <= total → Qtrunc (inject_Z total * (5 # 100)) = total / 20.
Proof.
  intros Htotal. unfold Qtrunc. simpl.
  rewrite Z.quot_div_nonneg by lia.
  by rewrite <- (Z.div_mul_cancel_r total 20 5) by lia.
Qed.

Lemma ordered_pairs_of_lookup {A} (R : A → A → Prop) (l : list A) :
  (∀ (i j : nat) a b, (i < j)%nat → l !! i = Some a → l !! j = Some b →
                      R a b) →
  ForallOrdPairs R l.
Proof.
  induction l as [|c l IH]; intros Hord; [constructor|]. constructor.
  - apply Forall_lookup. intros j b Hj.
    apply (Hord 0%nat (S j) c b); [lia|done..].
  - apply IH. intros i j a b Hij Hi Hj.
    apply (Hord (S i) (S j) a b); [lia|done..].
Qed.

Lemma ordered_pairs_filter {A} (R : A → A → Prop) (P : A → Prop)
    `{!∀ a, Decision (P a)} (l : list A) :
  ForallOrdPairs R l → ForallOrdPairs R (filter P l).
Proof.
  induction 1 as [|c l Hc Hl IH]; [constructor|].
  rewrite filter_cons. destruct (decide (P c)); [|done].
  constructor; [|done]. apply Forall_forall. intros b Hb.
  apply list_elem_of_filter in Hb as [_ Hb].
  rewrite Forall_forall in Hc. by apply Hc.
Qed.

(** X7. Every band returned by [_find_gap_bands] is at least
    [min_width] wide, lies strictly inside the margins [int(total * 0.05)]
    (which is [total / 20] for [total >= 0]), is a non-empty range of
    indices of the profile all of which are below the content threshold,
    and is not followed by an index below the threshold; the bands come in
    increasing order with at least one index between two of them. *)
Theorem find_gap_bands_spec profile content_threshold min_width total :
  let margin := Qtrunc (inject_Z total * (5 # 100)) in
  let gaps := _find_gap_bands profile content_threshold min_width total in
  (0 <= total → margin = total / 20) ∧
  Forall (λ b : Band,
    min_width <= b.2 - b.1 ∧ margin < b.1 ∧ b.2 < total - margin ∧
    0 <= b.1 ∧ b.1 < b.2 ∧ b.2 <= Z.of_nat (length profile) ∧
    (∀ j, b.1 <= j < b.2 →
          ∃ r, profile !! Z.to_nat j = Some r
               ∧ Qltb r content_threshold = true) ∧
    (∀ r, profile !! Z.to_nat b.2 = Some r →
          Qltb r content_threshold = false)) gaps ∧
  ForallOrdPairs (λ b b' : Band, b.2 < b'.1) gaps.
Proof.
  intros margin gaps. split; [apply Qtrunc_margin|].
  set (is_gap := map (λ r, Qltb r content_threshold) profile).
  pose proof (find_bands_covered is_gap) as Hcover.
  pose proof (find_bands_ends is_gap) as Hends.
  pose proof (find_bands_ordered is_gap) as Hord.
  assert (∀ k b, is_gap !! k = Some b ↔
                 ∃ r, profile !! k = Some r ∧ Qltb r content_threshold = b)
    as Hgap.
  { intros k b. unfold is_gap.
    change (map (λ r, Qltb r content_threshold) profile)
      with ((λ r, Qltb r content_threshold) <$> profile).
    rewrite list_lookup_fmap. destruct (profile !! k) as [r|]; simpl.
    - split; [intros [= <-]; eauto|by intros (r' & [= <-] & <-)].
    - split; [done|by intros (r' & ? & _)]. }
  split.
  - apply Forall_forall. intros b Hb. subst gaps. unfold _find_gap_bands in Hb.
    apply list_elem_of_filter in Hb as [(Hwidth & Hleft & Hright) Hb].
    fold is_gap in Hb. fold margin in Hleft, Hright.
    destruct (Hends b Hb) as (Hlo & Hlt & Hhi & Hend & _).
    unfold is_gap in Hhi. rewrite length_map in Hhi.
    repeat (split; [done|]). split.
    + intros j Hj.
      assert (covered (_find_bands is_gap) j) as Hj' by (by exists b).
      apply Hcover in Hj' as [_ Hj']. by apply Hgap.
    + intros r Hr. destruct (Qltb r content_threshold) eqn:Hlow; [|done].
      destruct Hend. apply Hgap. eauto.
  - subst gaps. unfold _find_gap_bands. fold is_gap.
    apply ordered_pairs_filter. by apply ordered_pairs_of_lookup.
Qed.

(** ** Order, number and coverage of the cells *)

Lemma cells_of_intervals_row_major lo hs hi lo' vs hi' :
  chain lo hs hi → chain lo' vs hi' →
  row_major (cells_of_intervals hs vs).
Proof.
  intros Hhs Hvs i j r r' Hij Hi Hj.
  apply (ordered_pairs_lookup rect_before (cells_of_intervals hs vs) i j);
    [|done..].
  unfold cells_of_intervals.
  apply ordered_pairs_flat_map with (S := λ a b : Z * Z, a.2 <= b.1).
  - by eapply chain_ordered_pairs.
  - intros h_i _.
    apply ordered_pairs_flat_map with (S := λ a b : Z * Z, a.2 <= b.1).
    + by eapply chain_ordered_pairs.
    + intros v_i _. destruct (_ && _); repeat constructor.
    + intros v_i v_i' c c' Hle Hc Hc'.
      guarded_singleton Hc. guarded_singleton Hc'. subst c c'.
      right. simpl. lia.
  - intros h_i h_i' c c' Hle Hc Hc'.
    apply elem_of_flat_map in Hc as (v_i & _ & Hc).
    apply elem_of_flat_map in Hc' as (v_i' & _ & Hc').
    guarded_singleton Hc. guarded_singleton Hc'. subst c c'.
    left. simpl. lia.
Qed.

(** X8. The rectangles of [detect_cells] are in row-major order: of two
    rectangles the earlier one lies in a row of cells above the later one,
    or in the same row of cells and to its left. *)
Theorem detect_cells_row_major img cfg : row_major (detect_cells img cfg).
Proof.
  destruct (detect_cells_cases img cfg)
    as [[_ (hs & vs & Hhs & Hvs & ->)]|(_ & _ & ->)].
  - by eapply cells_of_intervals_row_major.
  - intros [|i] [|j] r r' Hij Hi Hj; simplify_eq/=. lia.
Qed.


Lemma length_consecutive {A} (l : list A) :
  length (consecutive l) = (length l - 1)%nat.
Proof.
  induction l as [|a [|b l] IH]; [done..|].
  rewrite consecutive_cons_cons. simpl in *. lia.
Qed.

Lemma length_flat_map_le {A B} (f : A → list B) (l : list A) (k : nat) :
  (∀ a, length (f a) <= k)%nat → (length (flat_map f l) <= length l * k)%nat.
Proof.
  intros Hf. induction l as [|a l IH]; [done|].
  cbn [flat_map]. rewrite length_app. specialize (Hf a). simpl. lia.
Qed.

Lemma length_cells_of_intervals hs vs :
  (length (cells_of_intervals hs vs) <= length hs * length vs)%nat.
Proof.
  unfold cells_of_intervals. apply length_flat_map_le. intros h_i.
  etrans; [apply (length_flat_map_le _ _ 1)|lia].
  intros v_i. destruct (_ && _); simpl; lia.
Qed.

Lemma length_gaps_to_splits gaps total :
  (length (_gaps_to_splits (_select_best_gaps gaps total) total) <= 4)%nat.
Proof.
  destruct (_select_best_gaps gaps total) as [c|] eqn:E; [|simpl; lia].
  apply select_best_gaps_Some in E as (_ & Hlen & _).
  destruct c as [|g c]; [simpl; lia|].
  cbn [_gaps_to_splits]. rewrite !length_app, length_map. simpl in *. lia.
Qed.

(** What the white-gap strategy returns, in terms of the split points of
    the two axes. *)
Lemma detect_white_gaps_splits img cfg cells :
  _detect_white_gaps img cfg = Some cells →
  (1 < length cells)%nat ∧
  ∃ h_gaps v_gaps,
    cells = _build_cells
      (_gaps_to_splits (_select_best_gaps h_gaps (height img)) (height img))
      (_gaps_to_splits (_select_best_gaps v_gaps (width img)) (width img)).
Proof.
  unfold _detect_white_gaps.
  destruct (white_gap_bands img cfg) as [h_gaps v_gaps].
  set (h_selected := _select_best_gaps h_gaps (height img)).
  set (v_selected := _select_best_gaps v_gaps (width img)).
  intros Hcells.
  assert ((if (1 <? length (_build_cells
                              (_gaps_to_splits h_selected (height img))
                              (_gaps_to_splits v_selected (width img))))%nat
           then Some (_build_cells
                        (_gaps_to_splits h_selected (height img))
                        (_gaps_to_splits v_selected (width img)))
           else None) = Some cells) as Hret
    by (destruct h_gaps, v_gaps, h_selected, v_selected; done).
  destruct (1 <? _)%nat eqn:Hlen; [|done]. simplify_eq.
  apply Nat.ltb_lt in Hlen. split; [done|]. by exists h_gaps, v_gaps.
Qed.

(** X9. When the white-gap strategy succeeds it returns between 2 and 9
    cells: at most two gaps are used on each axis. *)
Theorem white_gap_cell_count img cfg cells :
  _detect_white_gaps img cfg = Some cells →
  (2 <= length cells <= 9)%nat.
Proof.
  intros Hcells.
  apply detect_white_gaps_splits in Hcells as (Hlen & hg & vg & ->).
  split; [lia|]. unfold _build_cells.
  etrans; [apply length_cells_of_intervals|].
  rewrite !length_consecutive.
  pose proof (length_gaps_to_splits hg (height img)).
  pose proof (length_gaps_to_splits vg (width img)).
  nia.
Qed.

Lemma white_gap_cell_count_witness :
  ∃ cells, _detect_white_gaps gapped_sheet default_config = Some cells ∧
           (2 <= length cells <= 9)%nat.
Proof.
  exists [(0, 0, 50, 40); (50, 0, 50, 40)]. split; [by vm_compute|].
  apply (white_gap_cell_count gapped_sheet default_config). by vm_compute.
Defined.

Lemma consecutive_covers (l : list Z) a p :
  a <= p < List.last (a :: l) a →
  ∃ s e, (s, e) ∈ consecutive (a :: l) ∧ s <= p < e.
Proof.
  revert a. induction l as [|b l IH]; intros a Hp; [simpl in Hp; lia|].
  rewrite last_cons_cons, (last_cons_default b l a b) in Hp.
  rewrite consecutive_cons_cons.
  destruct (decide (p < b)).
  - exists a, b. split; [left|lia].
  - destruct (IH b) as (s & e & Hin & Hse); [lia|].
    exists s, e. split; [by right|done].
Qed.

Lemma select_best_gaps_segments gaps total a b :
  0 <= total →
  (a, b) ∈ consecutive (_gaps_to_splits (_select_best_gaps gaps total) total) →
  total <= 4 * (b - a).
Proof.
  intros Htotal Hab.
  destruct (_select_best_gaps gaps total) as [c|] eqn:E.
  - apply select_best_gaps_Some in E as (Hbal & _).
    rewrite splits_are_balanced_spec in Hbal. by apply Hbal.
  - simpl in Hab. apply list_elem_of_singleton in Hab. simplify_eq. lia.
Qed.

Lemma gaps_to_splits_covers gaps total p :
  0 <= p < total →
  ∃ s e, (s, e) ∈ consecutive
                    (_gaps_to_splits (_select_best_gaps gaps total) total)
         ∧ s <= p < e ∧ total <= 4 * (e - s).
Proof.
  intros Hp.
  destruct (gaps_to_splits_ends (_select_best_gaps gaps total) total)
    as [mids Hsplits].
  destruct (consecutive_covers (mids ++ [total]) 0 p) as (s & e & Hin & Hse).
  { assert (List.last (0 :: mids ++ [total]) 0 = total) as ->
      by apply (last_last (0 :: mids)). done. }
  rewrite <- Hsplits in Hin. exists s, e. split; [done|]. split; [done|].
  apply (select_best_gaps_segments gaps total); [lia|done].
Qed.

(** X10. When the white-gap strategy succeeds on an image more than 40
    pixels wide and high, its cells cover the image: every pixel lies in a
    returned rectangle. *)
Theorem white_gap_cells_cover img cfg cells :
  _detect_white_gaps img cfg = Some cells →
  40 < width img → 40 < height img →
  covers img cells.
Proof.
  intros Hcells Hw Hh px py [Hx Hy].
  apply detect_white_gaps_splits in Hcells as (_ & hg & vg & ->).
  destruct (gaps_to_splits_covers hg (height img) py Hy)
    as (y0 & y1 & Hrow & Hpy & Hrows).
  destruct (gaps_to_splits_covers vg (width img) px Hx)
    as (x0 & x1 & Hcol & Hpx & Hcols).
  exists (x0, y0, x1 - x0, y1 - y0). split.
  - unfold _build_cells. apply elem_of_cells_of_intervals.
    exists (y0, y1), (x0, x1). simpl. repeat split; [done..|lia|lia].
  - unfold in_rect. simpl. lia.
Qed.

Lemma white_gap_cells_cover_witness :
  covers tall_gapped_sheet [(0, 0, 50, 50); (50, 0, 50, 50)].
Proof.
  apply (white_gap_cells_cover tall_gapped_sheet default_config).
  - by vm_compute.
  - by vm_compute.
  - by vm_compute.
Defined.

(** ** Split positions from separator bands *)

Lemma mid_between (a b : Z) : a <= b → a <= (a + b) / 2 <= b.
Proof.
  intros Hab. split.
  - apply Z.div_le_lower_bound; lia.
  - apply Z.div_le_upper_bound; lia.
Qed.

Lemma mids_ordered lo (bands : list Band) hi :
  chain lo bands hi →
  ForallOrdPairs Z.le (map (λ b : Band, (b.1 + b.2) / 2) bands) ∧
  Forall (λ m, lo <= m <= hi) (map (λ b : Band, (b.1 + b.2) / 2) bands).
Proof.
  revert lo. induction bands as [|c bands IH]; intros lo Hchain.
  { split; constructor. }
  pose proof Hchain as (Hlo & Hc & Hrest).
  destruct (IH _ Hrest) as [Hord Hin]. pose proof (chain_le _ _ _ Hrest).
  split; simpl.
  - constructor; [|done]. apply Forall_map, Forall_forall. intros b Hb.
    eapply chain_elem in Hb as (? & ? & ?); [|done].
    change ((c.1 + c.2) / 2 <= (b.1 + b.2) / 2).
    pose proof (mid_between c.1 c.2). pose proof (mid_between b.1 b.2). lia.
  - pose proof (mid_between c.1 c.2). constructor; [lia|].
    eapply Forall_impl; [done|]. intros m Hm. cbv beta in Hm. lia.
Qed.

(** X18. For bands in increasing order inside [0, total], the split
    positions [_bands_to_splits] returns are at least three, in
    non-decreasing order and inside [0, total]; they contain the midpoint of
    every band, and each of them is [0], [total] or a position inside a
    band. *)
Theorem bands_to_splits_spec bands total splits :
  chain 0 bands total →
  _bands_to_splits bands total = Some splits →
  (3 <= length splits)%nat ∧
  ForallOrdPairs Z.le splits ∧
  Forall (λ s, 0 <= s <= total) splits ∧
  Forall (λ b : Band, (b.1 + b.2) / 2 ∈ splits) bands ∧
  Forall (λ s, s = 0 ∨ s = total ∨
               ∃ b : Band, b ∈ bands ∧ b.1 <= s <= b.2) splits.
Proof.
  intros Hchain Hrun. unfold _bands_to_splits in Hrun.
  destruct bands as [|b0 bands0] eqn:Hbands; [done|].
  cbv beta iota zeta in Hrun. rewrite <- Hbands in *.
  destruct (mids_ordered 0 bands total Hchain) as [Hord Hin].
  pose proof (chain_le _ _ _ Hchain) as Htotal.
  set (mids := map (λ b : Band, (b.1 + b.2) / 2) bands) in *.
  assert (Forall (λ s, s = 0 ∨ s = total ∨
                       ∃ b : Band, b ∈ bands ∧ b.1 <= s <= b.2) mids)
    as Hmids.
  { apply Forall_map, Forall_forall. intros b Hb. right. right.
    exists b. split; [done|].
    eapply chain_elem in Hb as (? & ? & ?); [|done].
    by apply mid_between. }
  assert (Forall (λ b : Band, (b.1 + b.2) / 2 ∈ mids) bands) as Hall.
  { apply Forall_forall. intros b Hb. apply list_elem_of_fmap. by exists b. }
  assert (∃ pre tail, (pre = [0] ∨ pre = []) ∧ (tail = [total] ∨ tail = []) ∧
            (3 <= length (pre ++ mids ++ tail))%nat ∧
            splits = pre ++ mids ++ tail)
    as (pre & tail & Hpre & Htl & Hlen & Hsplits).
  { destruct (Qltb _ _) in Hrun; destruct (Qltb _ _) in Hrun;
      destruct (3 <=? _)%nat eqn:Hlen in Hrun; try done;
      injection Hrun as <-; apply Nat.leb_le in Hlen.
    - exists [0], [total].
      split; [by left|]. split; [by left|]. split; [exact Hlen|reflexivity].
    - exists [], [total].
      split; [by right|]. split; [by left|]. split; [exact Hlen|reflexivity].
    - exists [0], []. rewrite app_nil_r.
      split; [by left|]. split; [by right|]. split; [exact Hlen|reflexivity].
    - exists [], []. rewrite app_nil_r.
      split; [by right|]. split; [by right|]. split; [exact Hlen|reflexivity]. }
  set (post := pre ++ mids ++ tail) in *. subst splits.
  assert (ForallOrdPairs Z.le post ∧ Forall (λ s, 0 <= s <= total) post ∧
          Forall (λ s, s = 0 ∨ s = total ∨
                       ∃ b : Band, b ∈ bands ∧ b.1 <= s <= b.2) post ∧
          (∀ m, m ∈ mids → m ∈ post)) as (H1 & H2 & H3 & H4).
  { assert (ForallOrdPairs Z.le (mids ++ tail) ∧
            Forall (λ s, 0 <= s <= total) (mids ++ tail)) as Htail.
    { split.
      - apply ordered_pairs_app; [done| |].
        + destruct Htl as [-> | ->]; repeat constructor.
        + intros a b Ha Hb. rewrite Forall_forall in Hin.
          destruct Htl as [-> | ->]; [|by apply elem_of_nil in Hb].
          apply list_elem_of_singleton in Hb as ->. by apply Hin.
      - apply Forall_app. split; [done|].
        destruct Htl as [-> | ->]; repeat constructor; lia. }
    assert (Forall (λ s, s = 0 ∨ s = total ∨
                         ∃ b : Band, b ∈ bands ∧ b.1 <= s <= b.2)
                   (mids ++ tail)) as Htail'.
    { apply Forall_app. split; [done|].
      destruct Htl as [-> | ->]; [|constructor].
      constructor; [by right; left|constructor]. }
    destruct Htail as [Ho Hb].
    unfold post. destruct Hpre as [-> | ->]; simpl.
    - split; [|split; [|split]].
      + constructor; [|done]. eapply Forall_impl; [exact Hb|].
        intros s Hs. cbv beta in Hs. lia.
      + constructor; [lia|done].
      + constructor; [by left|done].
      + intros m Hm. right. apply elem_of_app. by left.
    - split; [done|]. split; [done|]. split; [done|].
      intros m Hm. apply elem_of_app. by left. }
  clearbody post.
  split; [done|]. split; [done|]. split; [done|]. split; [|done].
  eapply Forall_impl; [done|]. simpl. auto.
Qed.

Lemma bands_to_splits_spec_witness :
  ∃ splits,
    _bands_to_splits [(20, 24); (60, 64)] 100 = Some splits ∧
    (3 <= length splits)%nat ∧
    ForallOrdPairs Z.le splits ∧
    Forall (λ s, 0 <= s <= 100) splits ∧
    Forall (λ b : Band, (b.1 + b.2) / 2 ∈ splits) [(20, 24); (60, 64)] ∧
    Forall (λ s, s = 0 ∨ s = 100 ∨
                 ∃ b : Band, b ∈ [(20, 24); (60, 64)] ∧ b.1 <= s <= b.2)
           splits.
Proof.
  exists [0; 22; 62; 100]. split; [reflexivity|].
  apply (bands_to_splits_spec [(20, 24); (60, 64)] 100 [0; 22; 62; 100]).
  - simpl. lia.
  - reflexivity.
Defined.

(** ** Splitting a sheet into cells *)

Lemma pixel_at_crop img left upper right lower g dx dy :
  crop img left upper right lower = Returned g →
  0 <= dx < right - left → 0 <= dy < lower - upper →
  pixel_at g dx dy =
  if (0 <=? left + dx) && (left + dx <? width img)
     && (0 <=? upper + dy) && (upper + dy <? height img)
  then pixel_at img (left + dx) (upper + dy) else transparent.
Proof.
  unfold crop. destruct (_ || _); [done|]. intros [= <-] Hdx Hdy.
  unfold pixel_at at 1.
  change (map ?f ?l) with (f <$> l). rewrite list_lookup_fmap.
  unfold range. rewrite lookup_seqZ_lt by lia. simpl.
  change (map ?f ?l) with (f <$> l). rewrite list_lookup_fmap.
  rewrite lookup_seqZ_lt by lia. simpl.
  by rewrite !Z2Nat.id by lia.
Qed.

Lemma crop_cell_of img r :
  valid_grid img → rect_proper img r →
  ∃ g, crop img r.1.1.1 r.1.1.2 (r.1.1.1 + r.1.2) (r.1.1.2 + r.2) = Returned g
       ∧ cell_of img r g.
Proof.
  intros Himg ((Hx & Hxw & Hy & Hyh) & Hw & Hh).
  destruct (crop_valid img r.1.1.1 r.1.1.2 (r.1.1.1 + r.1.2) (r.1.1.2 + r.2))
    as (g & Hg & Hvalid & Hgw & Hgh); [done|lia..|].
  exists g. split; [done|]. split; [done|].
  split; [lia|]. split; [lia|]. intros dx dy Hdx Hdy.
  rewrite (pixel_at_crop _ _ _ _ _ _ _ _ Hg) by lia.
  replace (_ && _) with true; [done|].
  symmetry. repeat (apply andb_true_intro; split); lia.
Qed.

(** Cropping the whole image returns the image. *)
Lemma crop_whole img :
  valid_grid img → crop img 0 0 (width img) (height img) = Returned img.
Proof.
  intros Himg. pose proof Himg as (Hh & Hw & Hrows).
  unfold crop. replace (_ || _) with false
    by (symmetry; apply orb_false_intro; lia).
  f_equal. apply list_eq. intros i.
  change (map ?f ?l) with (f <$> l). rewrite list_lookup_fmap.
  unfold range. destruct (img !! i) as [row|] eqn:Hrow.
  - apply lookup_lt_Some in Hrow as Hi.
    rewrite lookup_seqZ_lt by (unfold height in *; lia). simpl. f_equal.
    apply list_eq. intros j.
    change (map ?f ?l) with (f <$> l). rewrite list_lookup_fmap.
    rewrite Forall_lookup in Hrows. destruct (Hrows i row Hrow) as [Hlen _].
    destruct (row !! j) as [p|] eqn:Hp.
    + apply lookup_lt_Some in Hp as Hj.
      rewrite lookup_seqZ_lt by lia. simpl.
      replace (_ && _) with true
        by (symmetry; unfold height;
            repeat (apply andb_true_intro; split); lia).
      unfold pixel_at. rewrite !Z.add_0_l, !Nat2Z.id, Hrow. simpl.
      by rewrite Hp.
    + apply lookup_ge_None in Hp.
      rewrite lookup_seqZ_ge by lia. done.
  - apply lookup_ge_None in Hrow.
    rewrite lookup_seqZ_ge by (unfold height; lia). done.
Qed.

Lemma split_cells_proper img cells :
  valid_grid img → Forall (rect_proper img) cells →
  ∃ cell_images,
    split_cells img cells = Returned cell_images ∧
    Forall2 (cell_of img) cells cell_images.
Proof.
  intros Himg Hcells. induction Hcells as [|r cells Hr _ IH].
  - exists []. split; [done|constructor].
  - destruct IH as (rest & Hrest & Hall).
    destruct (crop_cell_of img r Himg Hr) as (g & Hg & Hcell).
    exists (g :: rest). cbn [split_cells]. rewrite Hg. simpl.
    rewrite Hrest. simpl. split; [done|by constructor].
Qed.

Lemma detect_cells_proper img cfg :
  valid_grid img → Forall (rect_proper img) (detect_cells img cfg).
Proof.
  intros (Hh & Hw & _).
  destruct (detect_cells_cases img cfg)
    as [[_ (hs & vs & Hhs & Hvs & ->)]|(_ & _ & ->)].
  - apply Forall_forall. intros r Hr.
    eapply cells_of_intervals_inside in Hr as [? [? ?]]; [|done..].
    split; [done|lia].
  - repeat constructor; simpl; lia.
Qed.

(** X11. For rectangles of positive size inside a valid image
    [split_cells] raises no exception and returns one image per rectangle,
    in the order of the rectangles; the image for [(x, y, w, h)] is a valid
    grid of width [w] and height [h] whose pixel [(dx, dy)] is the pixel
    [(x + dx, y + dy)] of the sheet. *)
Theorem split_cells_inside img cells :
  valid_grid img → Forall (rect_proper img) cells →
  ∃ cell_images,
    split_cells img cells = Returned cell_images ∧
    length cell_images = length cells ∧
    ∀ (i : nat) r, cells !! i = Some r →
      ∃ g, cell_images !! i = Some g ∧ cell_of img r g.
Proof.
  intros Himg Hcells.
  destruct (split_cells_proper img cells Himg Hcells) as (out & Hout & Hall).
  exists out. split; [done|]. split; [symmetry; by eapply Forall2_length|].
  intros i r Hr. by eapply Forall2_lookup_l.
Qed.

Lemma split_cells_inside_witness :
  ∃ cell_images,
    split_cells ring_cell [(0, 0, 2, 2); (2, 1, 3, 4)] = Returned cell_images ∧
    length cell_images = length [(0, 0, 2, 2); (2, 1, 3, 4)] ∧
    ∀ (i : nat) r, [(0, 0, 2, 2); (2, 1, 3, 4)] !! i = Some r →
      ∃ g, cell_images !! i = Some g ∧ cell_of ring_cell r g.
Proof.
  apply (split_cells_inside ring_cell [(0, 0, 2, 2); (2, 1, 3, 4)]).
  - compute_done.
  - apply Forall_cons_2; [|apply Forall_cons_2; [|apply Forall_nil_2]];
      unfold rect_proper, rect_inside;
      change (width ring_cell) with 5; change (height ring_cell) with 5;
      simpl; lia.
Defined.

(** X12. On the rectangles of [detect_cells] for a valid sheet
    [split_cells] raises no exception, and every cell image holds the
    pixels of the sheet under its rectangle; when neither strategy finds a
    grid the only cell image is the sheet itself. *)
Theorem split_detected_cells img cfg :
  valid_grid img →
  ∃ cell_images,
    split_cells img (detect_cells img cfg) = Returned cell_images ∧
    Forall2 (cell_of img) (detect_cells img cfg) cell_images ∧
    (_detect_separator_lines img cfg = None →
     _detect_white_gaps img cfg = None → cell_images = [img]).
Proof.
  intros Himg.
  destruct (split_cells_proper img (detect_cells img cfg) Himg)
    as (out & Hout & Hall); [by apply detect_cells_proper|].
  exists out. split; [done|]. split; [done|]. intros E1 E2.
  unfold detect_cells in Hout. rewrite E1, E2 in Hout.
  cbn [split_cells fst snd] in Hout.
  rewrite !Z.add_0_l, crop_whole in Hout by done. simpl in Hout.
  by injection Hout as <-.
Qed.

Lemma split_detected_cells_witness :
  ∃ cell_images,
    split_cells small_sheet (detect_cells small_sheet default_config)
      = Returned cell_images ∧
    Forall2 (cell_of small_sheet) (detect_cells small_sheet default_config)
      cell_images ∧
    (_detect_separator_lines small_sheet default_config = None →
     _detect_white_gaps small_sheet default_config = None →
     cell_images = [small_sheet]).
Proof.
  apply (split_detected_cells small_sheet default_config). compute_done.
Defined.

(** ** The bounding box of [crop_sprite] *)

Lemma in_bounds_lookup img x y :
  valid_grid img → in_bounds img x y →
  ∃ row p, img !! Z.to_nat y = Some row ∧ row !! Z.to_nat x = Some p
           ∧ pixel_at img x y = p.
Proof.
  intros (_ & _ & Hrows) [Hx Hy]. unfold height in Hy.
  destruct (lookup_lt_is_Some_2 img (Z.to_nat y)) as [row Hrow]; [lia|].
  rewrite Forall_lookup in Hrows. destruct (Hrows _ _ Hrow) as [Hlen _].
  destruct (lookup_lt_is_Some_2 row (Z.to_nat x)) as [p Hp]; [lia|].
  exists row, p. split; [done|]. split; [done|].
  unfold pixel_at. rewrite Hrow. simpl. by rewrite Hp.
Qed.

Lemma first_true_le l k : l !! k = Some true → (first_true l <= k)%nat.
Proof.
  intros Hk. assert (existsb id l = true) as Hex.
  { apply existsb_exists. exists true. split; [|done].
    apply list_elem_of_In. by eapply list_elem_of_lookup_2. }
  destruct (existsb_first_true l Hex) as [_ Hbefore].
  destruct (decide (first_true l <= k)%nat); [done|].
  rewrite Hbefore in Hk by lia. done.
Qed.

Lemma first_true_reverse_le (l : list bool) k :
  l !! k = Some true → (k + first_true (reverse l) < length l)%nat
                       ∧ (k <= length l - 1 - first_true (reverse l))%nat.
Proof.
  intros Hk. apply lookup_lt_Some in Hk as Hlt.
  assert (reverse l !! (length l - 1 - k)%nat = Some true) as Hr.
  { rewrite reverse_lookup by lia. rewrite <- Hk. f_equal. lia. }
  apply first_true_le in Hr. lia.
Qed.

Lemma any_axis1_lookup img i :
  any_axis1 (map (map alpha) img) !! i = Some true ↔
  ∃ row j p, img !! i = Some row ∧ row !! j = Some p ∧ 0 < alpha p.
Proof.
  unfold any_axis1. rewrite map_map.
  change (map ?f ?l) with (f <$> l). rewrite list_lookup_fmap.
  destruct (img !! i) as [row|]; simpl; [|split; [done|by intros (?&?&?&?&?)]].
  split.
  - intros [= Hex]. apply existsb_exists in Hex as (a & Ha & Hpos).
    apply list_elem_of_In, list_elem_of_fmap in Ha as (p & -> & Hp).
    apply list_elem_of_lookup in Hp as [j Hj].
    exists row, j, p. split; [done|]. split; [done|lia].
  - intros (? & j & p & [= <-] & Hp & Hpos). f_equal.
    apply existsb_exists. exists (alpha p). split; [|lia].
    apply list_elem_of_In, list_elem_of_fmap. exists p. split; [done|].
    by eapply list_elem_of_lookup_2.
Qed.

Lemma any_axis0_lookup img w j :
  any_axis0 (map (map alpha) img) w !! j = Some true ↔
  (j < Z.to_nat w)%nat ∧
  ∃ i row p, img !! i = Some row ∧ row !! j = Some p ∧ 0 < alpha p.
Proof.
  unfold any_axis0.
  change (map ?f (seq ?a ?b)) with (f <$> seq a b). rewrite list_lookup_fmap.
  destruct (decide (j < Z.to_nat w)%nat) as [Hj|Hj].
  - rewrite lookup_seq_lt by done. simpl. split.
    + intros [= Hex]. split; [done|].
      apply existsb_exists in Hex as (arow & Ha & Hpos).
      apply list_elem_of_In, list_elem_of_fmap in Ha as (row & -> & Hrow).
      apply list_elem_of_lookup in Hrow as [i Hi].
      change (map alpha row) with (alpha <$> row) in Hpos.
      rewrite list_lookup_fmap in Hpos.
      destruct (row !! j) as [p|] eqn:Hp; simpl in Hpos; [|done].
      exists i, row, p. split; [done|]. split; [done|lia].
    + intros (_ & i & row & p & Hrow & Hp & Hpos). f_equal.
      apply existsb_exists. exists (map alpha row). split.
      * apply list_elem_of_In, list_elem_of_fmap. exists row.
        split; [done|]. by eapply list_elem_of_lookup_2.
      * change (map alpha row) with (alpha <$> row).
        rewrite list_lookup_fmap, Hp. simpl. lia.
  - rewrite lookup_seq_ge by lia. simpl. split; [done|]. by intros [? _].
Qed.

Lemma length_any_axis1 img :
  length (any_axis1 (map (map alpha) img)) = length img.
Proof. unfold any_axis1. by rewrite !length_map. Qed.

Lemma length_any_axis0 img w :
  length (any_axis0 (map (map alpha) img) w) = Z.to_nat w.
Proof. unfold any_axis0. by rewrite length_map, length_seq. Qed.

(** Every visible pixel lies inside the box. *)
Lemma visible_in_box img x y :
  valid_grid img → visible_at img x y →
  first_row img <= y <= last_row img ∧ first_col img <= x <= last_col img.
Proof.
  intros Himg [Hxy Hpos]. pose proof Hxy as [Hx Hy].
  destruct (in_bounds_lookup img x y) as (row & p & Hrow & Hp & Hpix);
    [done..|].
  rewrite Hpix in Hpos.
  assert (any_axis1 (map (map alpha) img) !! Z.to_nat y = Some true) as H1.
  { apply any_axis1_lookup. by exists row, (Z.to_nat x), p. }
  assert (any_axis0 (map (map alpha) img) (width img) !! Z.to_nat x
          = Some true) as H0.
  { apply any_axis0_lookup. split; [lia|]. by exists (Z.to_nat y), row, p. }
  pose proof (first_true_le _ _ H1).
  pose proof (first_true_le _ _ H0).
  apply first_true_reverse_le in H1, H0.
  rewrite length_any_axis1 in H1. rewrite length_any_axis0 in H0.
  unfold first_row, last_row, first_col, last_col, height. lia.
Qed.

(** The box lies inside the image. *)
Lemma box_inside img :
  valid_grid img →
  0 <= first_row img <= last_row img ∧ last_row img < height img ∧
  0 <= first_col img <= last_col img ∧ last_col img < width img.
Proof.
  intros (Hh & Hw & _).
  assert (any_axis1 (map (map alpha) img) ≠ []) as Hne1.
  { intros E. apply (f_equal length) in E.
    rewrite length_any_axis1 in E. unfold height in Hh. simpl in E. lia. }
  assert (any_axis0 (map (map alpha) img) (width img) ≠ []) as Hne0.
  { intros E. apply (f_equal length) in E.
    rewrite length_any_axis0 in E. simpl in E. lia. }
  pose proof (first_true_reverse _ Hne1) as Hy.
  pose proof (first_true_reverse _ Hne0) as Hx.
  rewrite length_any_axis1 in Hy. rewrite length_any_axis0 in Hx.
  unfold first_row, last_row, first_col, last_col, height in *. lia.
Qed.

(** [crop_sprite] on a cell that is not skipped: the crop of the padded
    and clamped box. *)
Lemma crop_sprite_box img cfg :
  valid_grid img →
  ¬ (visible_pixels img < min_sprite_pixels cfg) →
  crop_sprite img cfg =
  (cropped ←! crop img (Z.max 0 (first_col img - padding cfg))
                       (Z.max 0 (first_row img - padding cfg))
                       (Z.min (width img - 1) (last_col img + padding cfg) + 1)
                       (Z.min (height img - 1) (last_row img + padding cfg) + 1);
   Returned (Some cropped)).
Proof.
  intros Himg Hcount. unfold crop_sprite.
  rewrite count_nonzero_visible by done.
  replace (_ <? _) with false by (symmetry; by apply Z.ltb_nlt).
  destruct Himg as (Hh & Hw & _).
  set (alphas := map (map alpha) img).
  assert (any_axis1 alphas ≠ []) as Hne1.
  { intros E. apply (f_equal length) in E. unfold alphas in E.
    rewrite length_any_axis1 in E. unfold height in Hh. simpl in E. lia. }
  assert (any_axis0 alphas (width img) ≠ []) as Hne0.
  { intros E. apply (f_equal length) in E. unfold alphas in E.
    rewrite length_any_axis0 in E. simpl in E. lia. }
  assert (∀ l : list bool, l ≠ [] → reverse l ≠ []) as Hrev.
  { intros l Hl E. apply Hl. apply (f_equal length) in E.
    rewrite length_reverse in E. by destruct l. }
  rewrite !argmax_Returned by auto. cbn [outcome_bind].
  unfold alphas. rewrite length_any_axis1, length_any_axis0.
  unfold first_row, last_row, first_col, last_col, height.
  by rewrite Z2Nat.id by lia.
Qed.

(** X13. With a padding that is not negative, a valid cell with at least
    [min_sprite_pixels] visible pixels is cropped by [crop_sprite] to a
    sub-rectangle of the cell: the result holds the pixels of the cell under
    a rectangle inside the cell, and every visible pixel of the cell lies in
    that rectangle. *)
Theorem crop_sprite_keeps_visible img cfg :
  valid_grid img → 0 <= padding cfg →
  min_sprite_pixels cfg <= visible_pixels img →
  ∃ g x0 y0,
    crop_sprite img cfg = Returned (Some g) ∧
    rect_inside (width img) (height img) (x0, y0, width g, height g) ∧
    cell_of img (x0, y0, width g, height g) g ∧
    ∀ x y, visible_at img x y →
           x0 <= x < x0 + width g ∧ y0 <= y < y0 + height g.
Proof.
  intros Himg Hpad Hcount.
  pose proof (box_inside img Himg) as Hbox.
  set (x0 := Z.max 0 (first_col img - padding cfg)).
  set (y0 := Z.max 0 (first_row img - padding cfg)).
  set (x1 := Z.min (width img - 1) (last_col img + padding cfg) + 1).
  set (y1 := Z.min (height img - 1) (last_row img + padding cfg) + 1).
  destruct (crop_cell_of img (x0, y0, x1 - x0, y1 - y0)) as (g & Hg & Hcell);
    [done|unfold rect_proper, rect_inside; simpl; lia|].
  simpl in Hg. replace (x0 + (x1 - x0)) with x1 in Hg by lia.
  replace (y0 + (y1 - y0)) with y1 in Hg by lia.
  exists g, x0, y0. rewrite crop_sprite_box by (done || lia).
  fold x0 y0 x1 y1. rewrite Hg. simpl.
  destruct Hcell as (Hvalid & Hgw & Hgh & Hpix). simpl in Hgw, Hgh, Hpix.
  split; [done|]. split; [unfold rect_inside; simpl; lia|].
  split.
  - split; [done|]. simpl. split; [done|]. split; [done|].
    intros dx dy Hdx Hdy. apply Hpix; lia.
  - intros x y Hvis. pose proof Hvis as [[Hx Hy] _].
    apply visible_in_box in Hvis; [|done]. lia.
Qed.

Lemma crop_sprite_keeps_visible_witness :
  ∃ g x0 y0,
    crop_sprite dot_cell (mkConfig 230 80 (4 # 5) 1 0 25 2 8)
      = Returned (Some g) ∧
    rect_inside (width dot_cell) (height dot_cell)
                (x0, y0, width g, height g) ∧
    cell_of dot_cell (x0, y0, width g, height g) g ∧
    ∀ x y, visible_at dot_cell x y →
           x0 <= x < x0 + width g ∧ y0 <= y < y0 + height g.
Proof.
  apply (crop_sprite_keeps_visible dot_cell (mkConfig 230 80 (4 # 5) 1 0 25 2 8)).
  - compute_done.
  - compute_done.
  - by vm_compute.
Defined.

Lemma visible_pixels_pos img :
  valid_grid img → 0 < visible_pixels img → ∃ x y, visible_at img x y.
Proof.
  intros Himg Hpos.
  destruct (decide (Forall (λ row : list Pixel,
                      Forall (λ p, ¬ 0 < alpha p) row) img)) as [Hall|Hex].
  - exfalso. unfold visible_pixels in Hpos.
    assert (sum_list (map (λ row : list Pixel,
              length (filter (λ p, 0 < alpha p) row)) img) = 0%nat) as E;
      [|lia].
    clear -Hall. induction Hall as [|row img Hrow _ IH]; [done|].
    cbn [map sum_list]. rewrite IH.
    replace (filter _ row) with (@nil Pixel); [done|].
    symmetry. clear -Hrow. induction Hrow as [|p row Hp _ IH]; [done|].
    rewrite filter_cons. by case_decide.
  - apply not_Forall_Exists in Hex; [|apply _].
    apply Exists_exists in Hex as (row & Hrow & Hex).
    apply not_Forall_Exists in Hex; [|apply _].
    apply Exists_exists in Hex as (p & Hp & Hvis).
    apply list_elem_of_lookup in Hrow as [i Hi].
    apply list_elem_of_lookup in Hp as [j Hj].
    destruct (valid_grid_lookup img i j row p) as [Hxy Hpix]; [done..|].
    exists (Z.of_nat j), (Z.of_nat i). split; [done|]. rewrite Hpix.
    destruct (decide (0 < alpha p)); [done|]. by destruct Hvis.
Qed.

(** The rows and columns at the edge of the box hold a visible pixel. *)
Lemma box_edges_visible img :
  valid_grid img → 0 < visible_pixels img →
  (∃ x, visible_at img x (first_row img)) ∧
  (∃ x, visible_at img x (last_row img)) ∧
  (∃ y, visible_at img (first_col img) y) ∧
  (∃ y, visible_at img (last_col img) y).
Proof.
  intros Himg Hpos. destruct (visible_pixels_pos img) as (x & y & Hvis);
    [done..|].
  pose proof (box_inside img Himg) as Hbox.
  destruct Hvis as [Hxy Hvis]. pose proof Hxy as [Hx Hy].
  destruct (in_bounds_lookup img x y) as (row & p & Hrow & Hp & Hpix);
    [done..|].
  rewrite Hpix in Hvis.
  set (rows := any_axis1 (map (map alpha) img)).
  set (cols := any_axis0 (map (map alpha) img) (width img)).
  assert (existsb id rows = true) as Hrows.
  { apply existsb_exists. exists true. split; [|done].
    apply list_elem_of_In. apply (list_elem_of_lookup_2 _ (Z.to_nat y)).
    apply any_axis1_lookup. by exists row, (Z.to_nat x), p. }
  assert (existsb id cols = true) as Hcols.
  { apply existsb_exists. exists true. split; [|done].
    apply list_elem_of_In. apply (list_elem_of_lookup_2 _ (Z.to_nat x)).
    apply any_axis0_lookup. split; [lia|]. by exists (Z.to_nat y), row, p. }
  assert (∀ i, rows !! i = Some true →
               ∃ x, visible_at img x (Z.of_nat i)) as Hrow_vis.
  { intros i Hi. apply any_axis1_lookup in Hi as (r & j & q & Hr & Hq & Hqpos).
    destruct (valid_grid_lookup img i j r q) as [Hin Hq']; [done..|].
    exists (Z.of_nat j). split; [done|]. by rewrite Hq'. }
  assert (∀ j, cols !! j = Some true →
               ∃ y, visible_at img (Z.of_nat j) y) as Hcol_vis.
  { intros j Hj.
    apply any_axis0_lookup in Hj as (_ & i & r & q & Hr & Hq & Hqpos).
    destruct (valid_grid_lookup img i j r q) as [Hin Hq']; [done..|].
    exists (Z.of_nat i). split; [done|]. by rewrite Hq'. }
  assert (∀ l : list bool, existsb id l = true →
            l !! (length l - 1 - first_true (reverse l))%nat = Some true)
    as Hlast.
  { intros l Hl. pose proof Hl as Hl'. rewrite <- existsb_reverse in Hl'.
    destruct (existsb_first_true _ Hl') as [Hat _].
    apply lookup_lt_Some in Hat as Hlt. rewrite length_reverse in Hlt.
    rewrite reverse_lookup in Hat by done. rewrite <- Hat. f_equal. lia. }
  split; [|split; [|split]].
  - apply Hrow_vis. by apply existsb_first_true.
  - replace (last_row img) with
      (Z.of_nat (length rows - 1 - first_true (reverse rows))).
    + apply Hrow_vis. by apply Hlast.
    + unfold last_row, rows, height in *. rewrite length_any_axis1. lia.
  - apply Hcol_vis. by apply existsb_first_true.
  - replace (last_col img) with
      (Z.of_nat (length cols - 1 - first_true (reverse cols))).
    + apply Hcol_vis. by apply Hlast.
    + unfold last_col, cols in *. rewrite length_any_axis0. lia.
Qed.

(** X14. With [padding = 0] the crop is tight: the first and the last
    row and the first and the last column of the result each contain a
    visible pixel. *)
Theorem crop_sprite_tight img cfg :
  valid_grid img → padding cfg = 0 →
  0 < visible_pixels img → min_sprite_pixels cfg <= visible_pixels img →
  ∃ g, crop_sprite img cfg = Returned (Some g) ∧
       (∃ x, visible_at g x 0) ∧ (∃ x, visible_at g x (height g - 1)) ∧
       (∃ y, visible_at g 0 y) ∧ (∃ y, visible_at g (width g - 1) y).
Proof.
  intros Himg Hpad Hpos Hcount.
  pose proof (box_inside img Himg) as Hbox.
  destruct (box_edges_visible img Himg Hpos)
    as ((xt & Ht) & (xb & Hb) & (yl & Hl) & (yr & Hr)).
  pose proof (visible_in_box img _ _ Himg Ht) as Ht'.
  pose proof (visible_in_box img _ _ Himg Hb) as Hb'.
  pose proof (visible_in_box img _ _ Himg Hl) as Hl'.
  pose proof (visible_in_box img _ _ Himg Hr) as Hr'.
  set (r := (first_col img, first_row img,
             last_col img - first_col img + 1,
             last_row img - first_row img + 1) : Rect).
  destruct (crop_cell_of img r) as (g & Hg & Hcell);
    [done|unfold rect_proper, rect_inside; simpl; lia|].
  simpl in Hg. exists g. rewrite crop_sprite_box by (done || lia).
  rewrite Hpad, !Z.sub_0_r, !Z.add_0_r.
  rewrite !Z.max_r, !Z.min_r by lia.
  replace (last_col img + 1)
    with (first_col img + (last_col img - first_col img + 1)) by lia.
  replace (last_row img + 1)
    with (first_row img + (last_row img - first_row img + 1)) by lia.
  rewrite Hg. simpl. split; [done|].
  destruct Hcell as (Hvalid & Hgw & Hgh & Hpix). simpl in Hgw, Hgh, Hpix.
  assert (∀ x y, visible_at img x y →
            visible_at g (x - first_col img) (y - first_row img)) as Hmove.
  { intros x y Hvis. pose proof (visible_in_box img _ _ Himg Hvis).
    destruct Hvis as [_ Hvis]. split; [unfold in_bounds; lia|].
    rewrite Hpix by lia.
    by replace (first_col img + (x - first_col img)) with x by lia;
       replace (first_row img + (y - first_row img)) with y by lia. }
  split; [|split; [|split]].
  - exists (xt - first_col img). apply Hmove in Ht.
    by rewrite Z.sub_diag in Ht.
  - exists (xb - first_col img). apply Hmove in Hb.
    by replace (height g - 1) with (last_row img - first_row img) by lia.
  - exists (yl - first_row img). apply Hmove in Hl.
    by rewrite Z.sub_diag in Hl.
  - exists (yr - first_row img). apply Hmove in Hr.
    by replace (width g - 1) with (last_col img - first_col img) by lia.
Qed.

Lemma crop_sprite_tight_witness :
  ∃ g, crop_sprite dot_cell (mkConfig 230 80 (4 # 5) 0 0 25 2 8)
         = Returned (Some g) ∧
       (∃ x, visible_at g x 0) ∧ (∃ x, visible_at g x (height g - 1)) ∧
       (∃ y, visible_at g 0 y) ∧ (∃ y, visible_at g (width g - 1) y).
Proof.
  apply (crop_sprite_tight dot_cell (mkConfig 230 80 (4 # 5) 0 0 25 2 8)).
  - compute_done.
  - reflexivity.
  - by vm_compute.
  - by vm_compute.
Defined.

(** X15. A valid cell without a visible pixel is skipped when
    [min_sprite_pixels] is positive, and returned whole, not cropped, when
    it is not. *)
Theorem crop_sprite_transparent img cfg :
  valid_grid img → 0 <= padding cfg → visible_pixels img = 0 →
  crop_sprite img cfg =
  if 0 <? min_sprite_pixels cfg then Returned None else Returned (Some img).
Proof.
  intros Himg Hpad Hzero. destruct (0 <? _) eqn:Hmin.
  - apply Z.ltb_lt in Hmin. unfold crop_sprite.
    rewrite count_nonzero_visible, Hzero by done.
    by replace (_ <? _) with true by (symmetry; apply Z.ltb_lt; lia).
  - apply Z.ltb_ge in Hmin. rewrite crop_sprite_box by (done || lia).
    pose proof Himg as (Hh & Hw & _).
    assert (∀ x y, ¬ visible_at img x y) as Hnone.
    { intros x y [Hxy Hvis].
      destruct (in_bounds_lookup img x y) as (row & p & Hrow & Hp & Hpix);
        [done..|].
      rewrite Hpix in Hvis. unfold visible_pixels in Hzero.
      apply list_elem_of_lookup_2 in Hrow, Hp.
      assert (sum_list (map (λ row : list Pixel,
                length (filter (λ p, 0 < alpha p) row)) img) = 0%nat) as E
        by lia.
      assert (length (filter (λ p, 0 < alpha p) row) = 0%nat) as Hlen.
      { clear -E Hrow. revert E Hrow.
        induction img as [|r img IH]; intros E Hrow;
          [by apply elem_of_nil in Hrow|].
        simpl in E. apply elem_of_cons in Hrow as [->|Hrow]; [lia|].
        apply IH; [lia|done]. }
      apply length_zero_iff_nil in Hlen.
      assert (p ∈ filter (λ p, 0 < alpha p) row) as Hin
        by by apply list_elem_of_filter.
      rewrite Hlen in Hin. by apply elem_of_nil in Hin. }
    assert (∀ l : list bool, (∀ i, l !! i ≠ Some true) →
                             first_true l = 0%nat) as Hft.
    { intros l Hl. apply first_true_none.
      destruct (existsb id l) eqn:Hex; [|done].
      apply existsb_first_true in Hex as [Hat _]. by apply Hl in Hat. }
    assert (∀ i, any_axis1 (map (map alpha) img) !! i ≠ Some true) as Hrows.
    { intros i Hi. apply any_axis1_lookup in Hi as (r & j & q & Hr & Hq & ?).
      destruct (valid_grid_lookup img i j r q) as [Hin Hq']; [done..|].
      apply (Hnone (Z.of_nat j) (Z.of_nat i)). split; [done|]. by rewrite Hq'. }
    assert (∀ j, any_axis0 (map (map alpha) img) (width img) !! j
                 ≠ Some true) as Hcols.
    { intros j Hj.
      apply any_axis0_lookup in Hj as (_ & i & r & q & Hr & Hq & ?).
      destruct (valid_grid_lookup img i j r q) as [Hin Hq']; [done..|].
      apply (Hnone (Z.of_nat j) (Z.of_nat i)). split; [done|]. by rewrite Hq'. }
    assert (∀ (l : list bool) i, (∀ i, l !! i ≠ Some true) →
                                 reverse l !! i ≠ Some true) as Hrev.
    { intros l i Hl Hi. apply list_elem_of_lookup_2 in Hi.
      rewrite elem_of_reverse in Hi.
      apply list_elem_of_lookup in Hi as [k Hk]. by apply Hl in Hk. }
    unfold first_row, last_row, first_col, last_col.
    rewrite !Hft by auto. simpl.
    rewrite !Z.max_l, !Z.min_l by lia.
    replace (width img - 1 + 1) with (width img) by lia.
    replace (height img - 1 + 1) with (height img) by lia.
    by rewrite crop_whole.
Qed.

Lemma crop_sprite_transparent_witness :
  crop_sprite clear_cell (mkConfig 230 80 (4 # 5) 10 512 25 0 8) =
  if 0 <? min_sprite_pixels (mkConfig 230 80 (4 # 5) 10 512 25 0 8)
  then Returned None else Returned (Some clear_cell).
Proof.
  apply (crop_sprite_transparent clear_cell
           (mkConfig 230 80 (4 # 5) 10 512 25 0 8)).
  - compute_done.
  - simpl. lia.
  - reflexivity.
Defined.

(** ** The pipeline *)

Lemma remove_background_valid img cfg :
  valid_grid img →
  ∃ out, remove_background img cfg = Some out ∧ valid_grid out.
Proof.
  intros Himg. destruct (background_mask_total img cfg) as (m & Hm & _).
  exists (apply_mask img m). unfold remove_background. rewrite Hm.
  split; [done|]. by apply valid_grid_apply_mask.
Qed.

Lemma resize_sprite_size resample img size :
  1 <= size →
  width (resize_sprite resample img size) = size
  ∧ height (resize_sprite resample img size) = size.
Proof.
  intros Hsize. unfold resize_sprite.
  rewrite width_paste, height_paste, width_new_image, height_new_image by lia.
  done.
Qed.

Lemma numbered_snoc saved g :
  numbered saved → numbered (saved ++ [(Z.of_nat (length saved), g)]).
Proof.
  unfold numbered. intros Hn.
  rewrite fmap_app, length_app, Hn. simpl.
  rewrite Nat2Z.inj_add. simpl.
  rewrite seqZ_app by lia. by rewrite Z.add_0_l.
Qed.

Lemma save_sprites_spec resample cfg cell_images saved :
  0 <= padding cfg →
  Forall valid_grid cell_images →
  numbered saved → Forall (λ s, output_sized cfg s.2) saved →
  ∃ saved',
    save_sprites resample cfg cell_images saved (Z.of_nat (length saved))
      = Some (Returned saved') ∧
    (length saved' <= length saved + length cell_images)%nat ∧
    numbered saved' ∧ Forall (λ s, output_sized cfg s.2) saved'.
Proof.
  intros Hpad Hcells. revert saved.
  induction Hcells as [|cell cells Hcell _ IH]; intros saved Hnum Hsized.
  - exists saved. simpl. split; [done|]. split; [lia|done].
  - cbn [save_sprites].
    destruct (remove_background_valid cell cfg Hcell) as (cleaned & -> & Hcl).
    destruct (decide (count_nonzero (map (map alpha) cleaned)
                      < min_sprite_pixels cfg)) as [Hskip|Hkeep].
    + unfold crop_sprite at 1.
      replace (_ <? _) with true by (symmetry; by apply Z.ltb_lt).
      destruct (IH saved Hnum Hsized) as (saved' & -> & Hlen & Hn & Hs).
      exists saved'. split; [done|]. split; [simpl; lia|done].
    + destruct (crop_sprite_unskipped cleaned cfg Hcl Hpad Hkeep)
        as (g & -> & Hg).
      set (final := if 0 <? output_size cfg
                    then resize_sprite resample g (output_size cfg) else g).
      destruct (IH (saved ++ [(Z.of_nat (length saved), final)]))
        as (saved' & Hrun & Hlen & Hn & Hs).
      * by apply numbered_snoc.
      * apply Forall_app. split; [done|]. constructor; [|done].
        unfold output_sized, final. simpl.
        destruct (0 <? output_size cfg) eqn:Hsize; [|done].
        apply Z.ltb_lt in Hsize. apply resize_sprite_size. lia.
      * exists saved'. split.
        { rewrite <- Hrun, length_app, Nat2Z.inj_add. reflexivity. }
        rewrite length_app in Hlen. simpl in Hlen |- *. split; [lia|done].
Qed.

(** X16. On a valid sheet and with a padding that is not negative the
    loop of [process_image] finishes without an exception (reading and
    writing the files aside); it saves at most one sprite per detected cell,
    the files are numbered [0 .. n-1] without a gap even when cells are
    skipped, and every saved image is a square of side [output_size], or,
    when [output_size] is not positive, a valid cropped grid. *)
Theorem process_image_total resample img cfg :
  valid_grid img → 0 <= padding cfg →
  ∃ saved,
    process_image resample img cfg = Some (Returned saved) ∧
    (length saved <= length (detect_cells img cfg))%nat ∧
    numbered saved ∧ Forall (λ s, output_sized cfg s.2) saved.
Proof.
  intros Himg Hpad. unfold process_image.
  destruct (split_cells_proper img (detect_cells img cfg) Himg)
    as (cell_images & -> & Hall); [by apply detect_cells_proper|].
  destruct (save_sprites_spec resample cfg cell_images [])
    as (saved & Hrun & Hlen & Hn & Hs); [done| |done|done|].
  { apply Forall_forall. intros g Hg.
    apply list_elem_of_lookup in Hg as [i Hi].
    destruct (Forall2_lookup_r _ _ _ _ _ Hall Hi) as (r & _ & Hcell).
    by destruct Hcell. }
  exists saved. simpl in Hrun. split; [done|].
  apply Forall2_length in Hall. split; [simpl in Hlen; lia|done].
Qed.

Lemma process_image_total_witness :
  ∃ saved,
    process_image flat_resample lone_sheet default_config
      = Some (Returned saved) ∧
    (length saved <= length (detect_cells lone_sheet default_config))%nat ∧
    numbered saved ∧ Forall (λ s, output_sized default_config s.2) saved.
Proof.
  apply (process_image_total flat_resample lone_sheet default_config).
  - compute_done.
  - simpl. lia.
Defined.

Lemma save_sprites_blank resample cfg cell_images saved idx :
  0 <= flood_fill_tolerance cfg → 1 <= min_sprite_pixels cfg →
  Forall (λ g, valid_grid g ∧
               ∀ x y, in_bounds g x y →
                      near_white_at g (white_threshold cfg) x y = true)
         cell_images →
  save_sprites resample cfg cell_images saved idx = Some (Returned saved).
Proof.
  intros Htol Hmin Hcells.
  induction Hcells as [|cell cells [Hcell Hwhite] _ IH]; [done|].
  cbn [save_sprites].
  destruct (remove_background_all_white cell cfg)
    as (out & -> & Hvalid & _ & Hvis); [done..|].
  unfold crop_sprite at 1. rewrite count_nonzero_visible, Hvis by done.
  by replace (0 <? _) with true by (symmetry; apply Z.ltb_lt; lia).
Qed.

(** X17. A valid sheet all of whose pixels are near-white yields no
    sprite when [min_sprite_pixels] is at least 1. *)
Theorem process_image_blank resample img cfg :
  valid_grid img → valid_config cfg → 1 <= min_sprite_pixels cfg →
  (∀ x y, in_bounds img x y →
          near_white_at img (white_threshold cfg) x y = true) →
  process_image resample img cfg = Some (Returned []).
Proof.
  intros Himg (_ & _ & _ & Htol & _) Hmin Hwhite. unfold process_image.
  pose proof (detect_cells_proper img cfg Himg) as Hproper.
  destruct (split_cells_proper img (detect_cells img cfg) Himg Hproper)
    as (cell_images & -> & Hall).
  apply save_sprites_blank; [done..|].
  apply Forall_forall. intros g Hg.
  apply list_elem_of_lookup in Hg as [i Hi].
  destruct (Forall2_lookup_r _ _ _ _ _ Hall Hi) as (r & Hr & Hcell).
  rewrite Forall_lookup in Hproper.
  destruct (Hproper i r Hr) as ((Hx & Hxw & Hy & Hyh) & Hw & Hh).
  destruct Hcell as (Hvalid & Hgw & Hgh & Hpix).
  split; [done|]. intros x y [Hgx Hgy].
  unfold near_white_at. rewrite Hpix by lia.
  apply Hwhite. unfold in_bounds. lia.
Qed.

Lemma process_image_blank_witness :
  process_image flat_resample blank_cell default_config = Some (Returned []).
Proof.
  apply (process_image_blank flat_resample blank_cell default_config).
  - compute_done.
  - compute_done.
  - simpl. lia.
  - intros x y [Hx Hy].
    change (width blank_cell) with 4 in *.
    change (height blank_cell) with 3 in *.
    assert (x = 0 ∨ x = 1 ∨ x = 2 ∨ x = 3) as Hcx by lia.
    assert (y = 0 ∨ y = 1 ∨ y = 2) as Hcy by lia.
    destruct Hcx as [->|[->|[->| ->]]], Hcy as [->|[->| ->]]; done.
Defined.
